(** * SnapDBJS: a shallow embedding of the storage code and its properties

    The development follows the TypeScript sources:
    - [worker/storage/BloomFilter.ts], [Memtable.ts] (which also holds the
      WAL class), [SSTable.ts], the [StorageEngine] class,
    - [worker/compaction/CompactionEngine.ts] (which also holds the worker
      thread's [executeCommand]),
    - [simple-storage/SimpleStorage.ts] and [client/SimpleSnapDB.ts], the
      store that the package exports as [SnapDB].

    Conventions.  JavaScript numbers are modelled by [Z] (all the numbers
    that occur are integers: timestamps, sizes, hashes; 32-bit wrap-around
    is written out where the source forces it).  Strings are Rocq strings,
    i.e. sequences of code units below 256.  Keys are strings, so that
    [String(key)] is the key itself.  Every call of [Date.now()] inside one
    operation reads the same instant [now], passed as an argument.  A
    call that can throw returns a [Completion] next to the state it
    leaves behind.  The logger is taken to work; its calls are left out. *)

From Stdlib Require Import ZArith List String Ascii Bool Lia Permutation.
Import ListNotations.

Set Implicit Arguments.

Local Open Scope Z_scope.
Local Open Scope string_scope.
Local Open Scope list_scope.

(* ================================================================== *)
(** ** JavaScript values and the insertion-ordered [Map] *)

Module JS.

(** The values that can sit in a store: [undefined], [null], a number
    or a string. *)
Inductive jsval : Type :=
| JUndefined
| JNull
| JNum (n : Z)
| JStr (s : string).

Definition jsval_eqb (a b : jsval) : bool :=
  match a, b with
  | JUndefined, JUndefined => true
  | JNull, JNull => true
  | JNum x, JNum y => (x =? y)%Z
  | JStr x, JStr y => (x =? y)%string
  | _, _ => false
  end.

(** [v === null] *)
Definition is_null (v : jsval) : bool :=
  match v with JNull => true | _ => false end.

(** [v === undefined] *)
Definition is_undefined (v : jsval) : bool :=
  match v with JUndefined => true | _ => false end.

(** Truthiness of an optional number ([ttl ? a : b], [!args.ttl]):
    [undefined] and [0] are falsy. *)
Definition truthy_num (o : option Z) : bool :=
  match o with
  | Some n => negb (n =? 0)%Z
  | None => false
  end.

(** Truthiness of an optional string ([!args.key], [pattern ? a : b]):
    [undefined] and the empty string are falsy. *)
Definition truthy_str (o : option string) : bool :=
  match o with
  | Some s => negb (s =? "")%string
  | None => false
  end.

(** [ToInt32]: the value a bitwise operator sees. *)
Definition toInt32 (z : Z) : Z :=
  (z + 2 ^ 31) mod 2 ^ 32 - 2 ^ 31.

(** [Math.ceil(a / b)] for an integer [a] and a positive integer [b]. *)
Definition ceil_div (a b : Z) : Z := - ((- a) / b).

(** A JavaScript [Map<string, V>]: bindings in insertion order, every key
    at most once; [set] on a key that is present keeps its position. *)
Section MAP.
Variable V : Type.

Definition Map := list (string * V).

Fixpoint map_get (k : string) (m : Map) : option V :=
  match m with
  | [] => None
  | (k', v) :: r => if (k' =? k)%string then Some v else map_get k r
  end.

Definition map_has (k : string) (m : Map) : bool :=
  match map_get k m with Some _ => true | None => false end.

Fixpoint map_set (k : string) (v : V) (m : Map) : Map :=
  match m with
  | [] => [(k, v)]
  | (k', v') :: r =>
      if (k' =? k)%string then (k, v) :: r else (k', v') :: map_set k v r
  end.

Definition map_delete (k : string) (m : Map) : Map :=
  List.filter (fun kv => negb (fst kv =? k)%string) m.

Definition map_size (m : Map) : Z := Z.of_nat (List.length m).

Definition map_values (m : Map) : list V := List.map snd m.

Definition map_keys (m : Map) : list string := List.map fst m.
End MAP.

(** Array update by index; like a typed array, a write outside the
    bounds is dropped. *)
Fixpoint array_set (A : Type) (i : nat) (x : A) (l : list A) : list A :=
  match l, i with
  | [], _ => []
  | _ :: r, O => x :: r
  | y :: r, S j => y :: array_set j x r
  end.

(** Stable insertion sort, standing for [Array.prototype.sort] with a
    comparator that returns a negative, zero or positive number. *)
Section SORT.
Variable A : Type.
Variable cmp : A -> A -> Z.

Fixpoint sort_insert (x : A) (l : list A) : list A :=
  match l with
  | [] => [x]
  | y :: r => if (cmp x y <? 0)%Z then x :: y :: r else y :: sort_insert x r
  end.

Definition array_sort (l : list A) : list A :=
  List.fold_left (fun acc x => sort_insert x acc) l [].
End SORT.

(** The errors that the storage code meets: the [TypeError] of the
    language, and the [SerializationError] and [StorageError] of the
    package's error classes. *)
Inductive Exception : Type :=
| TypeError
| SerializationError
| StorageError.

(** How a call ends: it returns a value, or it throws. *)
Inductive Completion (A : Type) : Type :=
| Completed (a : A)
| Threw (x : Exception).
Arguments Completed {A} a.
Arguments Threw {A} x.

Definition threw (A : Type) (c : Completion A) : bool :=
  match c with Threw _ => true | Completed _ => false end.

(** [object.name(...)] for a [name] that the class of the object does
    not define: the property is [undefined], and calling it throws a
    [TypeError]. *)
Definition undefined_method (A : Type) : Completion A := Threw TypeError.

(** [undefined.name]: reading a property of [undefined] throws a
    [TypeError]. *)
Definition property_of_undefined (A : Type) : Completion A := Threw TypeError.

End JS.
Import JS.

(* ================================================================== *)
(** ** Regular expressions: the fragment the key patterns use *)

Module Regex.

Inductive atom : Type :=
| ALit (c : ascii)
| AAny.

Inductive item : Type :=
| IOne (a : atom)
| IStar (a : atom)
| IOpt (a : atom)
| IBol
| IEol.

Definition regex := list item.

(** [.] matches every code unit but the line terminators. *)
Definition atom_matches (a : atom) (c : ascii) : bool :=
  match a with
  | ALit d => Ascii.eqb d c
  | AAny => negb (Ascii.eqb c "010" || Ascii.eqb c "013")
  end.

(** The fourteen syntax characters of a pattern. *)
Definition syntax_char (c : ascii) : bool :=
  existsb (Ascii.eqb c)
    ["^"; "$"; "\"; "."; "*"; "+"; "?"; "("; ")"; "["; "]"; "{"; "}"; "|"]%char.

(** The characters that start a quantifier.  A quantifier that is
    itself followed by one of them (lazy or repeated) is outside the
    fragment. *)
Definition quantifier_char (c : ascii) : bool :=
  existsb (Ascii.eqb c) ["*"; "+"; "?"; "{"]%char.

Definition starts_with_quantifier (s : string) : bool :=
  match s with
  | String c _ => quantifier_char c
  | EmptyString => false
  end.

(** An atom with the quantifier that may follow it; [parse] reads the
    rest of the source. *)
Definition quantified (parse : string -> option regex) (a : atom) (rest : string)
  : option regex :=
  let plain := option_map (cons (IOne a)) (parse rest) in
  match rest with
  | EmptyString => plain
  | String q rest' =>
      if Ascii.eqb q "*" then
        if starts_with_quantifier rest' then None
        else option_map (cons (IStar a)) (parse rest')
      else if Ascii.eqb q "+" then
        if starts_with_quantifier rest' then None
        else option_map (fun r => IOne a :: IStar a :: r) (parse rest')
      else if Ascii.eqb q "?" then
        if starts_with_quantifier rest' then None
        else option_map (cons (IOpt a)) (parse rest')
      else plain
  end.

(** [new RegExp(source)], for sources made of literal characters,
    escaped syntax characters, [.], [^], [$] and the quantifiers [*],
    [+], [?] on a single atom.  [None]: the source is outside this
    fragment (groups, classes, alternatives, class escapes, braces,
    lazy quantifiers, ...) or is not a regular expression at all. *)
Fixpoint parse_fuel (fuel : nat) (s : string) : option regex :=
  match fuel with
  | O => None
  | S fuel' =>
      match s with
      | EmptyString => Some []
      | String c rest =>
          if Ascii.eqb c "\" then
            match rest with
            | String d rest' =>
                if syntax_char d then quantified (parse_fuel fuel') (ALit d) rest'
                else None
            | EmptyString => None
            end
          else if Ascii.eqb c "." then quantified (parse_fuel fuel') AAny rest
          else if Ascii.eqb c "^" then
            if starts_with_quantifier rest then None
            else option_map (cons IBol) (parse_fuel fuel' rest)
          else if Ascii.eqb c "$" then
            if starts_with_quantifier rest then None
            else option_map (cons IEol) (parse_fuel fuel' rest)
          else if syntax_char c then None
          else quantified (parse_fuel fuel') (ALit c) rest
      end
  end.

(** Every step consumes at least one character, so the length of the
    source (plus one) is enough fuel. *)
Definition RegExp (source : string) : option regex :=
  parse_fuel (S (String.length source)) source.

(** Backtracking match of a whole item list at the head of [s];
    [at_start] says whether [s] is the whole subject (for [^]). *)
Fixpoint match_here (r : regex) : string -> bool -> bool :=
  match r with
  | [] => fun _ _ => true
  | IBol :: r' => fun s at_start => at_start && match_here r' s at_start
  | IEol :: r' => fun s at_start =>
      match s with
      | EmptyString => match_here r' s at_start
      | String _ _ => false
      end
  | IOne a :: r' => fun s _ =>
      match s with
      | String c s' => atom_matches a c && match_here r' s' false
      | EmptyString => false
      end
  | IOpt a :: r' => fun s at_start =>
      match_here r' s at_start ||
      match s with
      | String c s' => atom_matches a c && match_here r' s' false
      | EmptyString => false
      end
  | IStar a :: r' =>
      fix star (s : string) (at_start : bool) : bool :=
        match_here r' s at_start ||
        match s with
        | String c s' => atom_matches a c && star s' false
        | EmptyString => false
        end
  end.

Fixpoint search (r : regex) (s : string) (at_start : bool) : bool :=
  match_here r s at_start ||
  match s with
  | String _ s' => search r s' false
  | EmptyString => false
  end.

(** [regex.test(subject)]: is there a match anywhere in the subject? *)
Definition test (r : regex) (subject : string) : bool :=
  search r subject true.

(** [s.replace(/c/g, by)] for a single character [c]. *)
Fixpoint replace_char (c : ascii) (by_ : string) (s : string) : string :=
  match s with
  | EmptyString => EmptyString
  | String d s' =>
      if Ascii.eqb d c then by_ ++ replace_char c by_ s'
      else String d (replace_char c by_ s')
  end.

(** The class [[.+^${}()|[\]\\]] of [patternToRegex]. *)
Definition escaped_char (c : ascii) : bool :=
  existsb (Ascii.eqb c)
    ["."; "+"; "^"; "$"; "{"; "}"; "("; ")"; "|"; "["; "]"; "\"]%char.

(** [s.replace(/[.+^${}()|[\]\\]/g, '\\$&')] *)
Fixpoint escape_special (s : string) : string :=
  match s with
  | EmptyString => EmptyString
  | String d s' =>
      if escaped_char d then String "\" (String d (escape_special s'))
      else String d (escape_special s')
  end.

(** [patternToRegex] of [Memtable.ts] and [SSTable.ts]. *)
Definition patternToRegex (pattern : string) : option regex :=
  let regexPattern :=
    replace_char "?" "." (replace_char "*" ".*" (escape_special pattern)) in
  RegExp ("^" ++ regexPattern ++ "$").

(** The matcher that §4.7 of the specification describes: the glob read
    item by item ([*] any run, [?] any one character, the rest
    literal), anchored at both ends. *)
Definition glob_item (c : ascii) : item :=
  if Ascii.eqb c "*" then IStar AAny
  else if Ascii.eqb c "?" then IOne AAny
  else IOne (ALit c).

Definition glob_regex (pattern : string) : regex :=
  IBol :: List.map glob_item (list_ascii_of_string pattern) ++ [IEol].

Definition glob_meta (c : ascii) : bool :=
  escaped_char c || Ascii.eqb c "*" || Ascii.eqb c "?".

End Regex.

(* ================================================================== *)
(** ** Entries ([types/index.ts]) and the host functions *)

(** [StorageEntry]: a [null] value is a tombstone; [ttl], when present,
    is the absolute expiry instant. *)
Record StorageEntry : Type := mkEntry {
  key : string;
  value : jsval;
  timestamp : Z;
  ttl : option Z;
  version : option Z
}.

(** [entry.ttl && entry.ttl < now] *)
Definition expired (e : StorageEntry) (now : Z) : bool :=
  match ttl e with
  | Some t => negb (t =? 0)%Z && (t <? now)%Z
  | None => false
  end.

(** Functions of the host and of the configuration that the storage code
    calls: [jsonByteLength v] is [Buffer.byteLength(JSON.stringify(v),
    'utf-8')] for a value [v] other than [undefined];
    [calculateEntrySize] is [calculateSize(entry, config.serializer)] on
    an entry object; [serialize] is the configured serializer on a key;
    [localeCompare] is the collation of [String.prototype.localeCompare]. *)
Class Host : Type := {
  jsonByteLength : jsval -> Z;
  calculateEntrySize : StorageEntry -> Z;
  serialize : string -> string;
  localeCompare : string -> string -> Z
}.

(** [calculateSize(value)] of [utils/serializer.ts] with the default
    serializer.  [JSON.stringify(undefined)] is [undefined], which is no
    string and has no [length]: the read throws, and the [catch] of
    [calculateSize] throws a [SerializationError].  [null], numbers and
    strings are turned into a string. *)
Definition calculateSize `{Host} (value : jsval) : Completion Z :=
  match value with
  | JUndefined => Threw SerializationError
  | _ => Completed (jsonByteLength value)
  end.

Definition compare_keys `{Host} (a b : StorageEntry) : Z :=
  localeCompare (key a) (key b).

(** [a < b] on strings compares code units. *)
Definition str_lt (a b : string) : bool := String.ltb a b.

(* ================================================================== *)
(** ** [BloomFilter.ts] *)

Module BloomFilter.

Record t : Type := mk {
  bits : list Z;        (* Uint8Array *)
  size : Z;
  numHashes : nat
}.

(** The constructor; a negative array length makes [new Uint8Array]
    throw a [RangeError] ([None]). *)
Definition new (size : Z) (numHashes : nat) : option t :=
  let len := ceil_div size 8 in
  if (len <? 0)%Z then None
  else Some (mk (List.repeat 0%Z (Z.to_nat len)) size numHashes).

(** [hash]: [hash = ((hash << 5) - hash) + char; hash = hash & hash],
    then [Math.abs]. *)
Definition hash_step (h : Z) (c : ascii) : Z :=
  toInt32 (toInt32 (h * 32) - h + Z.of_nat (nat_of_ascii c)).

Fixpoint hash_loop (h : Z) (str : string) : Z :=
  match str with
  | EmptyString => h
  | String c rest => hash_loop (hash_step h c) rest
  end.

Definition hash (str : string) : Z := Z.abs (hash_loop 0 str).

(** [getHashes]: the sums are exact in double precision as long as
    they stay below 2^53, that is for fewer than 2^21 hash functions. *)
Definition getHashes (f : t) (key : string) : list Z :=
  let hash1 := hash key in
  let hash2 := hash (key ++ "salt") in
  List.map (fun i => Z.abs (hash1 + Z.of_nat i * hash2))
           (List.seq 0 (numHashes f)).

(** [hash % this.size]: the remainder has the sign of the dividend, and
    is [NaN] ([None]) when the size is zero. *)
Definition index_of (f : t) (h : Z) : option Z :=
  if (size f =? 0)%Z then None else Some (Z.rem h (size f)).

(** [this.bits[byteIndex] |= (1 << bitIndex)]: a read outside the array
    is [undefined], which [|] takes for 0; a write outside the array,
    or at index [NaN], is dropped; the array keeps 8 bits. *)
Definition set_bit (bs : list Z) (index : option Z) : list Z :=
  match index with
  | None => bs
  | Some i =>
      let byteIndex := Z.to_nat (i / 8) in
      let bitIndex := Z.rem i 8 in
      let old := List.nth byteIndex bs 0%Z in
      if (i <? 0)%Z then bs
      else array_set byteIndex (Z.lor old (Z.shiftl 1 bitIndex) mod 256) bs
  end.

(** [(this.bits[byteIndex] & (1 << bitIndex)) === 0] negated. *)
Definition get_bit (bs : list Z) (index : option Z) : bool :=
  match index with
  | None => false
  | Some i =>
      let byteIndex := Z.to_nat (i / 8) in
      let bitIndex := Z.rem i 8 in
      let cur := if (i <? 0)%Z then 0%Z else List.nth byteIndex bs 0%Z in
      negb (Z.land cur (Z.shiftl 1 bitIndex) =? 0)%Z
  end.

Definition add (f : t) (key : string) : t :=
  mk (List.fold_left (fun bs h => set_bit bs (index_of f h)) (getHashes f key) (bits f))
     (size f) (numHashes f).

Definition contains (f : t) (key : string) : bool :=
  List.forallb (fun h => get_bit (bits f) (index_of f h)) (getHashes f key).

Definition addAll (f : t) (keys : list string) : t :=
  List.fold_left add keys f.

End BloomFilter.

(* ================================================================== *)
(** ** [Memtable.ts]: the memtable and the write-ahead log *)

Module Memtable.

Record t : Type := mk {
  data : Map StorageEntry;
  sizeBytes : Z;
  maxSizeBytes : Z
}.

Definition new (maxSizeMB : Z) : t :=
  mk [] 0 (maxSizeMB * 1024 * 1024).

Section WITH_HOST.
Context `{Host}.

(** The private [calculateEntrySize] of the memtable: the size of the
    key, the size of the value, and the fixed parts. *)
Definition entrySize (e : StorageEntry) : Completion Z :=
  match calculateSize (JStr (key e)) with
  | Threw x => Threw x
  | Completed keySize =>
      match calculateSize (value e) with
      | Threw x => Threw x
      | Completed valueSize =>
          Completed (keySize + valueSize + 8
                     + (if truthy_num (ttl e) then 8 else 0) + 4)
      end
  end.

(** The entry that [set] builds: [ttl ? Date.now() + ttl : undefined]
    and [(existingEntry?.version || 0) + 1]. *)
Definition newEntry (existingEntry : option StorageEntry) (k : string) (v : jsval)
           (ttl_ms : option Z) (now : Z) : StorageEntry :=
  mkEntry k v now
    (match ttl_ms with
     | Some n => if truthy_num ttl_ms then Some (now + n) else None
     | None => None
     end)
    (Some (match existingEntry with
           | Some e => match version e with Some n => n | None => 0 end
           | None => 0
           end + 1)).

(** [set].  The size of the entry that is replaced is computed first,
    and a throw there leaves the memtable as it was; the size of the new
    entry is computed after the entry has been put into the map, and a
    throw there leaves the entry in the map and its size out of
    [sizeBytes]. *)
Definition set (m : t) (k : string) (v : jsval) (ttl_ms : option Z) (now : Z)
  : Completion unit * t :=
  let existingEntry := map_get k (data m) in
  match (match existingEntry with
         | Some e => entrySize e
         | None => Completed 0
         end) with
  | Threw x => (Threw x, m)
  | Completed old =>
      let entry := newEntry existingEntry k v ttl_ms now in
      let d := map_set k entry (data m) in
      match entrySize entry with
      | Threw x => (Threw x, mk d (sizeBytes m - old) (maxSizeBytes m))
      | Completed size =>
          (Completed tt, mk d (sizeBytes m - old + size) (maxSizeBytes m))
      end
  end.

(** [get]: [null] when there is no entry; an expired entry is removed
    from the map, and then its size is computed and taken off
    [sizeBytes]. *)
Definition get (m : t) (k : string) (now : Z) : Completion jsval * t :=
  match map_get k (data m) with
  | None => (Completed JNull, m)
  | Some e =>
      if expired e now then
        let d := map_delete k (data m) in
        match entrySize e with
        | Threw x => (Threw x, mk d (sizeBytes m) (maxSizeBytes m))
        | Completed size => (Completed JNull, mk d (sizeBytes m - size) (maxSizeBytes m))
        end
      else (Completed (value e), m)
  end.

Definition getEntry (m : t) (k : string) (now : Z)
  : Completion (option StorageEntry) * t :=
  match map_get k (data m) with
  | None => (Completed None, m)
  | Some e =>
      if expired e now then
        let d := map_delete k (data m) in
        match entrySize e with
        | Threw x => (Threw x, mk d (sizeBytes m) (maxSizeBytes m))
        | Completed size => (Completed None, mk d (sizeBytes m - size) (maxSizeBytes m))
        end
      else (Completed (Some e), m)
  end.

(** [delete]: the size of the entry is computed and taken off
    [sizeBytes], then the entry is removed from the map; no tombstone is
    written. *)
Definition delete (m : t) (k : string) : Completion bool * t :=
  match map_get k (data m) with
  | Some e =>
      match entrySize e with
      | Threw x => (Threw x, m)
      | Completed size =>
          (Completed true, mk (map_delete k (data m)) (sizeBytes m - size) (maxSizeBytes m))
      end
  | None => (Completed false, m)
  end.

(** [keys]: [None] when the pattern does not compile. *)
Definition keys (m : t) (pattern : option string) (now : Z) : option (list string) :=
  let scan (matches : string -> bool) :=
    List.map key
      (List.filter
         (fun e => negb (expired e now) && negb (is_null (value e)) && matches (key e))
         (map_values (data m))) in
  match pattern with
  | Some p =>
      if truthy_str pattern
      then option_map (fun re => scan (Regex.test re)) (Regex.patternToRegex p)
      else Some (scan (fun _ => true))
  | None => Some (scan (fun _ => true))
  end.

Definition clear (m : t) : t := mk [] 0 (maxSizeBytes m).

Definition shouldFlush (m : t) : bool := (maxSizeBytes m <=? sizeBytes m)%Z.

Definition isEmpty (m : t) : bool := (map_size (data m) =? 0)%Z.

Definition getAllEntries (m : t) (now : Z) : list StorageEntry :=
  array_sort compare_keys
    (List.filter (fun e => negb (expired e now)) (map_values (data m))).
End WITH_HOST.

End Memtable.

Module WAL.

(** What a caller hands to [append(entry)]: an entry, as the signature
    asks, or, as the engine does in [append('SET', key, value, ttl)],
    the name of the operation; the method has one parameter and pushes
    it, the other arguments are dropped. *)
Inductive record : Type :=
| Entry (e : StorageEntry)
| Tag (operation : string).

Definition t := list record.

Definition new : t := [].

(** [append] pushes; the flush every hundredth record writes nothing. *)
Definition append (w : t) (entry : record) : t := w ++ [entry].

Definition replay (w : t) : list record := w.

Definition clear (w : t) : t := [].

Definition getSize (w : t) : Z := Z.of_nat (List.length w).

End WAL.

(* ================================================================== *)
(** ** [SSTable.ts] *)

Module SSTable.

Record Metadata : Type := mkMeta {
  meta_id : Z * Z;          (* sstable_<now>_<index> *)
  meta_level : Z;
  minKey : string;
  maxKey : string;
  meta_size : Z;
  meta_entries : Z;
  createdAt : Z;
  meta_bloom : option BloomFilter.t
}.

Record t : Type := mk {
  id : Z * Z;
  level : Z;
  entries : list StorageEntry;
  bloomFilter : option BloomFilter.t;
  metadata : Metadata
}.

Section WITH_HOST.
Context `{Host}.

(** The filter of the constructor: built when it is enabled and the
    run is not empty, with ten bits per key and the default three
    hash functions. *)
Definition buildBloom (enableBloomFilter : bool) (es : list StorageEntry)
  : option BloomFilter.t :=
  if enableBloomFilter && (0 <? Z.of_nat (List.length es))%Z then
    match BloomFilter.new (Z.of_nat (List.length es) * 10) 3 with
    | Some f => Some (BloomFilter.addAll f (List.map (fun e => serialize (key e)) es))
    | None => None
    end
  else None.

Definition calculateMetadata (id : Z * Z) (level : Z) (es : list StorageEntry)
           (bf : option BloomFilter.t) (now : Z) : Metadata :=
  mkMeta id level
    (match es with e :: _ => key e | [] => "" end)
    (match List.rev es with e :: _ => key e | [] => "" end)
    (List.fold_left (fun acc e => acc + calculateEntrySize e) es 0)
    (Z.of_nat (List.length es))
    now bf.

Definition new (index level : Z) (es : list StorageEntry)
           (enableBloomFilter : bool) (now : Z) : t :=
  let bf := buildBloom enableBloomFilter es in
  mk (now, index) level es bf (calculateMetadata (now, index) level es bf now).

(** The [while (left <= right)] loop of [binarySearch]; the outer
    [None] is fuel running out. *)
Fixpoint binarySearch_loop (fuel : nat) (es : list StorageEntry)
         (targetKey : string) (left right : Z) : option (option StorageEntry) :=
  match fuel with
  | O => None
  | S fuel' =>
      if (left <=? right)%Z then
        let mid := (left + right) / 2 in
        match List.nth_error es (Z.to_nat mid) with
        | None => Some None
        | Some e =>
            if (key e =? targetKey)%string then Some (Some e)
            else if str_lt (key e) targetKey
                 then binarySearch_loop fuel' es targetKey (mid + 1) right
                 else binarySearch_loop fuel' es targetKey left (mid - 1)
        end
      else Some None
  end.

Definition binarySearch (s : t) (k : string) : option StorageEntry :=
  match binarySearch_loop (S (List.length (entries s))) (entries s) k
          0 (Z.of_nat (List.length (entries s)) - 1) with
  | Some r => r
  | None => None
  end.

(** [get]: [undefined] when the filter rejects the key, when the
    search finds nothing, or when the entry has expired; otherwise
    the entry's value, [null] for a tombstone. *)
Definition get (s : t) (k : string) (now : Z) : jsval :=
  let rejected :=
    match bloomFilter s with
    | Some f => negb (BloomFilter.contains f (serialize k))
    | None => false
    end in
  if rejected then JUndefined
  else match binarySearch s k with
       | None => JUndefined
       | Some e => if expired e now then JUndefined else value e
       end.

Definition getEntries (s : t) : list StorageEntry := entries s.

Definition getLevel (s : t) : Z := level s.

Definition getMetadata (s : t) : Metadata := metadata s.

Definition overlaps (s other : t) : bool :=
  negb (str_lt (maxKey (metadata s)) (minKey (metadata other))
        || str_lt (maxKey (metadata other)) (minKey (metadata s))).
End WITH_HOST.

End SSTable.

(* ================================================================== *)
(** ** [CompactionEngine.ts] *)

Module CompactionEngine.

Record CompactionStats : Type := mkStats {
  stat_level : Z;
  inputFiles : Z;
  outputFiles : Z;
  inputSize : Z;
  outputSize : Z;
  duration : Z;
  entriesCompacted : Z;
  entriesDropped : Z
}.

Record CompactionResult : Type := mkResult {
  sstables : list SSTable.t;
  stats : CompactionStats
}.

Definition len (A : Type) (l : list A) : Z := Z.of_nat (List.length l).

Definition sum_size (ts : list SSTable.t) : Z :=
  List.fold_left (fun sum s => sum + SSTable.meta_size (SSTable.metadata s)) ts 0.

Definition sum_entries (ts : list SSTable.t) : Z :=
  List.fold_left (fun sum s => sum + SSTable.meta_entries (SSTable.metadata s)) ts 0.

(** The body of the two nested loops that fill [keyMap]: an entry
    replaces the one recorded for its key only when its timestamp is
    strictly larger. *)
Definition keep_latest (keyMap : Map StorageEntry) (entry : StorageEntry)
  : Map StorageEntry :=
  match map_get (key entry) keyMap with
  | None => map_set (key entry) entry keyMap
  | Some existing =>
      if (timestamp existing <? timestamp entry)%Z
      then map_set (key entry) entry keyMap
      else keyMap
  end.

Definition all_entries (ts : list SSTable.t) : list StorageEntry :=
  List.concat (List.map SSTable.entries ts).

Definition build_keyMap (ts : list SSTable.t) : Map StorageEntry :=
  List.fold_left
    (fun keyMap s => List.fold_left keep_latest (SSTable.entries s) keyMap)
    ts [].

(** The filter of both merges: neither a tombstone nor expired. *)
Definition valid (now : Z) (e : StorageEntry) : bool :=
  negb (is_null (value e)) && negb (expired e now).

(** One pass of the [for] loop that looks for the minimum key among the
    heads of the remaining iterators; [i] is the index of the first
    iterator of [its]. *)
Fixpoint find_min (its : list (list StorageEntry)) (i : nat)
         (best : option (nat * StorageEntry)) : option (nat * StorageEntry) :=
  match its with
  | [] => best
  | [] :: rest => find_min rest (S i) best
  | (e :: _) :: rest =>
      match best with
      | None => find_min rest (S i) (Some (i, e))
      | Some (_, m) =>
          if str_lt (key e) (key m)
          then find_min rest (S i) (Some (i, e))
          else find_min rest (S i) best
      end
  end.

(** [indices[minIndex]++] *)
Fixpoint advance (its : list (list StorageEntry)) (i : nat) : list (list StorageEntry) :=
  match its, i with
  | [], _ => []
  | it :: rest, O => List.tl it :: rest
  | it :: rest, S j => it :: advance rest j
  end.

(** The [while (true)] loop of [mergeSSTables]; [None] is fuel running out. *)
Fixpoint merge_loop (fuel : nat) (now : Z) (its : list (list StorageEntry))
         (merged : list StorageEntry) : option (list StorageEntry) :=
  match fuel with
  | O => None
  | S fuel' =>
      match find_min its 0 None with
      | None => Some merged
      | Some (minIndex, minEntry) =>
          let its' := advance its minIndex in
          if is_null (value minEntry) || expired minEntry now
          then merge_loop fuel' now its' merged
          else merge_loop fuel' now its' (merged ++ [minEntry])
      end
  end.

Definition total_length (its : list (list StorageEntry)) : nat :=
  List.fold_right (fun it n => (List.length it + n)%nat) O its.

Definition mergeSSTables (ts : list SSTable.t) (now : Z) : option (list StorageEntry) :=
  let iterators := List.map SSTable.entries ts in
  merge_loop (S (total_length iterators)) now iterators [].

Section WITH_HOST.
Context `{Host}.

Definition mergeSSTablesWithOverlap (ts : list SSTable.t) (now : Z) : list StorageEntry :=
  let keyMap := build_keyMap ts in
  let validEntries := List.filter (valid now) (map_values keyMap) in
  array_sort compare_keys validEntries.

Definition compactLevel0 (enableBloomFilter : bool) (ts : list SSTable.t) (now : Z)
  : CompactionResult :=
  let mergedEntries := mergeSSTablesWithOverlap ts now in
  let newSSTable := SSTable.new 0 1 mergedEntries enableBloomFilter now in
  mkResult [newSSTable]
    (mkStats 0 (len ts) 1 (sum_size ts)
       (SSTable.meta_size (SSTable.metadata newSSTable)) 0
       (sum_entries ts) (sum_entries ts - len mergedEntries)).

Definition compactHigherLevel (enableBloomFilter : bool) (level : Z)
           (ts : list SSTable.t) (now : Z) : option CompactionResult :=
  let toCompact := List.firstn 4 ts in
  let compactedSSTables := List.skipn 4 ts in
  if (len toCompact <=? 1)%Z
  then Some (mkResult ts (mkStats level 0 0 0 0 0 0 0))
  else
    match mergeSSTables toCompact now with
    | None => None
    | Some mergedEntries =>
        let newSSTable := SSTable.new 0 level mergedEntries enableBloomFilter now in
        Some (mkResult (compactedSSTables ++ [newSSTable])
                (mkStats level (len toCompact) 1 (sum_size toCompact)
                   (SSTable.meta_size (SSTable.metadata newSSTable)) 0
                   (sum_entries toCompact)
                   (sum_entries toCompact - len mergedEntries)))
    end.

Definition compactLevel (enableBloomFilter : bool) (level : Z)
           (ts : list SSTable.t) (now : Z) : option CompactionResult :=
  let sorted :=
    array_sort
      (fun a b => SSTable.createdAt (SSTable.metadata a)
                  - SSTable.createdAt (SSTable.metadata b)) ts in
  if (level =? 0)%Z then Some (compactLevel0 enableBloomFilter sorted now)
  else compactHigherLevel enableBloomFilter level sorted now.
End WITH_HOST.

End CompactionEngine.

(* ================================================================== *)
(** ** The [StorageEngine] class *)

(** The engine calls seven methods on its memtable that [Memtable.ts]
    does not define ([isFull], [size], [getSizeInBytes], [getEntries],
    [exists], [expire], [ttl]), one on its runs that [SSTable.ts] does
    not define ([exists]), a static [SSTable.merge] that does not exist
    either, and the constructor of [SSTable] with three arguments where
    it takes four.  Each of these calls throws a [TypeError]; inside a
    [try] of the engine the [catch] logs it and throws a [StorageError]
    in its place. *)
Module StorageEngine.

Record RunInfo : Type := mkRunInfo {
  info_id : Z * Z;
  info_level : Z;
  info_minKey : string;
  info_maxKey : string;
  info_size : Z;
  info_entries : Z;
  info_createdAt : Z
}.

Record MemtableStats : Type := mkMemStats {
  ms_size : Z;
  ms_entries : Z;
  oldestEntry : Z;
  newestEntry : Z
}.

Record StorageStats : Type := mkStorageStats {
  st_memtable : MemtableStats;
  st_sstables : list RunInfo;
  totalSize : Z;
  totalEntries : Z;
  st_compactionStats : list CompactionEngine.CompactionStats
}.

Record t : Type := mk {
  wal : WAL.t;
  memtable : Memtable.t;
  sstables : list (list SSTable.t);      (* levels 0 .. 6 *)
  enableBloomFilter : bool;
  compactionInProgress : bool;
  compactionStats : list CompactionEngine.CompactionStats
}.

Definition new (maxMemtableSizeMB : Z) (enableBloomFilter : bool) : t :=
  mk WAL.new (Memtable.new maxMemtableSizeMB) (List.repeat [] 7)
     enableBloomFilter false [].

(** [this.sstables.get(level) || []] *)
Definition tables_at (e : t) (level : nat) : list SSTable.t :=
  List.nth level (sstables e) [].

Definition with_memtable (e : t) (m : Memtable.t) : t :=
  mk (wal e) m (sstables e) (enableBloomFilter e) (compactionInProgress e)
     (compactionStats e).

Definition with_wal (e : t) (w : WAL.t) : t :=
  mk w (memtable e) (sstables e) (enableBloomFilter e) (compactionInProgress e)
     (compactionStats e).

Definition with_level (e : t) (level : nat) (tables : list SSTable.t) : t :=
  mk (wal e) (memtable e) (array_set level tables (sstables e))
     (enableBloomFilter e) (compactionInProgress e) (compactionStats e).

Definition with_compactionInProgress (e : t) (b : bool) : t :=
  mk (wal e) (memtable e) (sstables e) (enableBloomFilter e) b (compactionStats e).

(** [catch (error) { this.logger.error(...); throw new StorageError(...) }] *)
Definition rethrown (A : Type) (c : Completion A) : Completion A :=
  match c with
  | Completed a => Completed a
  | Threw _ => Threw StorageError
  end.

(** [!v] *)
Definition js_not (v : jsval) : bool :=
  match v with
  | JUndefined | JNull => true
  | JNum n => (n =? 0)%Z
  | JStr s => (s =? "")%string
  end.

(** [b === null] for a boolean [b]: a boolean is never [null]. *)
Definition bool_is_null (b : bool) : bool := false.

(** A [Set] of strings, in insertion order. *)
Definition set_add (k : string) (s : list string) : list string :=
  if List.existsb (String.eqb k) s then s else s ++ [k].

Section WITH_HOST.
Context `{Host}.

(** [flushMemtable].  Its first statement, outside the [try], calls
    [this.memtable.size()].  Inside the [try] come
    [this.memtable.getEntries()] and [new SSTable(0, entries,
    this.config.enableBloomFilter)]: the constructor's parameters are
    [(index, level, entries, config)], so [config] is [undefined] and
    the constructor throws when it reads [config.enableBloomFilter].
    The compaction that the method schedules with [setImmediate] runs
    after the command and is not part of it. *)
Definition flushMemtable (e : t) (now : Z) : Completion unit * t :=
  match undefined_method Z with                       (* this.memtable.size() *)
  | Threw x => (Threw x, e)
  | Completed size =>
      if (size =? 0)%Z then (Completed tt, e)
      else
        match undefined_method (list StorageEntry) with   (* this.memtable.getEntries() *)
        | Threw _ => (Threw StorageError, e)
        | Completed entries =>
            match property_of_undefined SSTable.t with    (* new SSTable(...) *)
            | Threw _ => (Threw StorageError, e)
            | Completed newSSTable =>
                let level0Tables := tables_at e 0 ++ [newSSTable] in
                (Completed tt,
                 mk (WAL.clear (wal e)) (Memtable.clear (memtable e))
                    (array_set 0 level0Tables (sstables e))
                    (enableBloomFilter e) (compactionInProgress e)
                    (compactionStats e))
            end
        end
  end.

(** [set]: the WAL receives the operation name, the memtable the entry,
    and then [this.memtable.isFull()] is called. *)
Definition set (e : t) (k : string) (v : jsval) (ttl_ms : option Z) (now : Z)
  : Completion unit * t :=
  let e1 := with_wal e (WAL.append (wal e) (WAL.Tag "SET")) in
  let (written, m) := Memtable.set (memtable e1) k v ttl_ms now in
  let e2 := with_memtable e1 m in
  match written with
  | Threw _ => (Threw StorageError, e2)
  | Completed _ =>
      match undefined_method bool with                (* this.memtable.isFull() *)
      | Threw _ => (Threw StorageError, e2)
      | Completed full =>
          if full
          then let (flushed, e3) := flushMemtable e2 now in (rethrown flushed, e3)
          else (Completed tt, e2)
      end
  end.

(** The inner loop of [get] over the runs of one level, last one first:
    [const value = tables[i].get(key); if (value !== null) return value].
    [get] of a run is [async], so [value] is a promise and never
    [null]: the loop returns in its first round, and the caller receives
    what the promise resolves to, [undefined] and [null] included. *)
Definition get_in_tables (tables : list SSTable.t) (k : string) (now : Z)
  : option jsval :=
  match List.rev tables with
  | [] => None
  | newest :: _ => Some (SSTable.get newest k now)
  end.

Fixpoint get_in_levels (levels : list (list SSTable.t)) (k : string) (now : Z)
  : jsval :=
  match levels with
  | [] => JNull
  | tables :: deeper =>
      match get_in_tables tables k now with
      | Some v => v
      | None => get_in_levels deeper k now
      end
  end.

Definition levels_0_to_6 (e : t) : list (list SSTable.t) :=
  List.map (tables_at e) (List.seq 0 7).

Definition get (e : t) (k : string) (now : Z) : Completion jsval * t :=
  let (read, m) := Memtable.get (memtable e) k now in
  let e' := with_memtable e m in
  match read with
  | Threw _ => (Threw StorageError, e')
  | Completed memValue =>
      if negb (is_null memValue) then (Completed memValue, e')
      else (Completed (get_in_levels (levels_0_to_6 e') k now), e')
  end.

Definition del (e : t) (k : string) : Completion bool * t :=
  let e1 := with_wal e (WAL.append (wal e) (WAL.Tag "DEL")) in
  let (deleted, m) := Memtable.delete (memtable e1) k in
  (rethrown deleted, with_memtable e1 m).

(** [exists]: [this.memtable.exists(key)], and for the runs
    [tables[i].exists(key)], last run of the first level that has one. *)
Definition exists_ (e : t) (k : string) (now : Z) : Completion bool * t :=
  match undefined_method bool with                    (* this.memtable.exists(key) *)
  | Threw _ => (Threw StorageError, e)
  | Completed true => (Completed true, e)
  | Completed false =>
      if List.existsb (fun tables => negb (Nat.eqb (List.length tables) 0))
                      (levels_0_to_6 e)
      then (rethrown (undefined_method bool), e)      (* tables[i].exists(key) *)
      else (Completed false, e)
  end.

(** [expire]: the WAL receives the operation name, then
    [this.memtable.expire(key, ttl)] is called. *)
Definition expire (e : t) (k : string) (ttl_ms : Z) (now : Z) : Completion bool * t :=
  let e1 := with_wal e (WAL.append (wal e) (WAL.Tag "EXPIRE")) in
  (rethrown (undefined_method bool), e1).

(** [memTtl >= 0 ? memTtl : -1], the two [return]s of [ttl]. *)
Definition ttl_answer (memTtl : Z) : Z :=
  if (0 <=? memTtl)%Z then memTtl else -1.

Definition ttl (e : t) (k : string) (now : Z) : Completion Z * t :=
  match undefined_method Z with                       (* this.memtable.ttl(key) *)
  | Threw _ => (Threw StorageError, e)
  | Completed memTtl => (Completed (ttl_answer memTtl), e)
  end.

(** The scan of one run in [keys]: only [*] is rewritten, and the
    expression is neither escaped nor anchored.  [entry.deleted] is
    not a field of an entry, so [!entry.deleted] holds. *)
Definition run_keys (pattern : option string) (s : SSTable.t) (acc : list string)
  : option (list string) :=
  let scan (matches : string -> bool) :=
    List.fold_left
      (fun a entry => if matches (key entry) then set_add (key entry) a else a)
      (SSTable.entries s) acc in
  match pattern with
  | Some p =>
      if truthy_str pattern then
        option_map (fun re => scan (Regex.test re))
                   (Regex.RegExp (Regex.replace_char "*" ".*" p))
      else Some (scan (fun _ => true))
  | None => Some (scan (fun _ => true))
  end.

(** [keys]; [None] stands for a pattern outside the modelled fragment
    of regular expressions. *)
Definition keys (e : t) (pattern : option string) (now : Z) : option (list string) :=
  match Memtable.keys (memtable e) pattern now with
  | None => None
  | Some memKeys =>
      List.fold_left
        (fun acc s => match acc with
                      | Some a => run_keys pattern s a
                      | None => None
                      end)
        (List.concat (levels_0_to_6 e))
        (Some (List.fold_left (fun a k => set_add k a) memKeys []))
  end.

Definition flushall (e : t) : t :=
  mk (WAL.clear (wal e)) (Memtable.clear (memtable e)) (List.repeat [] 7)
     (enableBloomFilter e) (compactionInProgress e) [].

(** [table.level || level] *)
Definition level_or (l : Z) (level : nat) : Z :=
  if (l =? 0)%Z then Z.of_nat level else l.

(** One element of [stats.sstables].  The metadata of a run has no
    [entryCount], so [table.metadata?.entryCount || 0] is 0; a creation
    time of 0 is replaced by the current time. *)
Definition run_info (level : nat) (s : SSTable.t) (now : Z) : RunInfo :=
  let md := SSTable.metadata s in
  mkRunInfo (SSTable.id s) (level_or (SSTable.level s) level)
    (SSTable.minKey md) (SSTable.maxKey md) (SSTable.meta_size md)
    0
    (if (SSTable.createdAt md =? 0)%Z then now else SSTable.createdAt md).

(** The keys that [info] collects from one run: an entry is added when
    [!entry.value === null], a boolean compared with [null]. *)
Definition collect_keys (s : SSTable.t) (allKeys : list string) : list string :=
  List.fold_left
    (fun a entry =>
       if bool_is_null (js_not (value entry)) then set_add (key entry) a else a)
    (SSTable.entries s) allKeys.

(** What [info] builds once the three calls on the memtable have
    returned [size], [entries] and [size']. *)
Definition info_from (size entries size' : Z) (e : t) (now : Z) : StorageStats :=
  let memtableStats := mkMemStats size entries now now in
  let runs :=
    List.concat
      (List.map (fun level => List.map (fun s => (level, s)) (tables_at e level))
                (List.seq 0 7)) in
  let allKeys := List.fold_left (fun a ls => collect_keys (snd ls) a) runs [] in
  mkStorageStats memtableStats
    (List.map (fun ls => run_info (fst ls) (snd ls) now) runs)
    (List.fold_left
       (fun sum ls => sum + SSTable.meta_size (SSTable.metadata (snd ls)))
       runs size')
    (Z.of_nat (List.length allKeys))
    (compactionStats e).

(** [info] has no [try]: it starts with
    [this.memtable.getSizeInBytes()] and [this.memtable.size()], and
    reads [getSizeInBytes()] once more for [totalSize]. *)
Definition info (e : t) (now : Z) : Completion StorageStats * t :=
  match undefined_method Z with                       (* this.memtable.getSizeInBytes() *)
  | Threw x => (Threw x, e)
  | Completed size =>
      match undefined_method Z with                   (* this.memtable.size() *)
      | Threw x => (Threw x, e)
      | Completed entries =>
          match undefined_method Z with               (* this.memtable.getSizeInBytes() *)
          | Threw x => (Threw x, e)
          | Completed size' => (Completed (info_from size entries size' e now), e)
          end
      end
  end.

(** [level === 0 ? 4 : Math.pow(10, level)] *)
Definition maxTablesAtLevel (level : nat) : Z :=
  if Nat.eqb level 0 then 4 else 10 ^ Z.of_nat level.

(** The loop of [compact] over the levels 0 to 5.  A level with enough
    runs first loses them ([tables.splice] works on the array of the
    map), and then the runs are to be merged by a static
    [SSTable.merge], which does not exist: the call throws, outside any
    [try], and what follows it in the loop is never reached. *)
Fixpoint compact_levels (levels : list nat) (e : t) : Completion unit * t :=
  match levels with
  | [] => (Completed tt, e)
  | level :: rest =>
      let tables := tables_at e level in
      if (maxTablesAtLevel level <=? Z.of_nat (List.length tables))%Z then
        let n := Z.to_nat (Z.min (Z.of_nat (List.length tables)) (maxTablesAtLevel level)) in
        (Threw TypeError, with_level e level (List.skipn n tables))
      else compact_levels rest e
  end.

Definition compact (e : t) : Completion unit * t :=
  compact_levels (List.seq 0 6) e.

(** [triggerCompaction], which the timer of [startPeriodicCompaction]
    calls between commands. *)
Definition triggerCompaction (e : t) : Completion unit * t :=
  if compactionInProgress e then (Completed tt, e)
  else
    let (compacted, e') := compact (with_compactionInProgress e true) in
    (compacted, with_compactionInProgress e' false).
End WITH_HOST.

End StorageEngine.

(* ================================================================== *)
(** ** The worker thread's [executeCommand] and the client's guards *)

Inductive ErrorCode : Type :=
| VALIDATION_ERROR
| STORAGE_ERROR
| SERIALIZATION_ERROR
| UNKNOWN_ERROR.

Definition ErrorCode_eqb (a b : ErrorCode) : bool :=
  match a, b with
  | VALIDATION_ERROR, VALIDATION_ERROR => true
  | STORAGE_ERROR, STORAGE_ERROR => true
  | SERIALIZATION_ERROR, SERIALIZATION_ERROR => true
  | UNKNOWN_ERROR, UNKNOWN_ERROR => true
  | _, _ => false
  end.

(** [(error as any).code || 'UNKNOWN_ERROR'] of [sendError]: the errors
    of the package carry their code, a [TypeError] has none. *)
Definition code_of (x : Exception) : ErrorCode :=
  match x with
  | TypeError => UNKNOWN_ERROR
  | SerializationError => SERIALIZATION_ERROR
  | StorageError => STORAGE_ERROR
  end.

Module Worker.

(** The argument bag of a request ([CommandArgs]); [None] is a property
    that is not there. *)
Record Args : Type := mkArgs {
  a_key : option string;
  a_value : option jsval;
  a_ttl : option Z;
  a_pattern : option string;
  a_amount : option Z
}.

Inductive Result : Type :=
| RUndefined
| RValue (v : jsval)
| RBool (b : bool)
| RNum (n : Z)
| RKeys (ks : list string)
| RInfo (s : StorageEngine.StorageStats).

(** What [handleRequest] sends back: the result, or the error that was
    thrown.  [Rejected] is a validation error of [executeCommand], with
    its message; [Failed] is an error thrown below it, of which the
    code is kept (its message quotes the host's text for the error). *)
Inductive Response : Type :=
| Resolved (r : Result)
| Rejected (code : ErrorCode) (message : string)
| Failed (code : ErrorCode).

Definition is_validation_error (r : Response) : bool :=
  match r with
  | Rejected VALIDATION_ERROR _ => true
  | _ => false
  end.

(** [!args.key] *)
Definition no_key (args : Args) : bool := negb (truthy_str (a_key args)).

(** [args.value === undefined] *)
Definition no_value (args : Args) : bool :=
  match a_value args with
  | None | Some JUndefined => true
  | Some _ => false
  end.

Definition the_key (args : Args) : string :=
  match a_key args with Some k => k | None => "" end.

Definition the_value (args : Args) : jsval :=
  match a_value args with Some v => v | None => JUndefined end.

(** [args.amount || 1] *)
Definition amount_or_1 (args : Args) : Z :=
  match a_amount args with
  | Some n => if (n =? 0)%Z then 1 else n
  | None => 1
  end.

(** [typeof current === 'number' ? current : 0] *)
Definition number_or_0 (v : jsval) : Z :=
  match v with JNum n => n | _ => 0 end.

(** The response to a call of the engine. *)
Definition answer (A : Type) (result : A -> Result) (c : Completion A) : Response :=
  match c with
  | Completed a => Resolved (result a)
  | Threw x => Failed (code_of x)
  end.

Section WITH_HOST.
Context `{Host}.

(** [executeCommand]; the outer [None] stands for a [KEYS] pattern
    outside the modelled fragment of regular expressions. *)
Definition executeCommand (e : StorageEngine.t) (command : string) (args : Args)
           (now : Z) : option (Response * StorageEngine.t) :=
  if (command =? "SET")%string then
    if no_key args || no_value args
    then Some (Rejected VALIDATION_ERROR "SET requires key and value", e)
    else
      let (r, e') := StorageEngine.set e (the_key args) (the_value args) (a_ttl args) now in
      Some (answer (fun _ => RUndefined) r, e')
  else if (command =? "GET")%string then
    if no_key args then Some (Rejected VALIDATION_ERROR "GET requires key", e)
    else let (r, e') := StorageEngine.get e (the_key args) now in
         Some (answer RValue r, e')
  else if (command =? "DEL")%string then
    if no_key args then Some (Rejected VALIDATION_ERROR "DEL requires key", e)
    else let (r, e') := StorageEngine.del e (the_key args) in
         Some (answer RBool r, e')
  else if (command =? "EXISTS")%string then
    if no_key args then Some (Rejected VALIDATION_ERROR "EXISTS requires key", e)
    else let (r, e') := StorageEngine.exists_ e (the_key args) now in
         Some (answer RBool r, e')
  else if (command =? "EXPIRE")%string then
    if no_key args || negb (truthy_num (a_ttl args))
    then Some (Rejected VALIDATION_ERROR "EXPIRE requires key and ttl", e)
    else
      let ttl_ms := match a_ttl args with Some n => n | None => 0 end in
      let (r, e') := StorageEngine.expire e (the_key args) ttl_ms now in
      Some (answer RBool r, e')
  else if (command =? "TTL")%string then
    if no_key args then Some (Rejected VALIDATION_ERROR "TTL requires key", e)
    else let (r, e') := StorageEngine.ttl e (the_key args) now in
         Some (answer RNum r, e')
  else if (command =? "INCR")%string then
    if no_key args then Some (Rejected VALIDATION_ERROR "INCR requires key", e)
    else
      let (read, e') := StorageEngine.get e (the_key args) now in
      match read with
      | Threw x => Some (Failed (code_of x), e')
      | Completed current =>
          let newValue := number_or_0 current + amount_or_1 args in
          let (r, e'') := StorageEngine.set e' (the_key args) (JNum newValue) None now in
          Some (answer (fun _ => RNum newValue) r, e'')
      end
  else if (command =? "DECR")%string then
    if no_key args then Some (Rejected VALIDATION_ERROR "DECR requires key", e)
    else
      let (read, e') := StorageEngine.get e (the_key args) now in
      match read with
      | Threw x => Some (Failed (code_of x), e')
      | Completed current =>
          let newValue := number_or_0 current - amount_or_1 args in
          let (r, e'') := StorageEngine.set e' (the_key args) (JNum newValue) None now in
          Some (answer (fun _ => RNum newValue) r, e'')
      end
  else if (command =? "KEYS")%string then
    option_map (fun ks => (Resolved (RKeys ks), e))
               (StorageEngine.keys e (a_pattern args) now)
  else if (command =? "FLUSHALL")%string then
    Some (Resolved RUndefined, StorageEngine.flushall e)
  else if (command =? "INFO")%string then
    let (r, e') := StorageEngine.info e now in
    Some (answer RInfo r, e')
  else
    Some (Rejected VALIDATION_ERROR ("Unknown command: " ++ command), e).

(** [SnapDB.expire] of [client/SnapDB.ts]: the guard of the client,
    then the request to the worker. *)
Definition client_expire (e : StorageEngine.t) (k : string) (ttl_ms : Z) (now : Z)
  : option (Response * StorageEngine.t) :=
  if (ttl_ms <=? 0)%Z then Some (Rejected VALIDATION_ERROR "TTL must be positive", e)
  else executeCommand e "EXPIRE" (mkArgs (Some k) None (Some ttl_ms) None None) now.
End WITH_HOST.

Definition key_commands : list string :=
  ["SET"; "GET"; "DEL"; "EXISTS"; "EXPIRE"; "TTL"; "INCR"; "DECR"].

Definition known_commands : list string :=
  key_commands ++ ["KEYS"; "FLUSHALL"; "INFO"].

End Worker.

(* ================================================================== *)
(** ** [SimpleStorage.ts] and [SimpleSnapDB.ts]: the exported store *)

Module SimpleStorage.

Record t : Type := mk {
  data : Map StorageEntry;
  ttlData : Map Z
}.

Definition new : t := mk [] [].

Definition set (s : t) (k : string) (v : jsval) (ttl_ms : option Z) (now : Z) : t :=
  let prev :=
    match map_get k (data s) with
    | Some e => match version e with Some n => n | None => 0 end
    | None => 0
    end in
  let entry :=
    mkEntry k v now
      (match ttl_ms with
       | Some n => if truthy_num ttl_ms then Some (now + n) else None
       | None => None
       end)
      (Some (prev + 1)) in
  mk (map_set k entry (data s))
     (match ttl_ms with
      | Some n => if truthy_num ttl_ms then map_set k (now + n) (ttlData s) else ttlData s
      | None => ttlData s
      end).

(** The check that [get], [exists], [keys] and [info] share: a key
    with a recorded expiry before [now]. *)
Definition lapsed (s : t) (k : string) (now : Z) : bool :=
  match map_get k (ttlData s) with
  | Some expiry => (expiry <? now)%Z
  | None => false
  end.

Definition drop (s : t) (k : string) : t :=
  mk (map_delete k (data s)) (map_delete k (ttlData s)).

(** [entry?.value ?? null] *)
Definition value_or_null (o : option StorageEntry) : jsval :=
  match o with
  | Some e => match value e with JUndefined => JNull | v => v end
  | None => JNull
  end.

Definition get (s : t) (k : string) (now : Z) : jsval * t :=
  if lapsed s k now then (JNull, drop s k)
  else (value_or_null (map_get k (data s)), s).

Definition del (s : t) (k : string) : bool * t :=
  (map_has k (data s), drop s k).

Definition exists_ (s : t) (k : string) (now : Z) : bool * t :=
  if lapsed s k now then (false, drop s k)
  else (map_has k (data s), s).

Definition expire (s : t) (k : string) (ttl_ms : Z) (now : Z) : bool * t :=
  if negb (map_has k (data s)) then (false, s)
  else (true, mk (data s) (map_set k (now + ttl_ms) (ttlData s))).

Definition ttl (s : t) (k : string) (now : Z) : Z * t :=
  if negb (map_has k (data s)) then (-2, s)
  else
    match map_get k (ttlData s) with
    | None => (-1, s)
    | Some expiry =>
        let remaining := expiry - now in
        if (remaining <=? 0)%Z then (-2, drop s k)
        else (ceil_div remaining 1000, s)
    end.

(** The loop of [keys] over [this.data]; a lapsed key is dropped from
    both maps and skipped. *)
Fixpoint keys_loop (matches : string -> bool) (now : Z)
         (todo : list (string * StorageEntry)) (s : t) (result : list string)
  : list string * t :=
  match todo with
  | [] => (result, s)
  | (keyStr, entry) :: rest =>
      if lapsed s keyStr now then keys_loop matches now rest (drop s keyStr) result
      else if matches keyStr
           then keys_loop matches now rest s (result ++ [key entry])
           else keys_loop matches now rest s result
  end.

(** [keys]: the pattern is handed to [RegExp] after [*] and [?] are
    rewritten; [None] when that source is outside the modelled
    fragment. *)
Definition keys (s : t) (pattern : option string) (now : Z) : option (list string * t) :=
  match pattern with
  | Some p =>
      if truthy_str pattern then
        option_map
          (fun re => keys_loop (Regex.test re) now (data s) s [])
          (Regex.RegExp (Regex.replace_char "?" "." (Regex.replace_char "*" ".*" p)))
      else Some (keys_loop (fun _ => true) now (data s) s [])
  | None => Some (keys_loop (fun _ => true) now (data s) s [])
  end.

Definition flushall (s : t) : t := mk [] [].

(** The loop of [info] that removes the lapsed keys. *)
Fixpoint info_loop (now : Z) (todo : list (string * StorageEntry)) (s : t) : t :=
  match todo with
  | [] => s
  | (keyStr, _) :: rest =>
      if lapsed s keyStr now then info_loop now rest (drop s keyStr)
      else info_loop now rest s
  end.

(** Whether the private [getSizeInBytes] throws: it reads
    [JSON.stringify(entry.value).length] for every entry, and
    [JSON.stringify(undefined)] is [undefined], which has no [length]. *)
Definition getSizeInBytes_throws (s : t) : bool :=
  List.existsb (fun kv => is_undefined (value (snd kv))) (data s).

(** [info().totalEntries]: after the loop, [info] calls
    [getSizeInBytes] for its statistics, and [totalEntries] is the size
    of [data]. *)
Definition info_totalEntries (s : t) (now : Z) : Completion Z * t :=
  let s' := info_loop now (data s) s in
  (if getSizeInBytes_throws s' then Threw TypeError else Completed (map_size (data s')),
   s').

End SimpleStorage.

Module SimpleSnapDB.

Inductive Event : Type :=
| EvSet (k : string) (v : jsval) (ttl_ms : option Z)
| EvGet (k : string) (v : jsval)
| EvDel (k : string) (deleted : bool)
| EvExpire (k : string) (ttl_ms : Z).

(** The store and the events emitted so far. *)
Record t : Type := mk {
  storage : SimpleStorage.t;
  emitted : list Event
}.

Definition new : t := mk SimpleStorage.new [].

Inductive Outcome (A : Type) : Type :=
| Returned (a : A)
| Thrown (code : ErrorCode) (message : string).
Arguments Returned {A} a.
Arguments Thrown {A} code message.

Record CommandContext : Type := mkContext {
  command : string;
  ctx_key : option string;
  ctx_value : option jsval;
  ctx_ttl : option Z;
  ctx_timestamp : Z
}.

(** A middleware receives the context and [next]. *)
Definition MiddlewareFn (A : Type) : Type :=
  CommandContext -> (t -> Outcome A * t) -> t -> Outcome A * t.

Fixpoint executeWithMiddleware (A : Type) (middlewares : list (MiddlewareFn A))
         (context : CommandContext) (handler : t -> Outcome A * t)
  : t -> Outcome A * t :=
  match middlewares with
  | [] => handler
  | middleware :: rest =>
      middleware context (executeWithMiddleware rest context handler)
  end.

Definition set (middlewares : list (MiddlewareFn unit)) (db : t)
           (k : string) (v : jsval) (ttl_ms : option Z) (now : Z) : Outcome unit * t :=
  executeWithMiddleware middlewares (mkContext "SET" (Some k) (Some v) ttl_ms now)
    (fun db =>
       (Returned tt,
        mk (SimpleStorage.set (storage db) k v ttl_ms now)
           (emitted db ++ [EvSet k v ttl_ms])))
    db.

Definition get (middlewares : list (MiddlewareFn jsval)) (db : t)
           (k : string) (now : Z) : Outcome jsval * t :=
  executeWithMiddleware middlewares (mkContext "GET" (Some k) None None now)
    (fun db =>
       let (v, s) := SimpleStorage.get (storage db) k now in
       (Returned v, mk s (emitted db ++ [EvGet k v])))
    db.

Definition expire (middlewares : list (MiddlewareFn bool)) (db : t)
           (k : string) (ttl_ms : Z) (now : Z) : Outcome bool * t :=
  if (ttl_ms <=? 0)%Z then (Thrown VALIDATION_ERROR "TTL must be positive", db)
  else
    executeWithMiddleware middlewares (mkContext "EXPIRE" (Some k) None (Some ttl_ms) now)
      (fun db =>
         let (result, s) := SimpleStorage.expire (storage db) k ttl_ms now in
         (Returned result,
          mk s (if result then emitted db ++ [EvExpire k ttl_ms] else emitted db)))
      db.

End SimpleSnapDB.

(* ================================================================== *)
(** ** A host to run the code on *)

Module ExampleHost.

Definition quote : string := String (ascii_of_nat 34) EmptyString.

Fixpoint digits (fuel : nat) (n : Z) : Z :=
  match fuel with
  | O => 1
  | S f => if (n <? 10)%Z then 1 else 1 + digits f (n / 10)
  end.

(** The length of [JSON.stringify(v)] for strings that need no escape
    and for integers; [undefined] has none and is never asked for. *)
Definition json_length (v : jsval) : Z :=
  match v with
  | JUndefined => 0
  | JNull => 4
  | JNum n => (if (n <? 0)%Z then 1 else 0) + digits 20 (Z.abs n)
  | JStr s => Z.of_nat (String.length s) + 2
  end.

(** A host for running the code on concrete inputs: the default JSON
    serializer on plain strings, a size for an entry that stands for
    the length of its JSON text, and code-unit order for the
    collation. *)
Definition host : Host :=
  {| jsonByteLength := json_length;
     calculateEntrySize := fun e => json_length (JStr (key e)) + json_length (value e) + 40;
     serialize := fun k => (quote ++ k ++ quote)%string;
     localeCompare := fun a b =>
       match String.compare a b with Lt => -1 | Eq => 0 | Gt => 1 end |}.

End ExampleHost.

(* ================================================================== *)
(** ** Notions used in the statements, and concrete inputs *)

Module BloomSpec.
Import BloomFilter.

(** The bit that an index designates is set. *)
Definition bit_on (bs : list Z) (i : Z) : Prop :=
  Z.testbit (List.nth (Z.to_nat (i / 8)) bs 0) (Z.rem i 8) = true.

(** A filter as the constructor makes it and [add] keeps it. *)
Definition well_formed (f : t) : Prop :=
  0 < size f /\ List.length (bits f) = Z.to_nat (ceil_div (size f) 8).

Definition set_bits (f : t) (bs : list Z) (hs : list Z) : list Z :=
  List.fold_left (fun bs h => set_bit bs (index_of f h)) hs bs.

(** The indices that [add] and [contains] probe for a key depend on the
    size and on the number of hash functions only. *)
Definition probes (f : t) (key : string) : list (option Z) :=
  List.map (index_of f) (getHashes f key).

Definition probe_on (bs : list Z) (ix : option Z) : Prop :=
  match ix with
  | Some i => 0 <= i /\ bit_on bs i
  | None => False
  end.

End BloomSpec.

Module CompactionSpec.
Import CompactionEngine.

(** The choice that [keep_latest] makes between the recorded entry and
    a new one. *)
Definition newer (cur : option StorageEntry) (e : StorageEntry) : option StorageEntry :=
  match cur with
  | None => Some e
  | Some c => if (timestamp c <? timestamp e)%Z then Some e else Some c
  end.

(** The entry recorded for key [k] after the entries of [l] have been
    seen in order. *)
Definition latest_for (k : string) (l : list StorageEntry) (init : option StorageEntry)
  : option StorageEntry :=
  List.fold_left (fun cur e => if (key e =? k)%string then newer cur e else cur) l init.

(** Every binding of the map is filed under its entry's key, and no key
    is bound twice. *)
Definition keyed (m : Map StorageEntry) : Prop :=
  NoDup (map_keys m) /\ forall k e, In (k, e) m -> key e = k.

End CompactionSpec.

Module PatternSpec.
Import Regex.

(** What the three [replace] calls of [patternToRegex] put in the place
    of one character of the pattern. *)
Definition expand (c : ascii) : string :=
  if escaped_char c then String "\" (String c EmptyString)
  else if Ascii.eqb c "*" then ".*"
  else if Ascii.eqb c "?" then "."
  else String c EmptyString.

Fixpoint expand_all (p : string) : string :=
  match p with
  | EmptyString => EmptyString
  | String c r => expand c ++ expand_all r
  end.

Definition no_meta (p : string) : bool :=
  List.forallb (fun c => negb (glob_meta c)) (list_ascii_of_string p).

End PatternSpec.

(** Two runs of level 0 for the key [a]: a live value, and a later
    tombstone. *)
Definition live_run : SSTable.t :=
  @SSTable.new ExampleHost.host 0 0 [mkEntry "a" (JStr "1") 1 None (Some 1)] false 1.

Definition tombstone_run : SSTable.t :=
  @SSTable.new ExampleHost.host 1 0 [mkEntry "a" JNull 2 None (Some 2)] false 2.

(** Two runs that hold the key [a] with the same timestamp and the
    versions 1 and 2, the lower version in the older run. *)
Definition tie_run_v1 : SSTable.t :=
  @SSTable.new ExampleHost.host 0 0 [mkEntry "a" (JStr "x") 5 None (Some 1)] false 10.

Definition tie_run_v2 : SSTable.t :=
  @SSTable.new ExampleHost.host 1 0 [mkEntry "a" (JStr "y") 5 None (Some 2)] false 11.


(* ================================================================== *)
(** ** Sequences of operations, and notions for the further properties *)

From Stdlib Require Import Sorted.

(** A list in the order a comparator gives: no element is strictly
    before its predecessor. *)
Definition in_order (A : Type) (cmp : A -> A -> Z) (l : list A) : Prop :=
  Sorted (fun a b => 0 <= cmp b a) l.

(** The entries of a run in strictly ascending order of their keys, by
    code units, as [binarySearch] compares them. *)
Definition ascending (es : list StorageEntry) : Prop :=
  StronglySorted (fun a b => str_lt (key a) (key b) = true) es.

(** [Number.isSafeInteger]: the integers a number holds exactly; a sum
    of two of them that is one of them is the exact sum. *)
Definition isSafeInteger (n : Z) : bool := (Z.abs n <=? 2 ^ 53 - 1)%Z.

Module MemtableSpec.

(** The calls a memtable receives. *)
Inductive op : Type :=
| OpSet (k : string) (v : jsval) (ttl_ms : option Z) (now : Z)
| OpGet (k : string) (now : Z)
| OpGetEntry (k : string) (now : Z)
| OpDelete (k : string)
| OpClear.

(** A call that does not hand [undefined] to [set]. *)
Definition defined (o : op) : bool :=
  match o with
  | OpSet _ v _ _ => negb (is_undefined v)
  | _ => true
  end.

Section WITH_HOST.
Context `{Host}.

(** A call: whether it threw, and the memtable after it. *)
Definition step (m : Memtable.t) (o : op) : bool * Memtable.t :=
  match o with
  | OpSet k v ttl_ms now =>
      let (c, m') := Memtable.set m k v ttl_ms now in (threw c, m')
  | OpGet k now => let (c, m') := Memtable.get m k now in (threw c, m')
  | OpGetEntry k now => let (c, m') := Memtable.getEntry m k now in (threw c, m')
  | OpDelete k => let (c, m') := Memtable.delete m k in (threw c, m')
  | OpClear => (false, Memtable.clear m)
  end.

(** A sequence of calls: whether one of them threw, and the memtable
    after the last. *)
Definition run (ops : list op) (m : Memtable.t) : bool * Memtable.t :=
  List.fold_left
    (fun acc o => let (t, m') := step (snd acc) o in (fst acc || t, m'))
    ops (false, m).

(** The size that [calculateEntrySize] returns for an entry whose value
    is not [undefined]. *)
Definition bytes (e : StorageEntry) : Z :=
  jsonByteLength (JStr (key e)) + jsonByteLength (value e) + 8
  + (if truthy_num (ttl e) then 8 else 0) + 4.

(** The sum of the sizes of the entries of a map. *)
Definition content_size (d : Map StorageEntry) : Z :=
  List.fold_right (fun kv acc => bytes (snd kv) + acc) 0 d.

(** No entry of the memtable holds [undefined]. *)
Definition defined_values (m : Memtable.t) : Prop :=
  forall k e, map_get k (Memtable.data m) = Some e -> is_undefined (value e) = false.

(** The invariant of the memtable: no key twice, no value [undefined],
    and [sizeBytes] is the size of the content. *)
Definition sized (m : Memtable.t) : Prop :=
  NoDup (map_keys (Memtable.data m)) /\
  defined_values m /\
  Memtable.sizeBytes m = content_size (Memtable.data m).
End WITH_HOST.

(** What a pattern of [keys] selects: everything without a pattern (or
    with the empty one), the keys the anchored glob matches otherwise. *)
Definition selects (pattern : option string) (k : string) : bool :=
  match pattern with
  | Some p => if (p =? "")%string then true else Regex.test (Regex.glob_regex p) k
  | None => true
  end.

End MemtableSpec.

(** The entry point of [CompactionEngine.ts]. *)
Module Compactor.
Import CompactionEngine.

(** One step of [groupByLevel]: the run joins the group of its level, or
    opens a new group after the others (a [Map] keyed by the level, in
    insertion order). *)
Fixpoint group_add (l : Z) (s : SSTable.t) (levels : list (Z * list SSTable.t))
  : list (Z * list SSTable.t) :=
  match levels with
  | [] => [(l, [s])]
  | (l', g) :: r =>
      if (l' =? l)%Z then (l', g ++ [s]) :: r else (l', g) :: group_add l s r
  end.

Definition groupByLevel (ts : list SSTable.t) : list (Z * list SSTable.t) :=
  List.fold_left (fun levels s => group_add (SSTable.getLevel s) s levels) ts [].

(** The number of runs in all the groups. *)
Definition group_total (levels : list (Z * list SSTable.t)) : nat :=
  List.fold_right (fun g n => (List.length (snd g) + n)%nat) O levels.

Record Outcome : Type := mkOutcome {
  result : CompactionResult;                  (* what [compact] returns *)
  recorded : list CompactionStats             (* pushed on [compactionStats] *)
}.

Section WITH_HOST.
Context `{Host}.

(** The loop of [compact] over the levels: a level with at most one run
    is passed on as it is, the others are compacted. *)
Fixpoint compact_levels (enableBloomFilter : bool) (levels : list (Z * list SSTable.t))
         (now : Z) (newSSTables : list SSTable.t) (pushed : list CompactionStats)
  : option (list SSTable.t * list CompactionStats) :=
  match levels with
  | [] => Some (newSSTables, pushed)
  | (level, tables) :: rest =>
      if (len tables <=? 1)%Z
      then compact_levels enableBloomFilter rest now (newSSTables ++ tables) pushed
      else
        match compactLevel enableBloomFilter level tables now with
        | None => None
        | Some compacted =>
            compact_levels enableBloomFilter rest now
              (newSSTables ++ sstables compacted) (pushed ++ [stats compacted])
        end
  end.

(** [compact]; the duration is the difference of two readings of the
    clock, which are the same instant here. *)
Definition compact (enableBloomFilter : bool) (ts : list SSTable.t) (now : Z)
  : option Outcome :=
  match compact_levels enableBloomFilter (groupByLevel ts) now [] [] with
  | None => None
  | Some (newSSTables, pushed) =>
      Some (mkOutcome
              (mkResult newSSTables
                 (mkStats (-1) (len ts) (len newSSTables) (sum_size ts)
                    (sum_size newSSTables) (now - now) (sum_entries ts) 0))
              pushed)
  end.
End WITH_HOST.

(** The metadata of a run counts its entries. *)
Definition counted (s : SSTable.t) : Prop :=
  SSTable.meta_entries (SSTable.metadata s) = Z.of_nat (List.length (SSTable.entries s)).

End Compactor.

(** What happens to the engine of a worker thread: the requests it
    executes, and the compaction that its timer starts between them. *)
Module EngineSpec.

Inductive event : Type :=
| Request (command : string) (args : Worker.Args) (now : Z)
| PeriodicCompaction.

Section WITH_HOST.
Context `{Host}.

(** The engine after an event.  [KEYS] with a pattern outside the
    modelled fragment leaves the engine as it is: [keys] changes
    nothing. *)
Definition after (e : StorageEngine.t) (ev : event) : StorageEngine.t :=
  match ev with
  | Request command args now =>
      match Worker.executeCommand e command args now with
      | Some (_, e') => e'
      | None => e
      end
  | PeriodicCompaction => snd (StorageEngine.triggerCompaction e)
  end.

Definition run (events : list event) (e : StorageEngine.t) : StorageEngine.t :=
  List.fold_left after events e.
End WITH_HOST.

(** No level holds a run. *)
Definition no_runs (e : StorageEngine.t) : Prop :=
  forall level, StorageEngine.tables_at e level = [].

(** What holds of every state that the engine of a worker reaches: no
    level holds a run, and no entry of the memtable holds [undefined]. *)
Definition reached (e : StorageEngine.t) : Prop :=
  no_runs e /\ MemtableSpec.defined_values (StorageEngine.memtable e).

End EngineSpec.

(** The remaining methods of [SimpleStorage], and the calls the store
    receives.  [parseInt] is the host's: [None] stands for [NaN]. *)
Module SimpleStore.
Import SimpleStorage.

(** One element of the argument of [mset]. *)
Record Item : Type := mkItem {
  i_key : string;
  i_value : jsval;
  i_ttl : option Z
}.

Fixpoint mget (s : t) (ks : list string) (now : Z) : list jsval * t :=
  match ks with
  | [] => ([], s)
  | k :: rest =>
      let (v, s1) := get s k now in
      let (vs, s2) := mget s1 rest now in
      (v :: vs, s2)
  end.

Fixpoint mset (s : t) (entries : list Item) (now : Z) : t :=
  match entries with
  | [] => s
  | entry :: rest => mset (set s (i_key entry) (i_value entry) (i_ttl entry) now) rest now
  end.

Definition size (s : t) : Z := map_size (data s).

(** [cleanupExpiredEntries]: the loop of [info] without the statistics. *)
Definition cleanupExpiredEntries (s : t) (now : Z) : t :=
  info_loop now (data s) s.

Section WITH_PARSEINT.
Variable parseInt : string -> option Z.

(** [numValue] of [incr] and [decr]: the number itself, 0 for [null],
    and otherwise what [parseInt(String(currentValue))] gives, 0 for
    [NaN]. *)
Definition numValue (currentValue : jsval) : Z :=
  match currentValue with
  | JNum n => n
  | JNull => 0
  | JStr str => match parseInt str with Some n => n | None => 0 end
  | JUndefined => match parseInt "undefined" with Some n => n | None => 0 end
  end.

Definition incr (s : t) (k : string) (now : Z) : Z * t :=
  let (currentValue, s1) := get s k now in
  let newValue := numValue currentValue + 1 in
  (newValue, set s1 k (JNum newValue) None now).

Definition decr (s : t) (k : string) (now : Z) : Z * t :=
  let (currentValue, s1) := get s k now in
  let newValue := numValue currentValue - 1 in
  (newValue, set s1 k (JNum newValue) None now).

(** The calls a store receives, each with the time it is made at. *)
Inductive op : Type :=
| OpSet (k : string) (v : jsval) (ttl_ms : option Z) (now : Z)
| OpGet (k : string) (now : Z)
| OpDel (k : string)
| OpExists (k : string) (now : Z)
| OpExpire (k : string) (ttl_ms : Z) (now : Z)
| OpTtl (k : string) (now : Z)
| OpIncr (k : string) (now : Z)
| OpDecr (k : string) (now : Z)
| OpKeys (pattern : option string) (now : Z)
| OpFlushall
| OpInfo (now : Z)
| OpMget (ks : list string) (now : Z)
| OpMset (entries : list Item) (now : Z)
| OpCleanup (now : Z).

(** The state after a call; [keys] with a pattern that [RegExp]
    refuses throws before it touches the store. *)
Definition step (s : t) (o : op) : t :=
  match o with
  | OpSet k v ttl_ms now => set s k v ttl_ms now
  | OpGet k now => snd (get s k now)
  | OpDel k => snd (del s k)
  | OpExists k now => snd (exists_ s k now)
  | OpExpire k ttl_ms now => snd (expire s k ttl_ms now)
  | OpTtl k now => snd (ttl s k now)
  | OpIncr k now => snd (incr s k now)
  | OpDecr k now => snd (decr s k now)
  | OpKeys pattern now =>
      match keys s pattern now with
      | Some r => snd r
      | None => s
      end
  | OpFlushall => flushall s
  | OpInfo now => snd (info_totalEntries s now)
  | OpMget ks now => snd (mget s ks now)
  | OpMset entries now => mset s entries now
  | OpCleanup now => cleanupExpiredEntries s now
  end.

Definition run (ops : list op) (s : t) : t := List.fold_left step ops s.
End WITH_PARSEINT.

(** The invariant of the store: no key twice in either map, an expiry
    only for a key that is stored, and every entry under its own key. *)
Definition consistent (s : t) : Prop :=
  NoDup (map_keys (data s)) /\
  NoDup (map_keys (ttlData s)) /\
  (forall k, map_has k (ttlData s) = true -> map_has k (data s) = true) /\
  (forall k e, map_get k (data s) = Some e -> key e = k).

(** The bindings the clean-up keeps when it visits the keys [todo]:
    those whose key is not a visited one with a lapsed expiry. *)
Definition kept (V : Type) (todo : list string) (s : t) (now : Z) (kv : string * V)
  : bool :=
  negb (List.existsb (String.eqb (fst kv)) todo && lapsed s (fst kv) now).

(** [v ?? null] *)
Definition or_null (v : jsval) : jsval :=
  match v with JUndefined => JNull | _ => v end.

(** The value of the last element of [entries] for the key [k]. *)
Definition last_value (k : string) (entries : list Item) : option jsval :=
  List.fold_left
    (fun acc entry => if (i_key entry =? k)%string then Some (i_value entry) else acc)
    entries None.

End SimpleStore.

(* ================================================================== *)
(** * Properties *)

(** ** The insertion-ordered map *)

Section MapFacts.
Variable V : Type.
Implicit Types (m : Map V) (k : string) (v : V).

Lemma map_get_set_same : forall m k v, map_get k (map_set k v m) = Some v.
Proof.
  induction m as [|[k' v'] r IH]; intros k v; simpl.
  - now rewrite String.eqb_refl.
  - destruct (k' =? k)%string eqn:E; simpl.
    + now rewrite String.eqb_refl.
    + rewrite E. apply IH.
Qed.

Lemma map_get_set_other :
  forall m k k' v, k' <> k -> map_get k (map_set k' v m) = map_get k m.
Proof.
  induction m as [|[k0 v0] r IH]; intros k k' v Hne; simpl.
  - apply String.eqb_neq in Hne. now rewrite Hne.
  - destruct (k0 =? k')%string eqn:E; simpl.
    + apply String.eqb_eq in E. subst k0.
      apply String.eqb_neq in Hne. now rewrite Hne.
    + destruct (k0 =? k)%string; [reflexivity | now apply IH].
Qed.

Lemma map_get_delete_same : forall m k, map_get k (map_delete k m) = None.
Proof.
  induction m as [|[k' v'] r IH]; intros k; simpl; [reflexivity|].
  destruct (k' =? k)%string eqn:E; simpl; [apply IH|].
  rewrite E. apply IH.
Qed.

Lemma map_get_delete_other :
  forall m k k', k' <> k -> map_get k (map_delete k' m) = map_get k m.
Proof.
  induction m as [|[k0 v0] r IH]; intros k k' Hne; simpl; [reflexivity|].
  destruct (k0 =? k')%string eqn:E; simpl.
  - apply String.eqb_eq in E. subst k0.
    pose proof (proj2 (String.eqb_neq k' k) Hne) as Hb. rewrite Hb. now apply IH.
  - destruct (k0 =? k)%string; [reflexivity | now apply IH].
Qed.

Lemma map_get_In : forall m k v, map_get k m = Some v -> In (k, v) m.
Proof.
  induction m as [|[k' v'] r IH]; intros k v; simpl; [discriminate|].
  destruct (k' =? k)%string eqn:E.
  - apply String.eqb_eq in E. intros Hs. injection Hs as ->. subst. now left.
  - intros Hg. right. now apply IH.
Qed.

Lemma map_get_None_not_In_keys :
  forall m k, map_get k m = None -> ~ In k (map_keys m).
Proof.
  induction m as [|[k' v'] r IH]; intros k; simpl; [tauto|].
  destruct (k' =? k)%string eqn:E; [discriminate|].
  intros Hg [Heq | Hin].
  - apply String.eqb_neq in E. contradiction.
  - now apply (IH k).
Qed.

Lemma In_map_get :
  forall m k v, NoDup (map_keys m) -> In (k, v) m -> map_get k m = Some v.
Proof.
  induction m as [|[k' v'] r IH]; intros k v Hnd Hin; simpl in *; [contradiction|].
  inversion Hnd as [|? ? Hnotin Hnd']; subst.
  destruct Hin as [[= -> ->] | Hin].
  - now rewrite String.eqb_refl.
  - destruct (k' =? k)%string eqn:E.
    + apply String.eqb_eq in E. subst k'.
      exfalso. apply Hnotin. unfold map_keys.
      change k with (fst (k, v)). now apply in_map.
    + now apply IH.
Qed.

Lemma map_keys_set_present :
  forall m k v v0, map_get k m = Some v0 -> map_keys (map_set k v m) = map_keys m.
Proof.
  induction m as [|[k' v'] r IH]; intros k v v0; simpl; [discriminate|].
  destruct (k' =? k)%string eqn:E; simpl.
  - apply String.eqb_eq in E. now subst.
  - intros Hg. f_equal. now apply IH with v0.
Qed.

Lemma map_keys_set_absent :
  forall m k v, map_get k m = None -> map_keys (map_set k v m) = map_keys m ++ [k].
Proof.
  induction m as [|[k' v'] r IH]; intros k v; simpl; [reflexivity|].
  destruct (k' =? k)%string eqn:E; [discriminate|].
  intros Hg. simpl. f_equal. now apply IH.
Qed.

Lemma map_set_NoDup :
  forall m k v, NoDup (map_keys m) -> NoDup (map_keys (map_set k v m)).
Proof.
  intros m k v Hnd. destruct (map_get k m) as [v0|] eqn:Hg.
  - erewrite map_keys_set_present; eassumption.
  - erewrite map_keys_set_absent; [|eassumption].
    apply NoDup_app; [assumption | repeat constructor; simpl; tauto |].
    intros x Hx Hk. destruct Hk as [<- | []].
    eapply map_get_None_not_In_keys; eassumption.
Qed.
End MapFacts.

(* ================================================================== *)
(** ** The exported store: expiry *)

Lemma SimpleStorage_set_ttlData_kept :
  forall s k v now,
    SimpleStorage.ttlData (SimpleStorage.set s k v None now) = SimpleStorage.ttlData s.
Proof. reflexivity. Qed.

Lemma SimpleStorage_lapsed_after :
  forall s k expiry now,
    map_get k (SimpleStorage.ttlData s) = Some expiry ->
    expiry < now ->
    SimpleStorage.lapsed s k now = true.
Proof.
  intros s k expiry now Hg Hlt. unfold SimpleStorage.lapsed. rewrite Hg.
  now apply Z.ltb_lt.
Qed.

(** [ttl] of the exported store follows the three cases of its contract;
    the remaining time is positive where it is reported. *)
Lemma SimpleStorage_ttl_cases :
  forall s k now,
    let r := fst (SimpleStorage.ttl s k now) in
    match map_get k (SimpleStorage.data s), map_get k (SimpleStorage.ttlData s) with
    | None, _ => r = -2
    | Some _, None => r = -1
    | Some _, Some expiry =>
        if (expiry <=? now)%Z then r = -2
        else r = ceil_div (expiry - now) 1000 /\ 0 < r
    end.
Proof.
  intros s k now. unfold SimpleStorage.ttl, map_has. cbv zeta.
  destruct (map_get k (SimpleStorage.data s)) as [e|]; simpl; [|reflexivity].
  destruct (map_get k (SimpleStorage.ttlData s)) as [expiry|]; simpl; [|reflexivity].
  destruct (expiry <=? now)%Z eqn:E.
  - apply Z.leb_le in E.
    destruct (expiry - now <=? 0)%Z eqn:E'; [reflexivity|].
    apply Z.leb_gt in E'. lia.
  - apply Z.leb_gt in E.
    destruct (expiry - now <=? 0)%Z eqn:E'; [apply Z.leb_le in E'; lia|].
    simpl. split; [reflexivity|].
    unfold ceil_div.
    pose proof (Z.div_mod (- (expiry - now)) 1000 ltac:(lia)) as Hdm.
    pose proof (Z.mod_pos_bound (- (expiry - now)) 1000 ltac:(lia)) as Hb.
    lia.
Qed.

(** C10.  In the exported store, a key written with a TTL and then
    overwritten without one keeps the expiry recorded by the first write:
    when that instant has passed, [get] returns [null] and removes the
    newer value. *)
Theorem overwrite_without_ttl_keeps_expiry :
  forall (s : SimpleStorage.t) (k : string) (v v' : jsval) (ttl_ms t0 t1 t2 : Z),
    ttl_ms <> 0 ->
    t0 + ttl_ms < t2 ->
    let s1 := SimpleStorage.set s k v (Some ttl_ms) t0 in
    let s2 := SimpleStorage.set s1 k v' None t1 in
    map_get k (SimpleStorage.ttlData s2) = Some (t0 + ttl_ms) /\
    (exists e, map_get k (SimpleStorage.data s2) = Some e /\ value e = v' /\ ttl e = None) /\
    fst (SimpleStorage.get s2 k t2) = JNull /\
    map_get k (SimpleStorage.data (snd (SimpleStorage.get s2 k t2))) = None.
Proof.
  intros s k v v' ttl_ms t0 t1 t2 Hnz Hlt s1 s2.
  assert (Hexp : map_get k (SimpleStorage.ttlData s2) = Some (t0 + ttl_ms)).
  { subst s2 s1. rewrite SimpleStorage_set_ttlData_kept.
    unfold SimpleStorage.set; simpl.
    apply Z.eqb_neq in Hnz. rewrite Hnz. simpl. apply map_get_set_same. }
  split; [exact Hexp|]. split.
  - eexists. split; [subst s2; unfold SimpleStorage.set at 1; simpl; apply map_get_set_same|].
    split; reflexivity.
  - unfold SimpleStorage.get.
    rewrite (SimpleStorage_lapsed_after _ _ Hexp Hlt). simpl.
    split; [reflexivity | apply map_get_delete_same].
Qed.

Lemma overwrite_without_ttl_keeps_expiry_witness :
  let s1 := SimpleStorage.set SimpleStorage.new "k" (JStr "old") (Some 100) 1000 in
  let s2 := SimpleStorage.set s1 "k" (JStr "new") None 1050 in
  map_get "k" (SimpleStorage.ttlData s2) = Some 1100 /\
  fst (SimpleStorage.get s2 "k" 1101) = JNull.
Proof.
  pose proof (@overwrite_without_ttl_keeps_expiry SimpleStorage.new "k"
                (JStr "old") (JStr "new") 100 1000 1050 1101
                ltac:(discriminate) ltac:(reflexivity)) as H.
  cbv zeta in H. destruct H as [H1 [_ [H3 _]]].
  split; [exact H1 | exact H3].
Defined.

(* ================================================================== *)
(** ** The memtable and the engine: what the calls do *)

Section MemtableCalls.
Context {H : Host}.

Lemma entrySize_defined :
  forall e, is_undefined (value e) = false ->
            Memtable.entrySize e = Completed (MemtableSpec.bytes e).
Proof.
  intros e Hd. unfold Memtable.entrySize, calculateSize, MemtableSpec.bytes.
  destruct (value e); [discriminate | reflexivity | reflexivity | reflexivity].
Qed.

Lemma entrySize_undefined :
  forall e, is_undefined (value e) = true ->
            Memtable.entrySize e = Threw SerializationError.
Proof.
  intros e Hd. unfold Memtable.entrySize, calculateSize.
  destruct (value e); [reflexivity | discriminate | discriminate | discriminate].
Qed.

Lemma map_delete_absent :
  forall (V : Type) (d : Map V) k, map_get k d = None -> map_delete k d = d.
Proof.
  intros V. induction d as [|[k' v'] r IH]; intros k; simpl; [reflexivity|].
  destruct (k' =? k)%string; [discriminate|]. simpl. intros Hg. now rewrite IH.
Qed.

(** [set] when neither the entry it replaces nor the new value is
    [undefined]. *)
Lemma Memtable_set_returns :
  forall m k v ttl_ms now,
    (forall old, map_get k (Memtable.data m) = Some old ->
                 is_undefined (value old) = false) ->
    is_undefined v = false ->
    Memtable.set m k v ttl_ms now
    = (Completed tt,
       Memtable.mk
         (map_set k (Memtable.newEntry (map_get k (Memtable.data m)) k v ttl_ms now)
                  (Memtable.data m))
         (Memtable.sizeBytes m
          - match map_get k (Memtable.data m) with
            | Some old => MemtableSpec.bytes old
            | None => 0
            end
          + MemtableSpec.bytes
              (Memtable.newEntry (map_get k (Memtable.data m)) k v ttl_ms now))
         (Memtable.maxSizeBytes m)).
Proof.
  intros m k v ttl_ms now Hold Hv. unfold Memtable.set.
  destruct (map_get k (Memtable.data m)) as [old|] eqn:Hg.
  - rewrite (entrySize_defined old (Hold old eq_refl)).
    rewrite entrySize_defined by exact Hv. reflexivity.
  - rewrite entrySize_defined by exact Hv. reflexivity.
Qed.

(** [set] of [undefined] over no entry, or over one that is not
    [undefined]: the call throws, and the entry is in the map. *)
Lemma Memtable_set_undefined :
  forall m k ttl_ms now,
    (forall old, map_get k (Memtable.data m) = Some old ->
                 is_undefined (value old) = false) ->
    fst (Memtable.set m k JUndefined ttl_ms now) = Threw SerializationError /\
    map_get k (Memtable.data (snd (Memtable.set m k JUndefined ttl_ms now)))
    = Some (Memtable.newEntry (map_get k (Memtable.data m)) k JUndefined ttl_ms now).
Proof.
  intros m k ttl_ms now Hold. unfold Memtable.set.
  destruct (map_get k (Memtable.data m)) as [old|] eqn:Hg.
  - rewrite (entrySize_defined old (Hold old eq_refl)).
    rewrite entrySize_undefined by reflexivity. simpl.
    split; [reflexivity | apply map_get_set_same].
  - rewrite entrySize_undefined by reflexivity. simpl.
    split; [reflexivity | apply map_get_set_same].
Qed.

Lemma Memtable_get_absent :
  forall m k now,
    map_get k (Memtable.data m) = None -> Memtable.get m k now = (Completed JNull, m).
Proof. intros m k now Hg. unfold Memtable.get. now rewrite Hg. Qed.

Lemma Memtable_get_live :
  forall m k e now,
    map_get k (Memtable.data m) = Some e -> expired e now = false ->
    Memtable.get m k now = (Completed (value e), m).
Proof. intros m k e now Hg He. unfold Memtable.get. now rewrite Hg, He. Qed.

Lemma Memtable_get_expired :
  forall m k e now,
    map_get k (Memtable.data m) = Some e -> expired e now = true ->
    Memtable.get m k now
    = (if is_undefined (value e) then Threw SerializationError else Completed JNull,
       Memtable.mk (map_delete k (Memtable.data m))
         (if is_undefined (value e) then Memtable.sizeBytes m
          else Memtable.sizeBytes m - MemtableSpec.bytes e)
         (Memtable.maxSizeBytes m)).
Proof.
  intros m k e now Hg He. unfold Memtable.get. rewrite Hg, He.
  destruct (is_undefined (value e)) eqn:Hu.
  - now rewrite entrySize_undefined.
  - now rewrite entrySize_defined.
Qed.

Lemma Memtable_delete_defined :
  forall m k,
    MemtableSpec.defined_values m ->
    Memtable.delete m k
    = (Completed (map_has k (Memtable.data m)),
       Memtable.mk (map_delete k (Memtable.data m))
         (Memtable.sizeBytes m
          - match map_get k (Memtable.data m) with
            | Some e => MemtableSpec.bytes e
            | None => 0
            end)
         (Memtable.maxSizeBytes m)).
Proof.
  intros m k Hd. unfold Memtable.delete, map_has.
  destruct (map_get k (Memtable.data m)) as [e|] eqn:Hg.
  - rewrite (entrySize_defined e (Hd k e Hg)). reflexivity.
  - rewrite map_delete_absent by exact Hg. rewrite Z.sub_0_r.
    now destruct m.
Qed.

(** The calls keep [undefined] out of the memtable, as long as [set] is
    not handed [undefined]. *)
Lemma defined_values_delete :
  forall (d : Map StorageEntry) k sz mx,
    (forall k0 e, map_get k0 d = Some e -> is_undefined (value e) = false) ->
    MemtableSpec.defined_values (Memtable.mk (map_delete k d) sz mx).
Proof.
  intros d k sz mx Hd k0 e. simpl.
  destruct (String.eqb_spec k k0) as [->|Hne].
  - now rewrite map_get_delete_same.
  - rewrite map_get_delete_other by exact Hne. apply Hd.
Qed.

Lemma Memtable_set_keeps_defined :
  forall m k v ttl_ms now,
    MemtableSpec.defined_values m -> is_undefined v = false ->
    MemtableSpec.defined_values (snd (Memtable.set m k v ttl_ms now)).
Proof.
  intros m k v ttl_ms now Hd Hv.
  rewrite Memtable_set_returns by (try exact Hv; intros old; apply Hd).
  intros k0 e. simpl.
  destruct (String.eqb_spec k k0) as [->|Hne].
  - rewrite map_get_set_same. intros [= <-]. exact Hv.
  - rewrite map_get_set_other by exact Hne. apply Hd.
Qed.

Lemma Memtable_get_keeps_defined :
  forall m k now,
    MemtableSpec.defined_values m ->
    MemtableSpec.defined_values (snd (Memtable.get m k now)) /\
    threw (fst (Memtable.get m k now)) = false.
Proof.
  intros m k now Hd. unfold Memtable.get.
  destruct (map_get k (Memtable.data m)) as [e|] eqn:Hg; [|split; [exact Hd | reflexivity]].
  destruct (expired e now); [|split; [exact Hd | reflexivity]].
  rewrite (entrySize_defined e (Hd k e Hg)). simpl.
  split; [now apply defined_values_delete | reflexivity].
Qed.

Lemma Memtable_getEntry_keeps_defined :
  forall m k now,
    MemtableSpec.defined_values m ->
    MemtableSpec.defined_values (snd (Memtable.getEntry m k now)) /\
    threw (fst (Memtable.getEntry m k now)) = false.
Proof.
  intros m k now Hd. unfold Memtable.getEntry.
  destruct (map_get k (Memtable.data m)) as [e|] eqn:Hg; [|split; [exact Hd | reflexivity]].
  destruct (expired e now); [|split; [exact Hd | reflexivity]].
  rewrite (entrySize_defined e (Hd k e Hg)). simpl.
  split; [now apply defined_values_delete | reflexivity].
Qed.

Lemma Memtable_delete_keeps_defined :
  forall m k,
    MemtableSpec.defined_values m ->
    MemtableSpec.defined_values (snd (Memtable.delete m k)).
Proof.
  intros m k Hd. rewrite Memtable_delete_defined by exact Hd. simpl.
  now apply defined_values_delete.
Qed.

Lemma defined_values_clear :
  forall m, MemtableSpec.defined_values (Memtable.clear m).
Proof. intros m k e. simpl. discriminate. Qed.

End MemtableCalls.

Section EngineFacts.
Context {H : Host}.

Lemma tables_at_new :
  forall maxMemtableSizeMB enableBloomFilter level,
    StorageEngine.tables_at (StorageEngine.new maxMemtableSizeMB enableBloomFilter) level
    = [].
Proof.
  intros mx bf level. unfold StorageEngine.tables_at. simpl.
  do 7 (destruct level as [|level]; [reflexivity|]). now destruct level.
Qed.

Lemma levels_without_runs :
  forall e, EngineSpec.no_runs e ->
            StorageEngine.levels_0_to_6 e = List.repeat [] 7.
Proof.
  intros e Hn. unfold StorageEngine.levels_0_to_6. simpl. now rewrite !Hn.
Qed.

Lemma get_in_levels_empty :
  forall n k now, StorageEngine.get_in_levels (List.repeat [] n) k now = JNull.
Proof. induction n as [|n IH]; intros k now; simpl; [reflexivity | apply IH]. Qed.

(** The six methods that call what the memtable does not have. *)
Lemma set_throws :
  forall e k v ttl_ms now,
    StorageEngine.set e k v ttl_ms now
    = (Threw StorageError,
       StorageEngine.mk
         (StorageEngine.wal e ++ [WAL.Tag "SET"])
         (snd (Memtable.set (StorageEngine.memtable e) k v ttl_ms now))
         (StorageEngine.sstables e) (StorageEngine.enableBloomFilter e)
         (StorageEngine.compactionInProgress e) (StorageEngine.compactionStats e)).
Proof.
  intros e k v ttl_ms now. unfold StorageEngine.set. simpl.
  destruct (Memtable.set (StorageEngine.memtable e) k v ttl_ms now) as [[u|x] m];
    reflexivity.
Qed.

Lemma expire_throws :
  forall e k ttl_ms now,
    StorageEngine.expire e k ttl_ms now
    = (Threw StorageError,
       StorageEngine.with_wal e (StorageEngine.wal e ++ [WAL.Tag "EXPIRE"])).
Proof. reflexivity. Qed.

Lemma ttl_throws :
  forall e k now, StorageEngine.ttl e k now = (Threw StorageError, e).
Proof. reflexivity. Qed.

Lemma exists_throws :
  forall e k now, StorageEngine.exists_ e k now = (Threw StorageError, e).
Proof. reflexivity. Qed.

Lemma info_throws :
  forall e now, StorageEngine.info e now = (Threw TypeError, e).
Proof. reflexivity. Qed.

Lemma flushMemtable_throws :
  forall e now, StorageEngine.flushMemtable e now = (Threw TypeError, e).
Proof. reflexivity. Qed.

(** What the code after the calls would answer. *)
Lemma ttl_answer_is_not_minus_two :
  forall memTtl, (StorageEngine.ttl_answer memTtl =? -2)%Z = false.
Proof.
  intros memTtl. unfold StorageEngine.ttl_answer.
  destruct (0 <=? memTtl)%Z eqn:E; [|reflexivity].
  apply Z.leb_le in E. apply Z.eqb_neq. lia.
Qed.

Lemma collect_keys_adds_nothing :
  forall s allKeys, StorageEngine.collect_keys s allKeys = allKeys.
Proof.
  intros s. unfold StorageEngine.collect_keys.
  induction (SSTable.entries s) as [|entry r IH]; intros allKeys; simpl; [reflexivity|].
  apply IH.
Qed.

Lemma info_from_counts_nothing :
  forall size entries size' e now,
    StorageEngine.totalEntries (StorageEngine.info_from size entries size' e now) = 0.
Proof.
  intros size entries size' e now. unfold StorageEngine.info_from. simpl.
  match goal with
  | |- Z.of_nat (List.length (List.fold_left _ ?runs [])) = 0 =>
      induction runs as [|r rs IH]; simpl; [reflexivity|]
  end.
  rewrite collect_keys_adds_nothing. exact IH.
Qed.

(** [get] and [del] on a memtable without [undefined]. *)
Lemma get_without_runs :
  forall e k now,
    EngineSpec.no_runs e ->
    MemtableSpec.defined_values (StorageEngine.memtable e) ->
    exists v,
      StorageEngine.get e k now
      = (Completed v,
         StorageEngine.with_memtable e (snd (Memtable.get (StorageEngine.memtable e) k now))) /\
      fst (Memtable.get (StorageEngine.memtable e) k now)
      = Completed (if is_null v then JNull else v).
Proof.
  intros e k now Hn Hd. unfold StorageEngine.get.
  destruct (Memtable_get_keeps_defined k now Hd) as [_ Ht].
  destruct (Memtable.get (StorageEngine.memtable e) k now) as [[v|x] m];
    [|discriminate]. cbn [fst snd].
  destruct (is_null v) eqn:En; cbn [negb].
  - destruct v; try discriminate En.
    exists JNull. rewrite levels_without_runs by (intros level; apply Hn).
    rewrite get_in_levels_empty. split; reflexivity.
  - exists v. rewrite En. split; reflexivity.
Qed.

Lemma del_defined :
  forall e k,
    MemtableSpec.defined_values (StorageEngine.memtable e) ->
    StorageEngine.del e k
    = (Completed (map_has k (Memtable.data (StorageEngine.memtable e))),
       StorageEngine.mk
         (StorageEngine.wal e ++ [WAL.Tag "DEL"])
         (snd (Memtable.delete (StorageEngine.memtable e) k))
         (StorageEngine.sstables e) (StorageEngine.enableBloomFilter e)
         (StorageEngine.compactionInProgress e) (StorageEngine.compactionStats e)).
Proof.
  intros e k Hd. unfold StorageEngine.del. simpl.
  rewrite Memtable_delete_defined by exact Hd. reflexivity.
Qed.

(** The compaction of an engine without runs does nothing. *)
Lemma compact_levels_without_runs :
  forall levels e,
    EngineSpec.no_runs e -> StorageEngine.compact_levels levels e = (Completed tt, e).
Proof.
  induction levels as [|level rest IH]; intros e Hn; simpl; [reflexivity|].
  rewrite Hn. simpl.
  assert (Hlt : (StorageEngine.maxTablesAtLevel level <=? 0)%Z = false).
  { apply Z.leb_gt. unfold StorageEngine.maxTablesAtLevel.
    destruct (Nat.eqb level 0); [lia|]. apply Z.pow_pos_nonneg; lia. }
  rewrite Hlt. now apply IH.
Qed.

Lemma triggerCompaction_without_runs :
  forall e,
    EngineSpec.no_runs e -> snd (StorageEngine.triggerCompaction e) = e.
Proof.
  intros e Hn. unfold StorageEngine.triggerCompaction.
  destruct (StorageEngine.compactionInProgress e) eqn:Ec; [reflexivity|].
  unfold StorageEngine.compact.
  rewrite compact_levels_without_runs by (intros level; apply Hn). simpl.
  unfold StorageEngine.with_compactionInProgress. simpl. rewrite <- Ec.
  now destruct e.
Qed.


Lemma get_state :
  forall e k now,
    snd (StorageEngine.get e k now)
    = StorageEngine.with_memtable e (snd (Memtable.get (StorageEngine.memtable e) k now)).
Proof.
  intros e k now. unfold StorageEngine.get.
  destruct (Memtable.get (StorageEngine.memtable e) k now) as [[v|x] m]; cbn [fst snd];
    [|reflexivity].
  now destruct (negb (is_null v)).
Qed.

Lemma del_state :
  forall e k,
    snd (StorageEngine.del e k)
    = StorageEngine.mk
        (StorageEngine.wal e ++ [WAL.Tag "DEL"])
        (snd (Memtable.delete (StorageEngine.memtable e) k))
        (StorageEngine.sstables e) (StorageEngine.enableBloomFilter e)
        (StorageEngine.compactionInProgress e) (StorageEngine.compactionStats e).
Proof.
  intros e k. unfold StorageEngine.del. simpl.
  now destruct (Memtable.delete (StorageEngine.memtable e) k).
Qed.

Lemma no_runs_same_sstables :
  forall e e',
    StorageEngine.sstables e' = StorageEngine.sstables e ->
    EngineSpec.no_runs e -> EngineSpec.no_runs e'.
Proof.
  intros e e' Hs Hn level. unfold StorageEngine.tables_at. rewrite Hs. apply Hn.
Qed.

Lemma no_value_false :
  forall args, Worker.no_value args = false ->
               is_undefined (Worker.the_value args) = false.
Proof.
  intros args. unfold Worker.no_value, Worker.the_value.
  destruct (Worker.a_value args) as [[| | |]|]; (discriminate || reflexivity).
Qed.

Lemma reached_new :
  forall maxMemtableSizeMB enableBloomFilter,
    EngineSpec.reached (StorageEngine.new maxMemtableSizeMB enableBloomFilter).
Proof.
  intros mx bf. split.
  - intros level. apply tables_at_new.
  - intros k e. simpl. discriminate.
Qed.

Lemma reached_set :
  forall e k v ttl_ms now,
    EngineSpec.reached e -> is_undefined v = false ->
    EngineSpec.reached (snd (StorageEngine.set e k v ttl_ms now)).
Proof.
  intros e k v ttl_ms now [Hn Hd] Hv. rewrite set_throws. split.
  - eapply no_runs_same_sstables; [|exact Hn]; reflexivity.
  - simpl. now apply Memtable_set_keeps_defined.
Qed.

Lemma reached_get :
  forall e k now,
    EngineSpec.reached e -> EngineSpec.reached (snd (StorageEngine.get e k now)).
Proof.
  intros e k now [Hn Hd]. rewrite get_state. split.
  - eapply no_runs_same_sstables; [|exact Hn]; reflexivity.
  - simpl. now apply Memtable_get_keeps_defined.
Qed.

Lemma reached_del :
  forall e k,
    EngineSpec.reached e -> EngineSpec.reached (snd (StorageEngine.del e k)).
Proof.
  intros e k [Hn Hd]. rewrite del_state. split.
  - eapply no_runs_same_sstables; [|exact Hn]; reflexivity.
  - simpl. now apply Memtable_delete_keeps_defined.
Qed.

Lemma reached_flushall :
  forall e, EngineSpec.reached (StorageEngine.flushall e).
Proof.
  intros e. split.
  - intros level. unfold StorageEngine.tables_at. simpl.
    do 7 (destruct level as [|level]; [reflexivity|]). now destruct level.
  - apply defined_values_clear.
Qed.

Lemma reached_executeCommand :
  forall e command args now r e',
    EngineSpec.reached e ->
    Worker.executeCommand e command args now = Some (r, e') ->
    EngineSpec.reached e'.
Proof.
  intros e command args now r e' Hr. unfold Worker.executeCommand.
  destruct (command =? "SET")%string.
  { destruct (Worker.no_key args || Worker.no_value args) eqn:Ev.
    - intros [= <- <-]. exact Hr.
    - apply orb_false_elim in Ev. destruct Ev as [_ Ev].
      pose proof (@reached_set e (Worker.the_key args) (Worker.the_value args)
                    (Worker.a_ttl args) now Hr (@no_value_false args Ev)) as Hs.
      destruct (StorageEngine.set e (Worker.the_key args) (Worker.the_value args)
                  (Worker.a_ttl args) now) as [c e1].
      intros [= <- <-]. exact Hs. }
  destruct (command =? "GET")%string.
  { destruct (Worker.no_key args); [intros [= <- <-]; exact Hr|].
    pose proof (@reached_get e (Worker.the_key args) now Hr) as Hs.
    destruct (StorageEngine.get e (Worker.the_key args) now) as [c e1].
    intros [= <- <-]. exact Hs. }
  destruct (command =? "DEL")%string.
  { destruct (Worker.no_key args); [intros [= <- <-]; exact Hr|].
    pose proof (@reached_del e (Worker.the_key args) Hr) as Hs.
    destruct (StorageEngine.del e (Worker.the_key args)) as [c e1].
    intros [= <- <-]. exact Hs. }
  destruct (command =? "EXISTS")%string.
  { destruct (Worker.no_key args); [intros [= <- <-]; exact Hr|].
    rewrite exists_throws. intros [= <- <-]. exact Hr. }
  destruct (command =? "EXPIRE")%string.
  { destruct (Worker.no_key args || negb (truthy_num (Worker.a_ttl args)));
      [intros [= <- <-]; exact Hr|].
    rewrite expire_throws. intros [= <- <-]. exact Hr. }
  destruct (command =? "TTL")%string.
  { destruct (Worker.no_key args); [intros [= <- <-]; exact Hr|].
    rewrite ttl_throws. intros [= <- <-]. exact Hr. }
  destruct (command =? "INCR")%string.
  { destruct (Worker.no_key args); [intros [= <- <-]; exact Hr|].
    pose proof (@reached_get e (Worker.the_key args) now Hr) as Hs.
    destruct (StorageEngine.get e (Worker.the_key args) now) as [[current|x] e1];
      [|intros [= <- <-]; exact Hs].
    simpl in Hs.
    pose proof (@reached_set e1 (Worker.the_key args)
                  (JNum (Worker.number_or_0 current + Worker.amount_or_1 args))
                  None now Hs eq_refl) as Hs2.
    destruct (StorageEngine.set e1 _ _ None now) as [c e2].
    intros [= <- <-]. exact Hs2. }
  destruct (command =? "DECR")%string.
  { destruct (Worker.no_key args); [intros [= <- <-]; exact Hr|].
    pose proof (@reached_get e (Worker.the_key args) now Hr) as Hs.
    destruct (StorageEngine.get e (Worker.the_key args) now) as [[current|x] e1];
      [|intros [= <- <-]; exact Hs].
    simpl in Hs.
    pose proof (@reached_set e1 (Worker.the_key args)
                  (JNum (Worker.number_or_0 current - Worker.amount_or_1 args))
                  None now Hs eq_refl) as Hs2.
    destruct (StorageEngine.set e1 _ _ None now) as [c e2].
    intros [= <- <-]. exact Hs2. }
  destruct (command =? "KEYS")%string.
  { destruct (StorageEngine.keys e (Worker.a_pattern args) now); simpl;
      [intros [= <- <-]; exact Hr | discriminate]. }
  destruct (command =? "FLUSHALL")%string.
  { intros [= <- <-]. apply reached_flushall. }
  destruct (command =? "INFO")%string.
  { rewrite info_throws. intros [= <- <-]. exact Hr. }
  intros [= <- <-]. exact Hr.
Qed.

Lemma reached_after :
  forall e ev, EngineSpec.reached e -> EngineSpec.reached (EngineSpec.after e ev).
Proof.
  intros e [command args now|] Hr; simpl.
  - destruct (Worker.executeCommand e command args now) as [[r e']|] eqn:Ex;
      [|exact Hr].
    eapply reached_executeCommand; eassumption.
  - rewrite triggerCompaction_without_runs; [exact Hr | apply Hr].
Qed.

Lemma reached_run :
  forall events e, EngineSpec.reached e -> EngineSpec.reached (EngineSpec.run events e).
Proof.
  unfold EngineSpec.run.
  induction events as [|ev rest IH]; intros e Hr; simpl; [exact Hr|].
  apply IH. now apply reached_after.
Qed.

End EngineFacts.

(** C1.  Whatever requests the engine of a worker has executed (with
    the compaction timer firing in between), no level holds a run and
    the memtable holds no [undefined].  There [DEL] removes the entry of
    the key from the memtable, writes no tombstone and answers whether
    there was an entry; a [GET] of the key then answers [null] and
    changes nothing; but [EXISTS] is answered with a storage error: the
    engine calls [this.memtable.exists], which [Memtable] does not
    define. *)
Theorem del_then_get_and_exists :
  forall (H : Host) (maxMemtableSizeMB : Z) (enableBloomFilter : bool)
         (events : list EngineSpec.event) (k : string) (now now' : Z),
    k <> "" ->
    let e := EngineSpec.run events
               (StorageEngine.new maxMemtableSizeMB enableBloomFilter) in
    let for_k := Worker.mkArgs (Some k) None None None None in
    EngineSpec.no_runs e /\
    exists e',
      Worker.executeCommand e "DEL" for_k now
      = Some (Worker.Resolved
                (Worker.RBool (map_has k (Memtable.data (StorageEngine.memtable e)))),
              e') /\
      Memtable.data (StorageEngine.memtable e')
      = map_delete k (Memtable.data (StorageEngine.memtable e)) /\
      StorageEngine.sstables e' = StorageEngine.sstables e /\
      Worker.executeCommand e' "GET" for_k now'
      = Some (Worker.Resolved (Worker.RValue JNull), e') /\
      Worker.executeCommand e' "EXISTS" for_k now'
      = Some (Worker.Failed STORAGE_ERROR, e').
Proof.
  intros H mx bf events k now now' Hk e for_k.
  assert (Hr : EngineSpec.reached e) by (apply reached_run, reached_new).
  destruct Hr as [Hn Hd]. split; [exact Hn|].
  apply String.eqb_neq in Hk.
  unfold Worker.executeCommand, Worker.no_key, for_k.
  cbn [Worker.a_key Worker.the_key truthy_str String.eqb Ascii.eqb Bool.eqb andb orb negb].
  rewrite Hk. cbn [negb].
  rewrite del_defined by exact Hd.
  rewrite Memtable_delete_defined by exact Hd. cbn [snd].
  eexists. split; [reflexivity|]. split; [reflexivity|]. split; [reflexivity|].
  split; [|reflexivity].
  unfold StorageEngine.get. cbn [StorageEngine.memtable].
  rewrite Memtable_get_absent by (simpl; apply map_get_delete_same).
  cbn [negb is_null].
  rewrite levels_without_runs by (intros level; apply Hn).
  rewrite get_in_levels_empty. reflexivity.
Qed.

Lemma del_then_get_and_exists_witness :
  exists e',
    @Worker.executeCommand ExampleHost.host
      (@EngineSpec.run ExampleHost.host
         [EngineSpec.Request "SET"
            (Worker.mkArgs (Some "a") (Some (JStr "1")) None None None) 5]
         (StorageEngine.new 64 true))
      "DEL" (Worker.mkArgs (Some "a") None None None None) 6
    = Some (Worker.Resolved (Worker.RBool true), e') /\
    @Worker.executeCommand ExampleHost.host e' "GET"
      (Worker.mkArgs (Some "a") None None None None) 7
    = Some (Worker.Resolved (Worker.RValue JNull), e') /\
    @Worker.executeCommand ExampleHost.host e' "EXISTS"
      (Worker.mkArgs (Some "a") None None None None) 7
    = Some (Worker.Failed STORAGE_ERROR, e').
Proof.
  destruct (@del_then_get_and_exists ExampleHost.host 64 true
              [EngineSpec.Request "SET"
                 (Worker.mkArgs (Some "a") (Some (JStr "1")) None None None) 5]
              "a" 6 7 ltac:(discriminate))
    as (_ & e' & Hdel & _ & _ & Hget & Hex).
  exists e'. split; [exact Hdel|]. split; [exact Hget | exact Hex].
Defined.

(** C2.  [StorageEngine.ttl] calls [this.memtable.ttl], which [Memtable]
    does not define: for every key, in every state, it throws a storage
    error and leaves the engine as it is, and the worker answers [TTL]
    with that error; the code after the call could not answer -2
    either.  The exported store answers -2 for an absent key. *)
Theorem engine_ttl_of_absent_key :
  (forall (e : StorageEngine.t) (k : string) (now : Z),
      StorageEngine.ttl e k now = (Threw StorageError, e)) /\
  (forall (H : Host) (e : StorageEngine.t) (k : string) (now : Z),
      (k =? "")%string = false ->
      Worker.executeCommand e "TTL" (Worker.mkArgs (Some k) None None None None) now
      = Some (Worker.Failed STORAGE_ERROR, e)) /\
  (forall memTtl : Z, (StorageEngine.ttl_answer memTtl =? -2)%Z = false) /\
  @Worker.executeCommand ExampleHost.host (StorageEngine.new 64 true) "TTL"
    (Worker.mkArgs (Some "nonexistent") None None None None) 0
  = Some (Worker.Failed STORAGE_ERROR, StorageEngine.new 64 true) /\
  fst (SimpleStorage.ttl SimpleStorage.new "nonexistent" 0) = -2.
Proof.
  split; [|split; [|split; [|split]]].
  - exact ttl_throws.
  - intros H e k now Hk. unfold Worker.executeCommand, Worker.no_key.
    cbn [Worker.a_key Worker.the_key truthy_str String.eqb Ascii.eqb Bool.eqb andb orb negb].
    rewrite Hk. reflexivity.
  - exact ttl_answer_is_not_minus_two.
  - reflexivity.
  - reflexivity.
Qed.

(** C7.  [StorageEngine.info] starts with [this.memtable.getSizeInBytes()],
    which [Memtable] does not define, outside any [try]: in every state
    it throws a [TypeError], and the worker answers [INFO] with an
    error without a code of the package.  The code after the call would
    count no key at all: its test [!entry.value === null] compares a
    boolean with [null].  [info] of the exported store counts the keys
    that are stored. *)
Theorem engine_info_always_throws :
  (forall (e : StorageEngine.t) (now : Z),
      StorageEngine.info e now = (Threw TypeError, e)) /\
  (forall (H : Host) (e : StorageEngine.t) (args : Worker.Args) (now : Z),
      Worker.executeCommand e "INFO" args now = Some (Worker.Failed UNKNOWN_ERROR, e)) /\
  (forall (size entries size' : Z) (e : StorageEngine.t) (now : Z),
      StorageEngine.totalEntries (StorageEngine.info_from size entries size' e now) = 0) /\
  fst (SimpleStorage.info_totalEntries
         (SimpleStorage.set SimpleStorage.new "a" (JStr "1") None 5) 6)
  = Completed 1.
Proof.
  split; [|split; [|split]].
  - exact info_throws.
  - intros H e args now. reflexivity.
  - exact info_from_counts_nothing.
  - reflexivity.
Qed.

(* ================================================================== *)
(** ** Validation *)

Section ValidationFacts.
Context {H : Host}.

Lemma answer_is_no_validation_error :
  forall (A : Type) (result : A -> Worker.Result) (c : Completion A),
    Worker.is_validation_error (Worker.answer result c) = false.
Proof. intros A result [a|x]; reflexivity. Qed.

Lemma validation_error_keeps_state :
  forall e command args now r e',
    Worker.executeCommand e command args now = Some (r, e') ->
    Worker.is_validation_error r = true ->
    e' = e.
Proof.
  intros e command args now r e'. unfold Worker.executeCommand.
  repeat match goal with
         | |- context [if ?b then _ else _] => destruct b
         end;
    repeat match goal with
           | |- context [let (_, _) := ?x in _] => destruct x
           | |- context [match ?c with Completed _ => _ | Threw _ => _ end] =>
               destruct c
           end;
    try (intros Heq; injection Heq as <- <-;
         rewrite ?answer_is_no_validation_error; simpl; intros;
         (reflexivity || discriminate)).
  unfold option_map. destruct (StorageEngine.keys e (Worker.a_pattern args) now);
    [|discriminate].
  intros Heq; injection Heq as <- <-. simpl. discriminate.
Qed.

Lemma missing_key_is_rejected :
  forall e command args now,
    In command Worker.key_commands ->
    Worker.no_key args = true ->
    exists message,
      Worker.executeCommand e command args now
      = Some (Worker.Rejected VALIDATION_ERROR message, e).
Proof.
  intros e command args now Hin Hk. unfold Worker.key_commands in Hin. simpl in Hin.
  unfold Worker.executeCommand.
  repeat (destruct Hin as [<- | Hin]; [simpl; rewrite Hk; simpl; eauto|]).
  contradiction.
Qed.

Lemma missing_value_is_rejected :
  forall e args now,
    Worker.no_value args = true ->
    Worker.executeCommand e "SET" args now
    = Some (Worker.Rejected VALIDATION_ERROR "SET requires key and value", e).
Proof.
  intros e args now Hv. unfold Worker.executeCommand. simpl. rewrite Hv.
  now rewrite orb_true_r.
Qed.

Lemma missing_ttl_is_rejected :
  forall e args now,
    truthy_num (Worker.a_ttl args) = false ->
    Worker.executeCommand e "EXPIRE" args now
    = Some (Worker.Rejected VALIDATION_ERROR "EXPIRE requires key and ttl", e).
Proof.
  intros e args now Ht. unfold Worker.executeCommand. simpl. rewrite Ht.
  simpl. now rewrite orb_true_r.
Qed.

Lemma unknown_command_is_rejected :
  forall e command args now,
    ~ In command Worker.known_commands ->
    Worker.executeCommand e command args now
    = Some (Worker.Rejected VALIDATION_ERROR ("Unknown command: " ++ command), e).
Proof.
  intros e command args now Hnot.
  assert (Hne : forall name, In name Worker.known_commands ->
                             (command =? name)%string = false).
  { intros name Hin. apply String.eqb_neq. intros ->. contradiction. }
  unfold Worker.executeCommand.
  repeat (rewrite Hne; [|unfold Worker.known_commands, Worker.key_commands; simpl; tauto]).
  reflexivity.
Qed.

Lemma client_expire_guard :
  forall e k ttl_ms now,
    ttl_ms <= 0 ->
    Worker.client_expire e k ttl_ms now
    = Some (Worker.Rejected VALIDATION_ERROR "TTL must be positive", e).
Proof.
  intros e k ttl_ms now Hle. unfold Worker.client_expire.
  apply Z.leb_le in Hle. now rewrite Hle.
Qed.
End ValidationFacts.

Lemma SimpleSnapDB_expire_guard :
  forall middlewares db k ttl_ms now,
    ttl_ms <= 0 ->
    SimpleSnapDB.expire middlewares db k ttl_ms now
    = (SimpleSnapDB.Thrown VALIDATION_ERROR "TTL must be positive", db).
Proof.
  intros middlewares db k ttl_ms now Hle. unfold SimpleSnapDB.expire.
  apply Z.leb_le in Hle. now rewrite Hle.
Qed.

(** C8.  A command whose arguments fail validation is answered with a
    validation error and leaves the engine (memtable, WAL, runs) as it
    was: a missing key for the eight commands that take one, a missing
    value for SET, a missing or zero ttl for EXPIRE in the worker and any
    non-positive ttl in the client's [expire], and an unknown command;
    and no validation error of [executeCommand] comes with a changed
    state. *)
Theorem validation_failure_leaves_state :
  forall (H : Host) (e : StorageEngine.t) (command : string)
         (args : Worker.Args) (now : Z),
    (In command Worker.key_commands -> Worker.no_key args = true ->
     exists message,
       Worker.executeCommand e command args now
       = Some (Worker.Rejected VALIDATION_ERROR message, e)) /\
    (Worker.no_value args = true ->
     Worker.executeCommand e "SET" args now
     = Some (Worker.Rejected VALIDATION_ERROR "SET requires key and value", e)) /\
    (truthy_num (Worker.a_ttl args) = false ->
     Worker.executeCommand e "EXPIRE" args now
     = Some (Worker.Rejected VALIDATION_ERROR "EXPIRE requires key and ttl", e)) /\
    (forall k ttl_ms, ttl_ms <= 0 ->
       Worker.client_expire e k ttl_ms now
       = Some (Worker.Rejected VALIDATION_ERROR "TTL must be positive", e)) /\
    (forall middlewares db k ttl_ms, ttl_ms <= 0 ->
       SimpleSnapDB.expire middlewares db k ttl_ms now
       = (SimpleSnapDB.Thrown VALIDATION_ERROR "TTL must be positive", db)) /\
    (~ In command Worker.known_commands ->
     Worker.executeCommand e command args now
     = Some (Worker.Rejected VALIDATION_ERROR ("Unknown command: " ++ command), e)) /\
    (forall r e',
       Worker.executeCommand e command args now = Some (r, e') ->
       Worker.is_validation_error r = true -> e' = e).
Proof.
  intros H e command args now. repeat split.
  - apply missing_key_is_rejected.
  - apply missing_value_is_rejected.
  - apply missing_ttl_is_rejected.
  - intros k ttl_ms. apply client_expire_guard.
  - intros middlewares db k ttl_ms. apply SimpleSnapDB_expire_guard.
  - apply unknown_command_is_rejected.
  - intros r e'. apply validation_error_keeps_state.
Qed.

Lemma validation_failure_leaves_state_witness :
  (exists message,
     @Worker.executeCommand ExampleHost.host (StorageEngine.new 64 true) "GET"
       (Worker.mkArgs None None None None None) 7
     = Some (Worker.Rejected VALIDATION_ERROR message, StorageEngine.new 64 true)) /\
  @Worker.client_expire ExampleHost.host (StorageEngine.new 64 true) "a" (-5) 7
  = Some (Worker.Rejected VALIDATION_ERROR "TTL must be positive",
          StorageEngine.new 64 true) /\
  @Worker.executeCommand ExampleHost.host (StorageEngine.new 64 true) "MGET"
    (Worker.mkArgs None None None None None) 7
  = Some (Worker.Rejected VALIDATION_ERROR "Unknown command: MGET",
          StorageEngine.new 64 true).
Proof.
  pose proof (@validation_failure_leaves_state ExampleHost.host
                (StorageEngine.new 64 true) "GET"
                (Worker.mkArgs None None None None None) 7)
    as [Hkey [_ [_ [Hclient _]]]].
  pose proof (@validation_failure_leaves_state ExampleHost.host
                (StorageEngine.new 64 true) "MGET"
                (Worker.mkArgs None None None None None) 7)
    as [_ [_ [_ [_ [_ [Hunknown _]]]]]].
  split; [|split].
  - apply Hkey; [unfold Worker.key_commands; simpl; tauto | reflexivity].
  - apply Hclient. lia.
  - apply Hunknown. unfold Worker.known_commands, Worker.key_commands. simpl.
    intros Hin.
    repeat (destruct Hin as [Hin | Hin]; [discriminate Hin|]). exact Hin.
Defined.






(* ================================================================== *)
(** ** The Bloom filter *)

Section ArrayFacts.
Variable A : Type.

Lemma array_set_length :
  forall (l : list A) i x, List.length (array_set i x l) = List.length l.
Proof.
  induction l as [|y r IH]; intros [|j] x; simpl; auto.
Qed.

Lemma nth_array_set_same :
  forall (l : list A) i x d, (i < List.length l)%nat -> List.nth i (array_set i x l) d = x.
Proof.
  induction l as [|y r IH]; intros [|j] x d Hlt; simpl in *; try lia; auto.
  apply IH. lia.
Qed.

Lemma nth_array_set_other :
  forall (l : list A) i j x d, i <> j -> List.nth j (array_set i x l) d = List.nth j l d.
Proof.
  induction l as [|y r IH]; intros [|i] [|j] x d Hne; simpl; auto; try congruence.
Qed.
End ArrayFacts.

Lemma land_bit_test :
  forall x b, 0 <= b ->
    (Z.land x (Z.shiftl 1 b) =? 0)%Z = negb (Z.testbit x b).
Proof.
  intros x b Hb. rewrite Z.shiftl_1_l.
  destruct (Z.testbit x b) eqn:Et; simpl.
  - apply Z.eqb_neq. intros Hz.
    assert (Hbit : Z.testbit (Z.land x (2 ^ b)) b = true).
    { rewrite Z.land_spec, Et. simpl. now apply Z.pow2_bits_true. }
    rewrite Hz in Hbit. now rewrite Z.bits_0 in Hbit.
  - apply Z.eqb_eq. apply Z.bits_inj'. intros n Hn.
    rewrite Z.land_spec, Z.bits_0.
    destruct (Z.eq_dec n b) as [-> | Hne].
    + now rewrite Et.
    + rewrite (Z.pow2_bits_false b n) by congruence. apply andb_false_r.
Qed.

Lemma byte_keeps_low_bits :
  forall x b, 0 <= b < 8 -> Z.testbit (x mod 256) b = Z.testbit x b.
Proof.
  intros x b Hb. change 256 with (2 ^ 8). apply Z.mod_pow2_bits_low. lia.
Qed.

Module BloomFacts.
Import BloomFilter BloomSpec.

Lemma rem8_bounds : forall i, 0 <= i -> 0 <= Z.rem i 8 < 8.
Proof. intros i Hi. apply Z.rem_bound_pos; lia. Qed.

Lemma get_bit_on :
  forall bs i, 0 <= i -> get_bit bs (Some i) = true <-> bit_on bs i.
Proof.
  intros bs i Hi. unfold get_bit, bit_on.
  destruct (i <? 0)%Z eqn:E; [apply Z.ltb_lt in E; lia|].
  rewrite land_bit_test by (apply rem8_bounds; lia).
  rewrite negb_involutive. tauto.
Qed.

Lemma set_bit_length :
  forall bs ix, List.length (set_bit bs ix) = List.length bs.
Proof.
  intros bs [i|]; simpl; [|reflexivity].
  destruct (i <? 0)%Z; [reflexivity | apply array_set_length].
Qed.

Lemma set_bit_sets :
  forall bs i,
    0 <= i -> (Z.to_nat (i / 8) < List.length bs)%nat ->
    bit_on (set_bit bs (Some i)) i.
Proof.
  intros bs i Hi Hlen. unfold bit_on, set_bit.
  destruct (i <? 0)%Z eqn:E; [apply Z.ltb_lt in E; lia|].
  rewrite nth_array_set_same by exact Hlen.
  pose proof (rem8_bounds Hi) as Hb.
  rewrite byte_keeps_low_bits by exact Hb.
  rewrite Z.lor_spec, Z.shiftl_1_l, Z.pow2_bits_true by lia.
  apply orb_true_r.
Qed.

Lemma set_bit_keeps :
  forall bs ix j, 0 <= j -> bit_on bs j -> bit_on (set_bit bs ix) j.
Proof.
  intros bs [i|] j Hj Hon; simpl; [|exact Hon].
  destruct (i <? 0)%Z eqn:E; [exact Hon|].
  unfold bit_on in *.
  destruct (Nat.eq_dec (Z.to_nat (i / 8)) (Z.to_nat (j / 8))) as [Heq | Hne].
  - destruct (Nat.lt_ge_cases (Z.to_nat (i / 8)) (List.length bs)) as [Hlt | Hge].
    + rewrite <- Heq. rewrite nth_array_set_same by exact Hlt.
      rewrite byte_keeps_low_bits by (apply rem8_bounds; exact Hj).
      rewrite Z.lor_spec. rewrite Heq. rewrite Hon. reflexivity.
    + rewrite <- Heq in Hon. rewrite List.nth_overflow in Hon by exact Hge.
      now rewrite Z.bits_0 in Hon.
  - now rewrite nth_array_set_other.
Qed.

Lemma set_bits_length :
  forall f hs bs, List.length (set_bits f bs hs) = List.length bs.
Proof.
  intros f hs. unfold set_bits.
  induction hs as [|h r IH]; intros bs; simpl; [reflexivity|].
  rewrite IH. apply set_bit_length.
Qed.

Lemma set_bits_keeps :
  forall f hs bs j, 0 <= j -> bit_on bs j -> bit_on (set_bits f bs hs) j.
Proof.
  intros f hs. unfold set_bits.
  induction hs as [|h r IH]; intros bs j Hj Hon; simpl; [exact Hon|].
  apply IH; [exact Hj|]. now apply set_bit_keeps.
Qed.

(** With a positive size and an array of [ceil(size / 8)] bytes, every
    index of a non-negative hash lies inside the array. *)
Lemma index_in_range :
  forall size h,
    0 < size -> 0 <= h ->
    0 <= Z.rem h size /\
    (Z.to_nat (Z.rem h size / 8) < Z.to_nat (ceil_div size 8))%nat.
Proof.
  intros size h Hs Hh.
  pose proof (Z.rem_bound_pos h size Hh Hs) as [Hlo Hhi].
  split; [exact Hlo|].
  unfold ceil_div.
  pose proof (Z.div_mod (Z.rem h size) 8 ltac:(lia)) as H1.
  pose proof (Z.mod_pos_bound (Z.rem h size) 8 ltac:(lia)) as H2.
  pose proof (Z.div_mod (- size) 8 ltac:(lia)) as H3.
  pose proof (Z.mod_pos_bound (- size) 8 ltac:(lia)) as H4.
  assert (0 <= Z.rem h size / 8) by (apply Z.div_pos; lia).
  lia.
Qed.

Lemma getHashes_nonneg :
  forall f key h, In h (getHashes f key) -> 0 <= h.
Proof.
  intros f key h Hin. unfold getHashes in Hin.
  apply in_map_iff in Hin. destruct Hin as [i [<- _]]. apply Z.abs_nonneg.
Qed.

Lemma new_well_formed :
  forall size numHashes, 0 < size ->
    exists f, new size numHashes = Some f /\ well_formed f.
Proof.
  intros size numHashes Hs. unfold new.
  assert (Hlen : 0 <= ceil_div size 8).
  { unfold ceil_div.
    pose proof (Z.div_mod (- size) 8 ltac:(lia)).
    pose proof (Z.mod_pos_bound (- size) 8 ltac:(lia)). lia. }
  destruct (ceil_div size 8 <? 0)%Z eqn:E; [apply Z.ltb_lt in E; lia|].
  eexists. split; [reflexivity|]. split; simpl; [exact Hs|].
  apply List.repeat_length.
Qed.

Lemma add_size : forall f key, size (add f key) = size f.
Proof. reflexivity. Qed.

Lemma add_numHashes : forall f key, numHashes (add f key) = numHashes f.
Proof. reflexivity. Qed.

Lemma add_well_formed : forall f key, well_formed f -> well_formed (add f key).
Proof.
  intros f key [Hs Hl]. split; [exact Hs|]. simpl.
  change (List.length (set_bits f (bits f) (getHashes f key))
          = Z.to_nat (ceil_div (size f) 8)).
  now rewrite set_bits_length.
Qed.

Lemma probes_add : forall f k key, probes (add f k) key = probes f key.
Proof. reflexivity. Qed.

Lemma contains_iff :
  forall f key,
    (forall ix, In ix (probes f key) -> probe_on (bits f) ix) ->
    contains f key = true.
Proof.
  intros f key Hall. unfold contains. apply List.forallb_forall.
  intros h Hin.
  specialize (Hall (index_of f h) (in_map _ _ _ Hin)).
  destruct (index_of f h) as [i|]; simpl in Hall; [|contradiction].
  destruct Hall as [Hi Hon]. now apply get_bit_on.
Qed.

Lemma set_bits_sets :
  forall f hs bs h,
    well_formed f ->
    List.length bs = Z.to_nat (ceil_div (size f) 8) ->
    (forall x, In x hs -> 0 <= x) ->
    In h hs ->
    probe_on (set_bits f bs hs) (index_of f h).
Proof.
  intros f hs. unfold set_bits.
  induction hs as [|x r IH]; intros bs h Hwf Hlen Hpos Hin; simpl in *; [contradiction|].
  assert (Hix : forall y, 0 <= y ->
                 exists i, index_of f y = Some i /\ 0 <= i /\
                           (Z.to_nat (i / 8) < Z.to_nat (ceil_div (size f) 8))%nat).
  { intros y Hy. unfold index_of.
    destruct Hwf as [Hs _].
    destruct (size f =? 0)%Z eqn:E; [apply Z.eqb_eq in E; lia|].
    eexists. split; [reflexivity|]. now apply index_in_range. }
  destruct Hin as [-> | Hin].
  - destruct (Hix h (Hpos h (or_introl eq_refl))) as [i [Hi [Hnn Hrange]]].
    rewrite Hi. split; [exact Hnn|].
    change (bit_on (set_bits f (set_bit bs (Some i)) r) i).
    apply set_bits_keeps; [exact Hnn|].
    apply set_bit_sets; [exact Hnn | now rewrite Hlen].
  - apply IH; auto.
    now rewrite set_bit_length.
Qed.

Lemma add_sets_probes :
  forall f key ix,
    well_formed f -> In ix (probes f key) -> probe_on (bits (add f key)) ix.
Proof.
  intros f key ix Hwf Hin. unfold probes in Hin.
  apply in_map_iff in Hin. destruct Hin as [h [<- Hin]].
  simpl. change (probe_on (set_bits f (bits f) (getHashes f key)) (index_of f h)).
  apply set_bits_sets; auto.
  - exact (proj2 Hwf).
  - intros x Hx. eapply getHashes_nonneg; eassumption.
Qed.

Lemma add_keeps_probes :
  forall f k ix, probe_on (bits f) ix -> probe_on (bits (add f k)) ix.
Proof.
  intros f k [i|] Hon; simpl in *; [|contradiction].
  destruct Hon as [Hi Hon]. split; [exact Hi|].
  change (bit_on (set_bits f (bits f) (getHashes f k)) i).
  now apply set_bits_keeps.
Qed.

Lemma addAll_keeps_probes :
  forall keys f ix, probe_on (bits f) ix -> probe_on (bits (addAll f keys)) ix.
Proof.
  unfold addAll.
  induction keys as [|k r IH]; intros f ix Hon; simpl; [exact Hon|].
  apply IH. now apply add_keeps_probes.
Qed.

Lemma addAll_probes : forall keys f key, probes (addAll f keys) key = probes f key.
Proof.
  unfold addAll.
  induction keys as [|k r IH]; intros f key; simpl; [reflexivity|].
  now rewrite IH, probes_add.
Qed.

Lemma addAll_contains :
  forall keys f key,
    well_formed f -> In key keys -> contains (addAll f keys) key = true.
Proof.
  intros keys f key Hwf Hin. apply contains_iff. intros ix Hix.
  rewrite addAll_probes in Hix.
  revert f Hwf Hix. unfold addAll.
  induction keys as [|k r IH]; intros f Hwf Hix; simpl in *; [contradiction|].
  destruct Hin as [-> | Hin].
  - apply (addAll_keeps_probes r). now apply add_sets_probes.
  - apply IH; [exact Hin | now apply add_well_formed | now rewrite probes_add].
Qed.
End BloomFacts.

Lemma addAll_then_contains :
  forall (size : Z) (numHashes : nat) (keys : list string) (key : string),
    0 < size ->
    In key keys ->
    exists f,
      BloomFilter.new size numHashes = Some f /\
      BloomFilter.contains (BloomFilter.addAll f keys) key = true.
Proof.
  intros size numHashes keys key Hs Hin.
  destruct (BloomFacts.new_well_formed numHashes Hs) as [f [Hnew Hwf]].
  exists f. split; [exact Hnew|]. now apply BloomFacts.addAll_contains.
Qed.

(** The filter of a run: a key of the run is never rejected, so [get]
    does not stop at the filter for it. *)
Lemma run_filter_accepts_its_keys :
  forall (H : Host) (enableBloomFilter : bool) (es : list StorageEntry) (e : StorageEntry),
    In e es ->
    match SSTable.buildBloom enableBloomFilter es with
    | Some f => BloomFilter.contains f (serialize (key e)) = true
    | None => True
    end.
Proof.
  intros H enableBloomFilter es e Hin. unfold SSTable.buildBloom.
  destruct (enableBloomFilter && (0 <? Z.of_nat (List.length es))%Z) eqn:E; [|exact I].
  apply andb_true_iff in E. destruct E as [_ E]. apply Z.ltb_lt in E.
  destruct (BloomFacts.new_well_formed 3 (size := Z.of_nat (List.length es) * 10)
              ltac:(lia)) as [f [Hnew Hwf]].
  rewrite Hnew. apply BloomFacts.addAll_contains; [exact Hwf|].
  apply in_map_iff. now exists e.
Qed.

(** C9.  No false negatives: in a filter built by the constructor with a
    positive size, after any sequence of keys has been added, [contains]
    answers [true] for each of them; a [false] therefore says that the
    key was never added.  In particular the filter that the constructor
    of a run builds over its entries never rejects the key of one of
    them. *)
Theorem bloom_filter_no_false_negative :
  (forall (size : Z) (numHashes : nat) (keys : list string) (key : string),
      0 < size ->
      In key keys ->
      exists f,
        BloomFilter.new size numHashes = Some f /\
        BloomFilter.contains (BloomFilter.addAll f keys) key = true) /\
  (forall (H : Host) (index level : Z) (es : list StorageEntry)
          (enableBloomFilter : bool) (now : Z) (e : StorageEntry),
      In e es ->
      match SSTable.bloomFilter (SSTable.new index level es enableBloomFilter now) with
      | Some f => BloomFilter.contains f (serialize (key e)) = true
      | None => True
      end).
Proof.
  split.
  - exact addAll_then_contains.
  - intros H index level es enableBloomFilter now e Hin. simpl.
    now apply run_filter_accepts_its_keys.
Qed.

Lemma bloom_filter_no_false_negative_witness :
  exists f,
    BloomFilter.new 20 3 = Some f /\
    BloomFilter.contains (BloomFilter.addAll f ["user:1"; "user:2"; "post:1"]) "user:2" = true.
Proof.
  apply (proj1 bloom_filter_no_false_negative 20 3%nat ["user:1"; "user:2"; "post:1"] "user:2").
  - lia.
  - simpl. tauto.
Defined.

(** A filter of size 0 is outside the theorem: every index is [NaN],
    [add] changes nothing and [contains] answers [false]. *)
Lemma bloom_filter_of_size_zero :
  option_map (fun f => BloomFilter.contains (BloomFilter.add f "a") "a")
             (BloomFilter.new 0 3) = Some false.
Proof. reflexivity. Qed.

(* ================================================================== *)
(** ** Compaction *)

Section SortFacts.
Variable A : Type.
Variable cmp : A -> A -> Z.

Lemma sort_insert_perm : forall x l, Permutation (sort_insert cmp x l) (x :: l).
Proof.
  intros x l. induction l as [|y r IH]; simpl; [reflexivity|].
  destruct (cmp x y <? 0)%Z; [reflexivity|].
  rewrite IH. apply perm_swap.
Qed.

Lemma array_sort_perm : forall l, Permutation (array_sort cmp l) l.
Proof.
  intros l. unfold array_sort.
  assert (Hgen : forall acc, Permutation
                   (List.fold_left (fun acc x => sort_insert cmp x acc) l acc)
                   (l ++ acc)).
  { induction l as [|x r IH]; intros acc; simpl; [reflexivity|].
    rewrite IH, sort_insert_perm. symmetry. apply Permutation_middle. }
  rewrite Hgen. now rewrite app_nil_r.
Qed.
End SortFacts.

Module CompactionFacts.
Import CompactionEngine CompactionSpec.

Lemma build_keyMap_flat :
  forall ts, build_keyMap ts = List.fold_left keep_latest (all_entries ts) [].
Proof.
  intros ts. unfold build_keyMap, all_entries. generalize (@nil (string * StorageEntry)).
  induction ts as [|s r IH]; intros m; simpl; [reflexivity|].
  now rewrite List.fold_left_app, IH.
Qed.

Lemma keep_latest_get :
  forall m e k,
    map_get k (keep_latest m e)
    = if (key e =? k)%string then newer (map_get k m) e else map_get k m.
Proof.
  intros m e k. unfold keep_latest.
  destruct (key e =? k)%string eqn:E.
  - apply String.eqb_eq in E. subst k.
    destruct (map_get (key e) m) as [c|] eqn:G; simpl.
    + destruct (timestamp c <? timestamp e)%Z; [apply map_get_set_same | exact G].
    + apply map_get_set_same.
  - apply String.eqb_neq in E.
    destruct (map_get (key e) m) as [c|]; simpl.
    + destruct (timestamp c <? timestamp e)%Z; [now apply map_get_set_other | reflexivity].
    + now apply map_get_set_other.
Qed.

Lemma fold_keep_latest_get :
  forall l m k,
    map_get k (List.fold_left keep_latest l m) = latest_for k l (map_get k m).
Proof.
  unfold latest_for.
  induction l as [|e r IH]; intros m k; simpl; [reflexivity|].
  now rewrite IH, keep_latest_get.
Qed.

Lemma In_map_set :
  forall (m : Map StorageEntry) k v k' v',
    In (k', v') (map_set k v m) -> (k' = k /\ v' = v) \/ In (k', v') m.
Proof.
  induction m as [|[k0 v0] r IH]; intros k v k' v' Hin; simpl in *.
  - destruct Hin as [[= <- <-] | []]. now left.
  - destruct (k0 =? k)%string.
    + destruct Hin as [[= <- <-] | Hin]; [now left | right; now right].
    + destruct Hin as [Heq | Hin]; [right; now left|].
      destruct (IH _ _ _ _ Hin) as [Hl | Hr]; [now left | right; now right].
Qed.

Lemma keep_latest_keyed : forall m e, keyed m -> keyed (keep_latest m e).
Proof.
  intros m e [Hnd Hk].
  assert (Hset : keyed (map_set (key e) e m)).
  { split; [now apply map_set_NoDup|].
    intros k e' Hin. destruct (In_map_set _ _ _ _ _ Hin) as [[-> ->] | Hold];
      [reflexivity | now apply Hk]. }
  unfold keep_latest.
  destruct (map_get (key e) m) as [c|]; [|exact Hset].
  destruct (timestamp c <? timestamp e)%Z; [exact Hset | now split].
Qed.

Lemma fold_keep_latest_keyed :
  forall l m, keyed m -> keyed (List.fold_left keep_latest l m).
Proof.
  induction l as [|e r IH]; intros m Hm; simpl; [exact Hm|].
  apply IH. now apply keep_latest_keyed.
Qed.

Lemma build_keyMap_keyed : forall ts, keyed (build_keyMap ts).
Proof.
  intros ts. rewrite build_keyMap_flat. apply fold_keep_latest_keyed.
  split; [constructor | intros k e []].
Qed.

Lemma latest_for_snoc :
  forall k l x init,
    latest_for k (l ++ [x]) init
    = if (key x =? k)%string then newer (latest_for k l init) x else latest_for k l init.
Proof.
  intros k l x init. unfold latest_for. now rewrite List.fold_left_app.
Qed.

(** What [latest_for] returns: nothing when the key does not occur;
    otherwise the first entry, in the order of the input, among those
    of the key with the largest timestamp. *)
Lemma latest_for_spec :
  forall k l,
    match latest_for k l None with
    | None => forall e', In e' l -> key e' <> k
    | Some e =>
        key e = k /\
        (forall e', In e' l -> key e' = k -> timestamp e' <= timestamp e) /\
        exists before after,
          l = before ++ e :: after /\
          forall e', In e' before -> key e' = k -> timestamp e' < timestamp e
    end.
Proof.
  intros k l. induction l as [|x l IH] using List.rev_ind.
  - simpl. intros e' [].
  - rewrite latest_for_snoc.
    destruct (key x =? k)%string eqn:E.
    + apply String.eqb_eq in E.
      destruct (latest_for k l None) as [c|]; simpl.
      * destruct IH as [Hc [Hmax [before [after [Hl Hfirst]]]]].
        destruct (timestamp c <? timestamp x)%Z eqn:T.
        -- apply Z.ltb_lt in T. split; [exact E|]. split.
           ++ intros e' Hin He'. apply in_app_or in Hin.
              destruct Hin as [Hin | [<- | []]]; [|lia].
              specialize (Hmax e' Hin He'). lia.
           ++ exists l, []. split; [reflexivity|].
              intros e' Hin He'. specialize (Hmax e' Hin He'). lia.
        -- apply Z.ltb_ge in T. split; [exact Hc|]. split.
           ++ intros e' Hin He'. apply in_app_or in Hin.
              destruct Hin as [Hin | [<- | []]]; [now apply Hmax | exact T].
           ++ exists before, (after ++ [x]). split; [|exact Hfirst].
              rewrite Hl. now rewrite <- List.app_assoc.
      * split; [exact E|]. split.
        -- intros e' Hin He'. apply in_app_or in Hin.
           destruct Hin as [Hin | [<- | []]]; [|lia].
           exfalso. now apply (IH e' Hin).
        -- exists l, []. split; [reflexivity|].
           intros e' Hin He'. exfalso. now apply (IH e' Hin).
    + apply String.eqb_neq in E.
      destruct (latest_for k l None) as [c|].
      * destruct IH as [Hc [Hmax [before [after [Hl Hfirst]]]]].
        split; [exact Hc|]. split.
        -- intros e' Hin He'. apply in_app_or in Hin.
           destruct Hin as [Hin | [<- | []]]; [now apply Hmax | contradiction].
        -- exists before, (after ++ [x]). split; [|exact Hfirst].
           rewrite Hl. now rewrite <- List.app_assoc.
      * intros e' Hin. apply in_app_or in Hin.
        destruct Hin as [Hin | [<- | []]]; [now apply IH | exact E].
Qed.

Lemma keyed_values_keys :
  forall m, keyed m -> List.map key (map_values m) = map_keys m.
Proof.
  intros m [_ Hk]. unfold map_values, map_keys.
  rewrite List.map_map. apply List.map_ext_in.
  intros [k e] Hin. simpl. now apply Hk.
Qed.

Lemma NoDup_map_filter :
  forall (A B : Type) (f : A -> B) (p : A -> bool) (l : list A),
    NoDup (List.map f l) -> NoDup (List.map f (List.filter p l)).
Proof.
  intros A B f p l. induction l as [|x r IH]; simpl; intros Hnd; [constructor|].
  inversion Hnd as [|? ? Hnotin Hnd']; subst.
  destruct (p x); simpl; [|now apply IH].
  constructor; [|now apply IH].
  intros Hin. apply Hnotin. apply in_map_iff in Hin.
  destruct Hin as [y [Hy Hin]]. apply List.filter_In in Hin.
  apply in_map_iff. exists y. tauto.
Qed.

Section WITH_HOST.
Context {H : Host}.

Lemma merged_perm :
  forall ts now,
    Permutation (mergeSSTablesWithOverlap ts now)
                (List.filter (valid now) (map_values (build_keyMap ts))).
Proof. intros ts now. apply array_sort_perm. Qed.

Lemma merged_keys_NoDup :
  forall ts now, NoDup (List.map key (mergeSSTablesWithOverlap ts now)).
Proof.
  intros ts now.
  apply (Permutation_NoDup (l := List.map key
           (List.filter (valid now) (map_values (build_keyMap ts))))).
  - apply Permutation_map. symmetry. apply merged_perm.
  - apply NoDup_map_filter.
    rewrite (keyed_values_keys (build_keyMap_keyed ts)).
    apply (build_keyMap_keyed ts).
Qed.

Lemma merged_is_latest :
  forall ts now e,
    In e (mergeSSTablesWithOverlap ts now) ->
    valid now e = true /\
    latest_for (key e) (all_entries ts) None = Some e.
Proof.
  intros ts now e Hin.
  apply (Permutation_in _ (merged_perm ts now)) in Hin.
  apply List.filter_In in Hin. destruct Hin as [Hin Hv]. split; [exact Hv|].
  unfold map_values in Hin. apply in_map_iff in Hin.
  destruct Hin as [[k e0] [Heq Hin]]. simpl in Heq. subst e0.
  destruct (build_keyMap_keyed ts) as [Hnd Hk].
  pose proof (Hk _ _ Hin) as Hkey. subst k.
  pose proof (In_map_get _ _ _ Hnd Hin) as Hget.
  rewrite build_keyMap_flat, fold_keep_latest_get in Hget. exact Hget.
Qed.
End WITH_HOST.

(** The loop of the k-way merge. *)
Lemma find_min_spec :
  forall its base best i e,
    find_min its base best = Some (i, e) ->
    best = Some (i, e) \/
    ((base <= i)%nat /\ exists rest, List.nth_error its (i - base) = Some (e :: rest)).
Proof.
  induction its as [|it r IH]; intros base best i e Hf; simpl in Hf; [now left|].
  assert (Hshift : forall b' : option (nat * StorageEntry),
             find_min r (S base) b' = Some (i, e) ->
             b' = Some (i, e) \/
             ((base <= i)%nat /\
              exists rest, List.nth_error (it :: r) (i - base) = Some (e :: rest))).
  { intros b' Hb. destruct (IH _ _ _ _ Hb) as [-> | [Hle [rest Hn]]]; [now left|].
    right. split; [lia|]. exists rest.
    replace (i - base)%nat with (S (i - S base)) by lia. exact Hn. }
  assert (Hhere : forall x tl, it = x :: tl ->
             find_min r (S base) (Some (base, x)) = Some (i, e) ->
             (base <= i)%nat /\
             exists rest, List.nth_error (it :: r) (i - base) = Some (e :: rest)).
  { intros x tl -> Hb. destruct (Hshift _ Hb) as [[= <- <-] | Hr]; [|exact Hr].
    split; [lia|]. exists tl. now rewrite Nat.sub_diag. }
  destruct it as [|x tl].
  - destruct (Hshift _ Hf) as [-> | Hr]; [now left | now right].
  - destruct best as [[bi bm]|].
    + destruct (str_lt (key x) (key bm)).
      * right. now apply (Hhere x tl).
      * destruct (Hshift _ Hf) as [Hl | Hr]; [now left | now right].
    + right. now apply (Hhere x tl).
Qed.

Lemma advance_shrinks :
  forall its i e rest,
    List.nth_error its i = Some (e :: rest) ->
    S (total_length (advance its i)) = total_length its.
Proof.
  induction its as [|it r IH]; intros [|i] e rest Hn; simpl in *; try discriminate.
  - injection Hn as ->. simpl. reflexivity.
  - rewrite <- (IH _ _ _ Hn). lia.
Qed.

Lemma merge_loop_total :
  forall fuel now its merged,
    (total_length its < fuel)%nat ->
    exists result, merge_loop fuel now its merged = Some result.
Proof.
  induction fuel as [|fuel IH]; intros now its merged Hlt; [lia|]. simpl.
  destruct (find_min its 0 None) as [[i e]|] eqn:F; [|now eexists].
  destruct (find_min_spec _ _ _ F) as [Hb | [_ [rest Hn]]]; [discriminate|].
  rewrite Nat.sub_0_r in Hn. pose proof (advance_shrinks _ _ Hn) as Hs.
  destruct (is_null (value e) || expired e now); apply IH; lia.
Qed.

Lemma merge_loop_valid :
  forall fuel now its merged result,
    merge_loop fuel now its merged = Some result ->
    (forall e, In e merged -> valid now e = true) ->
    forall e, In e result -> valid now e = true.
Proof.
  induction fuel as [|fuel IH]; intros now its merged result Hm Hok; [discriminate|].
  simpl in Hm.
  destruct (find_min its 0 None) as [[i m]|]; [|now injection Hm as <-].
  destruct (is_null (value m) || expired m now) eqn:E.
  - now apply (IH _ _ _ _ Hm).
  - apply (IH _ _ _ _ Hm). intros e Hin. apply in_app_or in Hin.
    destruct Hin as [Hin | [<- | []]]; [now apply Hok|].
    unfold valid. apply orb_false_iff in E. destruct E as [-> ->]. reflexivity.
Qed.

Lemma valid_not_null : forall now e, valid now e = true -> is_null (value e) = false.
Proof.
  intros now e Hv. unfold valid in Hv. apply andb_true_iff in Hv.
  destruct Hv as [Hv _]. now apply negb_true_iff in Hv.
Qed.
End CompactionFacts.

(** C3, as the code has it.  Both merges drop every tombstone, whatever
    the level of the run they feed: no entry of the output of
    [mergeSSTablesWithOverlap] has a [null] value, [mergeSSTables] always
    returns and no entry of its output has one, and the run that
    [compactLevel0] builds at level 1 holds none. *)
Theorem merge_drops_every_tombstone :
  forall (H : Host) (ts : list SSTable.t) (now : Z),
    List.forallb (fun e => negb (is_null (value e)))
                 (CompactionEngine.mergeSSTablesWithOverlap ts now) = true /\
    (exists merged,
        CompactionEngine.mergeSSTables ts now = Some merged /\
        List.forallb (fun e => negb (is_null (value e))) merged = true) /\
    (forall enableBloomFilter,
        List.forallb
          (fun s => (SSTable.level s =? 1)%Z &&
                    List.forallb (fun e => negb (is_null (value e))) (SSTable.entries s))
          (CompactionEngine.sstables
             (CompactionEngine.compactLevel0 enableBloomFilter ts now)) = true).
Proof.
  intros H ts now.
  assert (Hover : List.forallb (fun e => negb (is_null (value e)))
                    (CompactionEngine.mergeSSTablesWithOverlap ts now) = true).
  { apply List.forallb_forall. intros e Hin.
    destruct (CompactionFacts.merged_is_latest _ _ _ Hin) as [Hv _].
    rewrite (CompactionFacts.valid_not_null _ _ Hv). reflexivity. }
  split; [exact Hover|]. split.
  - unfold CompactionEngine.mergeSSTables.
    destruct (@CompactionFacts.merge_loop_total
                (S (CompactionEngine.total_length (List.map SSTable.entries ts)))
                now (List.map SSTable.entries ts) [] (Nat.lt_succ_diag_r _))
      as [merged Hm].
    exists merged. split; [exact Hm|].
    apply List.forallb_forall. intros e Hin.
    rewrite (CompactionFacts.valid_not_null now e); [reflexivity|].
    apply (CompactionFacts.merge_loop_valid _ _ _ _ Hm); [intros e' []|exact Hin].
  - intros enableBloomFilter. simpl. rewrite Hover. reflexivity.
Qed.

(** C3 as stated fails: merging the live run and the tombstone run of
    level 0 produces a run of level 1, not the bottom level, and the
    tombstone is not in it. *)
Lemma tombstone_dropped_above_bottom_level :
  List.map (fun s => (SSTable.level s, SSTable.entries s))
    (CompactionEngine.sstables
       (@CompactionEngine.compactLevel0 ExampleHost.host false
          [live_run; tombstone_run] 3))
  = [(1, [])] /\
  CompactionEngine.all_entries [live_run; tombstone_run]
  = [mkEntry "a" (JStr "1") 1 None (Some 1); mkEntry "a" JNull 2 None (Some 2)].
Proof. vm_compute. split; reflexivity. Qed.

(** C4, as the code has it.  In the output of [mergeSSTablesWithOverlap]
    no key occurs twice, and the entry kept for a key has the largest
    timestamp among all input entries of that key; among the entries of
    the key with that timestamp it is the first one in the order of the
    input (runs in the given order, entries in run order).  The version
    is not looked at. *)
Theorem merge_keeps_first_newest_entry :
  forall (H : Host) (ts : list SSTable.t) (now : Z) (e : StorageEntry),
    In e (CompactionEngine.mergeSSTablesWithOverlap ts now) ->
    NoDup (List.map key (CompactionEngine.mergeSSTablesWithOverlap ts now)) /\
    (forall e', In e' (CompactionEngine.all_entries ts) ->
                key e' = key e -> timestamp e' <= timestamp e) /\
    exists before after,
      CompactionEngine.all_entries ts = before ++ e :: after /\
      forall e', In e' before -> key e' = key e -> timestamp e' < timestamp e.
Proof.
  intros H ts now e Hin.
  split; [apply CompactionFacts.merged_keys_NoDup|].
  destruct (CompactionFacts.merged_is_latest _ _ _ Hin) as [_ Hl].
  pose proof (CompactionFacts.latest_for_spec (key e) (CompactionEngine.all_entries ts))
    as Hspec.
  rewrite Hl in Hspec. destruct Hspec as [_ [Hmax Hfirst]].
  split; [exact Hmax | exact Hfirst].
Qed.

Lemma merge_keeps_first_newest_entry_witness :
  NoDup (List.map key
           (@CompactionEngine.mergeSSTablesWithOverlap ExampleHost.host
              [tie_run_v1; tie_run_v2] 20)) /\
  (forall e', In e' (CompactionEngine.all_entries [tie_run_v1; tie_run_v2]) ->
              key e' = "a" -> timestamp e' <= 5).
Proof.
  pose proof (@merge_keeps_first_newest_entry ExampleHost.host
                [tie_run_v1; tie_run_v2] 20
                (mkEntry "a" (JStr "x") 5 None (Some 1))
                ltac:(vm_compute; left; reflexivity)) as [Hnd [Hmax _]].
  split; [exact Hnd | exact Hmax].
Defined.

(** C4 as stated fails on the tie-break: of two entries of one key with
    the same timestamp, the one of version 1, seen first, is kept and the
    one of version 2 is dropped. *)
Lemma merge_tie_keeps_lower_version :
  @CompactionEngine.mergeSSTablesWithOverlap ExampleHost.host [tie_run_v1; tie_run_v2] 20
  = [mkEntry "a" (JStr "x") 5 None (Some 1)] /\
  CompactionEngine.all_entries [tie_run_v1; tie_run_v2]
  = [mkEntry "a" (JStr "x") 5 None (Some 1); mkEntry "a" (JStr "y") 5 None (Some 2)].
Proof. vm_compute. split; reflexivity. Qed.

(* ================================================================== *)
(** ** Key patterns *)

Module PatternFacts.
Import Regex PatternSpec.

Ltac all_ascii c := destruct c as [[] [] [] [] [] [] [] []]; reflexivity.

Lemma syntax_is_glob_meta : forall c, syntax_char c = glob_meta c.
Proof. intros c. all_ascii c. Qed.

Lemma escaped_not_wildcard :
  forall c, escaped_char c = true ->
            Ascii.eqb c "*" = false /\ Ascii.eqb c "?" = false.
Proof.
  intros c Hc. split.
  - destruct (Ascii.eqb c "*") eqn:E; [|reflexivity].
    apply Ascii.eqb_eq in E. subst c. discriminate Hc.
  - destruct (Ascii.eqb c "?") eqn:E; [|reflexivity].
    apply Ascii.eqb_eq in E. subst c. discriminate Hc.
Qed.

Lemma replaced_pattern :
  forall p,
    replace_char "?" "." (replace_char "*" ".*" (escape_special p)) = expand_all p.
Proof.
  induction p as [|c r IH]; [reflexivity|].
  simpl. unfold expand.
  destruct (escaped_char c) eqn:E.
  - destruct (escaped_not_wildcard _ E) as [Hs Hq].
    simpl. rewrite Hs. simpl. rewrite Hq. now rewrite IH.
  - simpl. destruct (Ascii.eqb c "*") eqn:Hs.
    + simpl. now rewrite IH.
    + simpl. destruct (Ascii.eqb c "?") eqn:Hq; simpl; now rewrite IH.
Qed.

Lemma string_length_app :
  forall a b, String.length (a ++ b) = (String.length a + String.length b)%nat.
Proof.
  induction a as [|c a IH]; intros b; simpl; [reflexivity|]. now rewrite IH.
Qed.

Lemma string_app_assoc :
  forall a b c : string, ((a ++ b) ++ c = a ++ (b ++ c))%string.
Proof.
  induction a as [|x a IH]; intros b c; simpl; [reflexivity|]. now rewrite IH.
Qed.

Lemma expand_all_head :
  forall r tail,
    starts_with_quantifier tail = false ->
    starts_with_quantifier (expand_all r ++ tail) = false.
Proof.
  intros [|c r] tail Ht; [exact Ht|].
  simpl. unfold expand.
  destruct (escaped_char c) eqn:E; [reflexivity|].
  destruct (Ascii.eqb c "*") eqn:Hs; [reflexivity|].
  destruct (Ascii.eqb c "?") eqn:Hq; [reflexivity|].
  simpl. revert E Hs Hq. clear. destruct c as [[] [] [] [] [] [] [] []];
    try reflexivity; intros; discriminate.
Qed.

Lemma quantified_plain :
  forall parse a rest,
    starts_with_quantifier rest = false ->
    quantified parse a rest = option_map (cons (IOne a)) (parse rest).
Proof.
  intros parse a [|q rest'] Hq; [reflexivity|].
  unfold quantified. simpl in Hq. unfold quantifier_char in Hq. simpl in Hq.
  repeat (apply orb_false_iff in Hq; destruct Hq as [? Hq]).
  repeat match goal with Hf : Ascii.eqb q _ = false |- _ => rewrite Hf; clear Hf end.
  reflexivity.
Qed.

Lemma parse_expanded :
  forall p fuel,
    (String.length (expand_all p ++ "$") < fuel)%nat ->
    parse_fuel fuel (expand_all p ++ "$")
    = Some (List.map glob_item (list_ascii_of_string p) ++ [IEol]).
Proof.
  induction p as [|c r IH]; intros fuel Hlen.
  - simpl in *. destruct fuel as [|[|f]]; try lia. reflexivity.
  - assert (Hhead : starts_with_quantifier (expand_all r ++ "$") = false)
      by (now apply expand_all_head).
    simpl expand_all in *. rewrite string_app_assoc in *.
    rewrite string_length_app in Hlen.
    simpl list_ascii_of_string. simpl List.map.
    unfold expand in *. unfold glob_item at 1.
    destruct (escaped_char c) eqn:E.
    + destruct (escaped_not_wildcard _ E) as [Hs Hq]. rewrite Hs, Hq.
      simpl in Hlen. destruct fuel as [|f]; [lia|].
      simpl. rewrite syntax_is_glob_meta. unfold glob_meta. rewrite E. simpl.
      rewrite quantified_plain by exact Hhead.
      rewrite IH by lia. reflexivity.
    + destruct (Ascii.eqb c "*") eqn:Hs.
      * simpl in Hlen. destruct fuel as [|f]; [lia|].
        simpl. unfold quantified. simpl. rewrite Hhead.
        rewrite IH by lia. reflexivity.
      * destruct (Ascii.eqb c "?") eqn:Hq.
        -- simpl in Hlen. destruct fuel as [|f]; [lia|].
           simpl. rewrite quantified_plain by exact Hhead.
           rewrite IH by lia. reflexivity.
        -- simpl in Hlen. destruct fuel as [|f]; [lia|].
           simpl.
           assert (Hsyn : syntax_char c = false).
           { rewrite syntax_is_glob_meta. unfold glob_meta. now rewrite E, Hs, Hq. }
           assert (Hc : Ascii.eqb c "\" = false /\ Ascii.eqb c "." = false /\
                        Ascii.eqb c "^" = false /\ Ascii.eqb c "$" = false).
           { revert E. clear. destruct c as [[] [] [] [] [] [] [] []];
               try (intros; repeat split; reflexivity); intros; discriminate. }
           destruct Hc as [H1 [H2 [H3 H4]]]. rewrite H1, H2, H3, H4, Hsyn.
           rewrite quantified_plain by exact Hhead.
           rewrite IH by lia. reflexivity.
Qed.

Lemma parse_anchor :
  forall fuel rest,
    parse_fuel (S fuel) (String "^" rest)
    = if starts_with_quantifier rest then None
      else option_map (cons IBol) (parse_fuel fuel rest).
Proof. reflexivity. Qed.

(** [patternToRegex] always compiles, and to the anchored matcher of
    the glob. *)
Lemma patternToRegex_is_glob :
  forall p, patternToRegex p = Some (glob_regex p).
Proof.
  intros p. unfold patternToRegex, RegExp, glob_regex.
  rewrite replaced_pattern.
  change ("^" ++ expand_all p ++ "$")%string with (String "^" (expand_all p ++ "$")).
  rewrite parse_anchor.
  rewrite expand_all_head by reflexivity.
  rewrite parse_expanded by (simpl; lia). reflexivity.
Qed.

Lemma search_anchored_later :
  forall r s, search (IBol :: r) s false = false.
Proof.
  intros r s. induction s as [|c s IH]; simpl; [reflexivity | exact IH].
Qed.

Lemma literal_match :
  forall p k at_start,
    no_meta p = true ->
    match_here (List.map glob_item (list_ascii_of_string p) ++ [IEol]) k at_start
    = (p =? k)%string.
Proof.
  induction p as [|c r IH]; intros k at_start Hp.
  - destruct k; reflexivity.
  - unfold no_meta in Hp. simpl in Hp. apply andb_true_iff in Hp.
    destruct Hp as [Hc Hr]. apply negb_true_iff in Hc.
    unfold glob_meta in Hc. apply orb_false_iff in Hc. destruct Hc as [Hc Hq].
    apply orb_false_iff in Hc. destruct Hc as [_ Hs].
    simpl. unfold glob_item at 1. rewrite Hs, Hq.
    destruct k as [|d k']; [reflexivity|].
    simpl. rewrite (@IH k' false Hr).
    destruct (Ascii.eqb c d); reflexivity.
Qed.

(** A pattern without metacharacters, compiled by [patternToRegex],
    matches the equal key and no other. *)
Lemma literal_pattern_is_exact :
  forall p k,
    no_meta p = true ->
    option_map (fun re => test re k) (patternToRegex p) = Some (p =? k)%string.
Proof.
  intros p k Hp. rewrite patternToRegex_is_glob. simpl. f_equal.
  unfold test, glob_regex.
  destruct k as [|d k'].
  - simpl. rewrite (@literal_match p "" true Hp). apply orb_false_r.
  - simpl search. rewrite search_anchored_later, orb_false_r.
    simpl. apply (@literal_match p (String d k') true Hp).
Qed.
End PatternFacts.

(** C5.  [keys] of the exported store hands the pattern to [RegExp] with
    only [*] and [?] rewritten, neither escaped nor anchored, so the
    pattern [a] selects the key [ab]; [patternToRegex] of the memtable,
    on the same data, selects nothing, and compiles every pattern to the
    anchored matcher of the glob. *)
Theorem exported_keys_match_substrings :
  option_map fst
    (SimpleStorage.keys (SimpleStorage.set SimpleStorage.new "ab" (JStr "1") None 1)
       (Some "a") 2) = Some ["ab"] /\
  @Memtable.keys
    (snd (@Memtable.set ExampleHost.host (Memtable.new 64) "ab" (JStr "1") None 1))
    (Some "a") 2 = Some [] /\
  (forall p, Regex.patternToRegex p = Some (Regex.glob_regex p)).
Proof.
  split; [|split].
  - vm_compute. reflexivity.
  - vm_compute. reflexivity.
  - exact PatternFacts.patternToRegex_is_glob.
Qed.

(* ================================================================== *)
(** * Further properties of the code *)

(** ** The Bloom filter: hashes, empty filter, monotonicity *)

Lemma toInt32_range : forall z, - 2 ^ 31 <= toInt32 z < 2 ^ 31.
Proof.
  intros z. unfold toInt32.
  pose proof (Z.mod_pos_bound (z + 2 ^ 31) (2 ^ 32) ltac:(lia)). lia.
Qed.

Lemma hash_loop_range :
  forall str h, - 2 ^ 31 <= h < 2 ^ 31 ->
                - 2 ^ 31 <= BloomFilter.hash_loop h str < 2 ^ 31.
Proof.
  induction str as [|c r IH]; intros h Hh; simpl; [exact Hh|].
  apply IH. apply toInt32_range.
Qed.

Lemma hash_range : forall str, 0 <= BloomFilter.hash str <= 2 ^ 31.
Proof.
  intros str. unfold BloomFilter.hash.
  pose proof (@hash_loop_range str 0 ltac:(lia)). lia.
Qed.

(** X1.  The string hash is a non-negative number of at most 2^31, and each of
    the probe values of [getHashes] lies between 0 and 2^31 times the
    number of hash functions. *)
Theorem bloom_hashes_are_bounded :
  forall (f : BloomFilter.t) (key : string),
    0 <= BloomFilter.hash key <= 2 ^ 31 /\
    List.Forall (fun h => 0 <= h <= 2 ^ 31 * Z.of_nat (BloomFilter.numHashes f))
                (BloomFilter.getHashes f key).
Proof.
  intros f key. split; [apply hash_range|].
  apply List.Forall_forall. intros h Hin. unfold BloomFilter.getHashes in Hin.
  apply in_map_iff in Hin. destruct Hin as [i [<- Hi]]. apply in_seq in Hi.
  pose proof (hash_range key). pose proof (hash_range (key ++ "salt")).
  rewrite Z.abs_eq by nia. nia.
Qed.

Lemma get_bit_true_nonneg :
  forall bs i, BloomFilter.get_bit bs (Some i) = true -> 0 <= i.
Proof.
  intros bs i Hg. unfold BloomFilter.get_bit in Hg.
  destruct (i <? 0)%Z eqn:E; [|apply Z.ltb_ge in E; exact E].
  rewrite Z.land_0_l in Hg. discriminate Hg.
Qed.

Lemma set_bits_keeps_get_bit :
  forall f hs bs ix,
    BloomFilter.get_bit bs ix = true ->
    BloomFilter.get_bit (BloomSpec.set_bits f bs hs) ix = true.
Proof.
  intros f hs bs [i|] Hg; [|discriminate Hg].
  pose proof (get_bit_true_nonneg _ _ Hg) as Hi.
  apply BloomFacts.get_bit_on; [exact Hi|].
  apply BloomFacts.set_bits_keeps; [exact Hi|].
  now apply BloomFacts.get_bit_on.
Qed.

(** X2.  [add] never clears a bit: a key that [contains] accepts is still
    accepted after any other key has been added, in every filter,
    whatever its size. *)
Theorem bloom_add_keeps_members :
  forall (f : BloomFilter.t) (added key : string),
    BloomFilter.contains f key = true ->
    BloomFilter.contains (BloomFilter.add f added) key = true.
Proof.
  intros f added key Hc. unfold BloomFilter.contains in *.
  apply List.forallb_forall. intros h Hin.
  assert (Hh : In h (BloomFilter.getHashes f key)) by exact Hin.
  pose proof (proj1 (List.forallb_forall _ _) Hc h Hh) as Hg.
  change (BloomFilter.get_bit
            (BloomSpec.set_bits f (BloomFilter.bits f) (BloomFilter.getHashes f added))
            (BloomFilter.index_of f h) = true).
  now apply set_bits_keeps_get_bit.
Qed.

Lemma bloom_add_keeps_members_witness :
  option_map
    (fun f => BloomFilter.contains
                (BloomFilter.add (BloomFilter.add f "user:1") "user:2") "user:1")
    (BloomFilter.new 20 3) = Some true.
Proof.
  destruct (BloomFilter.new 20 3) as [f|] eqn:E; [|discriminate E].
  simpl. f_equal.
  apply bloom_add_keeps_members.
  injection E as <-. vm_compute. reflexivity.
Defined.

Lemma nth_repeat_zero : forall n i, List.nth i (List.repeat 0 n) 0 = 0.
Proof.
  induction n as [|n IH]; intros [|i]; simpl; auto.
Qed.

(** X3.  A filter fresh from the constructor, with a positive size and at
    least one hash function, accepts no key. *)
Theorem bloom_new_filter_is_empty :
  forall (size : Z) (numHashes : nat) (key : string),
    0 < size ->
    (0 < numHashes)%nat ->
    exists f, BloomFilter.new size numHashes = Some f /\
              BloomFilter.contains f key = false.
Proof.
  intros size numHashes key Hs Hn.
  destruct (BloomFacts.new_well_formed numHashes Hs) as [f [Hnew Hwf]].
  exists f. split; [exact Hnew|].
  unfold BloomFilter.new in Hnew.
  destruct (ceil_div size 8 <? 0)%Z; [discriminate|]. injection Hnew as <-.
  unfold BloomFilter.contains, BloomFilter.getHashes. simpl.
  destruct numHashes as [|n]; [lia|]. simpl.
  unfold BloomFilter.index_of, BloomFilter.get_bit. simpl.
  destruct (size =? 0)%Z; [reflexivity|].
  match goal with |- context [if ?b then 0 else ?x] => destruct b end;
    try rewrite nth_repeat_zero; rewrite Z.land_0_l; reflexivity.
Qed.

Lemma bloom_new_filter_is_empty_witness :
  exists f, BloomFilter.new 20 3 = Some f /\ BloomFilter.contains f "user:1" = false.
Proof.
  apply (@bloom_new_filter_is_empty 20 3 "user:1"); lia.
Defined.

(* ================================================================== *)
(** ** Sorting *)

Section SortOrder.
Variable A : Type.
Variable cmp : A -> A -> Z.
Hypothesis cmp_antisym : forall x y, cmp x y < 0 -> 0 <= cmp y x.

Lemma sort_insert_in_order :
  forall x l, in_order cmp l -> in_order cmp (sort_insert cmp x l).
Proof.
  unfold in_order. intros x l Hs. induction Hs as [|y r Hr IH Hhd]; simpl.
  - repeat constructor.
  - destruct (cmp x y <? 0)%Z eqn:E.
    + apply Z.ltb_lt in E. constructor; [now constructor|].
      constructor. now apply cmp_antisym.
    + apply Z.ltb_ge in E. constructor; [exact IH|].
      destruct r as [|z r']; simpl.
      * constructor. exact E.
      * destruct (cmp x z <? 0)%Z; constructor; [exact E|].
        now inversion Hhd.
Qed.

Lemma array_sort_in_order : forall l, in_order cmp (array_sort cmp l).
Proof.
  intros l. unfold array_sort.
  assert (Hgen : forall acc, in_order cmp acc ->
                   in_order cmp (List.fold_left (fun acc x => sort_insert cmp x acc) l acc)).
  { induction l as [|x r IH]; intros acc Hacc; simpl; [exact Hacc|].
    apply IH. now apply sort_insert_in_order. }
  apply Hgen. constructor.
Qed.
End SortOrder.

(* ================================================================== *)
(** ** The memtable *)

Section MemtableFacts.
Context {H : Host}.

Lemma content_size_set :
  forall (d : Map StorageEntry) k e,
    MemtableSpec.content_size (map_set k e d)
    = MemtableSpec.content_size d
      - match map_get k d with Some old => MemtableSpec.bytes old | None => 0 end
      + MemtableSpec.bytes e.
Proof.
  induction d as [|[k' e'] r IH]; intros k e; simpl; [lia|].
  destruct (k' =? k)%string; simpl; [lia|]. rewrite IH. lia.
Qed.

Lemma content_size_delete_absent :
  forall (d : Map StorageEntry) k,
    ~ In k (map_keys d) -> map_delete k d = d.
Proof.
  induction d as [|[k' e'] r IH]; intros k Hn; simpl in *; [reflexivity|].
  destruct (k' =? k)%string eqn:E; simpl.
  - apply String.eqb_eq in E. tauto.
  - f_equal. apply IH. tauto.
Qed.

Lemma content_size_delete :
  forall (d : Map StorageEntry) k e,
    NoDup (map_keys d) ->
    map_get k d = Some e ->
    MemtableSpec.content_size (map_delete k d)
    = MemtableSpec.content_size d - MemtableSpec.bytes e.
Proof.
  induction d as [|[k' e'] r IH]; intros k e Hnd Hg; simpl in *; [discriminate|].
  inversion Hnd as [|? ? Hnotin Hnd']; subst.
  destruct (k' =? k)%string eqn:E; simpl.
  - injection Hg as ->. apply String.eqb_eq in E. subst k'.
    change (List.filter (fun kv => negb (fst kv =? k)%string) r) with (map_delete k r).
    rewrite content_size_delete_absent by exact Hnotin. lia.
  - change (List.filter (fun kv => negb (fst kv =? k)%string) r) with (map_delete k r).
    erewrite IH by eassumption. lia.
Qed.

Lemma map_delete_NoDup :
  forall (V : Type) (d : Map V) k, NoDup (map_keys d) -> NoDup (map_keys (map_delete k d)).
Proof.
  intros V d k. unfold map_keys, map_delete.
  apply (CompactionFacts.NoDup_map_filter fst).
Qed.

Lemma Memtable_drop_sized :
  forall m k e,
    MemtableSpec.sized m ->
    map_get k (Memtable.data m) = Some e ->
    MemtableSpec.sized
      (Memtable.mk (map_delete k (Memtable.data m))
                   (Memtable.sizeBytes m - MemtableSpec.bytes e)
                   (Memtable.maxSizeBytes m)).
Proof.
  intros m k e (Hnd & Hd & Hs) Hg. split; [|split]; simpl.
  - now apply map_delete_NoDup.
  - now apply defined_values_delete.
  - erewrite content_size_delete by eassumption. lia.
Qed.

Lemma Memtable_step_sized :
  forall m o,
    MemtableSpec.sized m -> MemtableSpec.defined o = true ->
    fst (MemtableSpec.step m o) = false /\
    MemtableSpec.sized (snd (MemtableSpec.step m o)).
Proof.
  intros m o Hm Ho. destruct o as [k v ttl_ms now | k now | k now | k | ]; simpl.
  - simpl in Ho. apply negb_true_iff in Ho.
    pose proof Hm as (Hnd & Hd & Hs).
    rewrite Memtable_set_returns by (try exact Ho; intros old; apply Hd).
    split; [reflexivity|]. split; [|split]; simpl.
    + now apply map_set_NoDup.
    + intros k0 e. simpl. destruct (String.eqb_spec k k0) as [->|Hne].
      * rewrite map_get_set_same. intros [= <-]. exact Ho.
      * rewrite map_get_set_other by exact Hne. apply Hd.
    + rewrite content_size_set.
      destruct (map_get k (Memtable.data m)); lia.
  - unfold Memtable.get.
    destruct (map_get k (Memtable.data m)) as [e|] eqn:G; [|split; [reflexivity | exact Hm]].
    destruct (expired e now); [|split; [reflexivity | exact Hm]].
    rewrite (entrySize_defined e (proj1 (proj2 Hm) k e G)).
    split; [reflexivity | now apply Memtable_drop_sized].
  - unfold Memtable.getEntry.
    destruct (map_get k (Memtable.data m)) as [e|] eqn:G; [|split; [reflexivity | exact Hm]].
    destruct (expired e now); [|split; [reflexivity | exact Hm]].
    rewrite (entrySize_defined e (proj1 (proj2 Hm) k e G)).
    split; [reflexivity | now apply Memtable_drop_sized].
  - unfold Memtable.delete.
    destruct (map_get k (Memtable.data m)) as [e|] eqn:G; [|split; [reflexivity | exact Hm]].
    rewrite (entrySize_defined e (proj1 (proj2 Hm) k e G)).
    split; [reflexivity | now apply Memtable_drop_sized].
  - split; [reflexivity|]. split; [|split]; simpl;
      [constructor | intros k e; simpl; discriminate | reflexivity].
Qed.

Lemma Memtable_run_sized :
  forall ops t m,
    MemtableSpec.sized m -> List.forallb MemtableSpec.defined ops = true ->
    fst (List.fold_left
           (fun acc o =>
              let (t', m') := MemtableSpec.step (snd acc) o in (fst acc || t', m'))
           ops (t, m)) = t /\
    MemtableSpec.sized
      (snd (List.fold_left
              (fun acc o =>
                 let (t', m') := MemtableSpec.step (snd acc) o in (fst acc || t', m'))
              ops (t, m))).
Proof.
  induction ops as [|o r IH]; intros t m Hm Ho; simpl; [split; [reflexivity | exact Hm]|].
  simpl in Ho. apply andb_true_iff in Ho. destruct Ho as [Ho Hr].
  destruct (@Memtable_step_sized m o Hm Ho) as [Ht Hs].
  destruct (MemtableSpec.step m o) as [t' m']. simpl in Ht, Hs. subst t'.
  rewrite orb_false_r. now apply IH.
Qed.
End MemtableFacts.

(** X4.  In every memtable reached from the constructor by calls of [set],
    [get], [getEntry], [delete] and [clear], none of which hands
    [undefined] to [set], no call has thrown, no key is stored twice and
    [sizeBytes] is the sum of the sizes of the stored entries. *)
Theorem memtable_size_is_sum_of_entries :
  forall (H : Host) (maxSizeMB : Z) (ops : list MemtableSpec.op),
    List.forallb MemtableSpec.defined ops = true ->
    let r := MemtableSpec.run ops (Memtable.new maxSizeMB) in
    fst r = false /\
    NoDup (map_keys (Memtable.data (snd r))) /\
    Memtable.sizeBytes (snd r) = MemtableSpec.content_size (Memtable.data (snd r)).
Proof.
  intros H maxSizeMB ops Ho r. subst r. unfold MemtableSpec.run.
  assert (Hnew : MemtableSpec.sized (Memtable.new maxSizeMB)).
  { split; [|split]; simpl; [constructor | intros k e; simpl; discriminate | reflexivity]. }
  destruct (@Memtable_run_sized H ops false _ Hnew Ho) as [Ht (Hnd & _ & Hs)].
  split; [exact Ht|]. split; [exact Hnd | exact Hs].
Qed.

Lemma memtable_size_is_sum_of_entries_witness :
  Memtable.sizeBytes
    (snd (@MemtableSpec.run ExampleHost.host
            [MemtableSpec.OpSet "a" (JStr "1") (Some 5) 0;
             MemtableSpec.OpSet "b" (JNum 2) None 1;
             MemtableSpec.OpGet "a" 10;
             MemtableSpec.OpDelete "c"]
            (Memtable.new 64)))
  = 16.
Proof.
  destruct (@memtable_size_is_sum_of_entries ExampleHost.host 64
              [MemtableSpec.OpSet "a" (JStr "1") (Some 5) 0;
               MemtableSpec.OpSet "b" (JNum 2) None 1;
               MemtableSpec.OpGet "a" 10;
               MemtableSpec.OpDelete "c"]
              ltac:(reflexivity)) as (_ & _ & Hs).
  rewrite Hs. reflexivity.
Defined.

Section MemtableReads.
Context {H : Host}.

Lemma newEntry_live :
  forall old k v ttl_ms now now',
    (forall n, ttl_ms = Some n -> now' <= now + n) ->
    expired (Memtable.newEntry old k v ttl_ms now) now' = false.
Proof.
  intros old k v ttl_ms now now' Hlive. unfold expired, Memtable.newEntry. simpl.
  destruct ttl_ms as [n|]; [|reflexivity]. simpl.
  destruct (n =? 0)%Z; simpl; [reflexivity|].
  specialize (Hlive n eq_refl).
  apply andb_false_iff. right. apply Z.ltb_ge. lia.
Qed.

(** The map after [set] over no entry, or over one that is not
    [undefined]. *)
Lemma Memtable_set_data :
  forall m k v ttl_ms now,
    (forall old, map_get k (Memtable.data m) = Some old ->
                 is_undefined (value old) = false) ->
    Memtable.data (snd (Memtable.set m k v ttl_ms now))
    = map_set k (Memtable.newEntry (map_get k (Memtable.data m)) k v ttl_ms now)
        (Memtable.data m) /\
    fst (Memtable.set m k v ttl_ms now)
    = (if is_undefined v then Threw SerializationError else Completed tt).
Proof.
  intros m k v ttl_ms now Hold. unfold Memtable.set.
  assert (Hfirst : match map_get k (Memtable.data m) with
                   | Some e => Memtable.entrySize e
                   | None => Completed 0
                   end
                   = Completed match map_get k (Memtable.data m) with
                               | Some e => MemtableSpec.bytes e
                               | None => 0
                               end).
  { destruct (map_get k (Memtable.data m)) as [old|]; [|reflexivity].
    now apply entrySize_defined, Hold. }
  rewrite Hfirst.
  destruct (is_undefined v) eqn:Hv.
  - rewrite entrySize_undefined by exact Hv. split; reflexivity.
  - rewrite entrySize_defined by exact Hv. split; reflexivity.
Qed.
End MemtableReads.

(** X5.  Read your write in the memtable.  When the entry that [set]
    replaces, if there is one, does not hold [undefined], [set] returns
    unless the value is [undefined], where it throws a
    [SerializationError]; either way the entry is in the map, and [get]
    of the key returns the value written and changes nothing, as long as
    the time of the read is not after [now + ttl]; and what [get] does
    for any other key is what it did before the write. *)
Theorem memtable_get_returns_last_set :
  forall (H : Host) (m : Memtable.t) (k : string) (v : jsval) (ttl_ms : option Z)
         (now now' : Z),
    (forall old, map_get k (Memtable.data m) = Some old ->
                 is_undefined (value old) = false) ->
    (forall n, ttl_ms = Some n -> now' <= now + n) ->
    let r := Memtable.set m k v ttl_ms now in
    fst r = (if is_undefined v then Threw SerializationError else Completed tt) /\
    Memtable.get (snd r) k now' = (Completed v, snd r) /\
    forall k', k' <> k ->
      fst (Memtable.get (snd r) k' now') = fst (Memtable.get m k' now').
Proof.
  intros H m k v ttl_ms now now' Hold Hlive r. subst r.
  destruct (@Memtable_set_data H m k v ttl_ms now Hold) as [Hdata Hfst].
  split; [exact Hfst|]. split.
  - rewrite (@Memtable_get_live H (snd (Memtable.set m k v ttl_ms now)) k
               (Memtable.newEntry (map_get k (Memtable.data m)) k v ttl_ms now) now').
    + reflexivity.
    + rewrite Hdata. apply map_get_set_same.
    + now apply newEntry_live.
  - intros k' Hne. unfold Memtable.get. rewrite Hdata.
    rewrite map_get_set_other by congruence.
    destruct (map_get k' (Memtable.data m)) as [e|]; [|reflexivity].
    destruct (expired e now'); [|reflexivity].
    destruct (Memtable.entrySize e); reflexivity.
Qed.

Lemma memtable_get_returns_last_set_witness :
  fst (@Memtable.get ExampleHost.host
         (snd (@Memtable.set ExampleHost.host (Memtable.new 64) "k" (JStr "v")
                 (Some 100) 1000))
         "k" 1100)
  = Completed (JStr "v").
Proof.
  destruct (@memtable_get_returns_last_set ExampleHost.host (Memtable.new 64)
              "k" (JStr "v") (Some 100) 1000 1100) as (_ & Hget & _).
  - intros old. simpl. discriminate.
  - intros n Hn. injection Hn as <-. lia.
  - rewrite Hget. reflexivity.
Defined.

(** X6.  Lazy expiry in the memtable: a [get] after the expiry instant of
    the entry removes the entry from the map; it returns [null] and takes
    the size of the entry off [sizeBytes], unless the entry holds
    [undefined], where it throws a [SerializationError] and leaves
    [sizeBytes] as it is.  The next [get] finds nothing, at any time. *)
Theorem memtable_get_drops_expired_entry :
  forall (H : Host) (m : Memtable.t) (k : string) (e : StorageEntry) (t now later : Z),
    map_get k (Memtable.data m) = Some e ->
    ttl e = Some t ->
    t <> 0 ->
    t < now ->
    let m' := snd (Memtable.get m k now) in
    fst (Memtable.get m k now)
    = (if is_undefined (value e) then Threw SerializationError else Completed JNull) /\
    map_get k (Memtable.data m') = None /\
    Memtable.sizeBytes m'
    = (if is_undefined (value e) then Memtable.sizeBytes m
       else Memtable.sizeBytes m - MemtableSpec.bytes e) /\
    Memtable.get m' k later = (Completed JNull, m').
Proof.
  intros H m k e t now later Hg Ht Hnz Hlt m'. subst m'.
  assert (Hexp : expired e now = true).
  { unfold expired. rewrite Ht. apply andb_true_iff. split.
    - apply negb_true_iff. now apply Z.eqb_neq.
    - now apply Z.ltb_lt. }
  rewrite (@Memtable_get_expired H m k e now Hg Hexp). cbn [fst snd].
  split; [reflexivity|]. split; [apply map_get_delete_same|]. split; [reflexivity|].
  apply Memtable_get_absent. simpl. apply map_get_delete_same.
Qed.

Lemma memtable_get_drops_expired_entry_witness :
  fst (@Memtable.get ExampleHost.host
         (snd (@Memtable.set ExampleHost.host (Memtable.new 64) "k" (JStr "v")
                 (Some 100) 1000))
         "k" 1101) = Completed JNull.
Proof.
  refine (proj1 (@memtable_get_drops_expired_entry ExampleHost.host
                   (snd (@Memtable.set ExampleHost.host (Memtable.new 64) "k" (JStr "v")
                           (Some 100) 1000))
                   "k" (mkEntry "k" (JStr "v") 1000 (Some 1100) (Some 1))
                   1100 1101 1200 _ _ _ _)).
  - reflexivity.
  - reflexivity.
  - discriminate.
  - lia.
Defined.

Lemma Memtable_keys_spec :
  forall (m : Memtable.t) (pattern : option string) (now : Z),
    Memtable.keys m pattern now
    = Some (List.map key
              (List.filter
                 (fun e => negb (expired e now) && negb (is_null (value e))
                           && MemtableSpec.selects pattern (key e))
                 (map_values (Memtable.data m)))).
Proof.
  intros m pattern now. unfold Memtable.keys, MemtableSpec.selects.
  destruct pattern as [p|]; [|reflexivity].
  unfold truthy_str. destruct (p =? "")%string; simpl; [reflexivity|].
  rewrite PatternFacts.patternToRegex_is_glob. reflexivity.
Qed.

(** X7.  [keys] of the memtable never fails, and it returns the key of an
    entry exactly when the entry has not expired, is no tombstone, and
    its key is selected by the pattern, read as an anchored glob. *)
Theorem memtable_keys_are_the_live_matches :
  forall (m : Memtable.t) (pattern : option string) (now : Z),
    Memtable.keys m pattern now
    = Some (List.map key
              (List.filter
                 (fun e => negb (expired e now) && negb (is_null (value e))
                           && MemtableSpec.selects pattern (key e))
                 (map_values (Memtable.data m)))).
Proof. exact Memtable_keys_spec. Qed.

(** X8.  [getAllEntries] returns the entries that have not expired, tombstones
    included, each once; when the collation never puts two keys each
    strictly before the other, the result is in the order of the
    collation. *)
Theorem memtable_getAllEntries_sorted_live_entries :
  forall (H : Host) (m : Memtable.t) (now : Z),
    Permutation (Memtable.getAllEntries m now)
                (List.filter (fun e => negb (expired e now))
                             (map_values (Memtable.data m))) /\
    ((forall a b, localeCompare a b < 0 -> 0 <= localeCompare b a) ->
     in_order compare_keys (Memtable.getAllEntries m now)).
Proof.
  intros H m now. split.
  - apply array_sort_perm.
  - intros Hanti. apply array_sort_in_order.
    intros x y. apply Hanti.
Qed.

Lemma example_collation_antisym :
  forall a b, @localeCompare ExampleHost.host a b < 0 ->
              0 <= @localeCompare ExampleHost.host b a.
Proof.
  intros a b. simpl. rewrite (String.compare_antisym a b).
  destruct (String.compare b a); simpl; lia.
Qed.

Lemma memtable_getAllEntries_sorted_live_entries_witness :
  in_order (@compare_keys ExampleHost.host)
    (@Memtable.getAllEntries ExampleHost.host
       (snd (@Memtable.set ExampleHost.host
               (snd (@Memtable.set ExampleHost.host (Memtable.new 64) "b" (JStr "2")
                       None 1))
               "a" (JStr "1") None 2))
       3).
Proof.
  apply (proj2 (@memtable_getAllEntries_sorted_live_entries ExampleHost.host
                  (snd (@Memtable.set ExampleHost.host
                          (snd (@Memtable.set ExampleHost.host (Memtable.new 64) "b"
                                  (JStr "2") None 1))
                          "a" (JStr "1") None 2))
                  3)).
  exact example_collation_antisym.
Defined.

(* ================================================================== *)
(** ** Runs: binary search and lookup *)

Lemma str_lt_irrefl : forall a, str_lt a a = false.
Proof.
  intros a. unfold str_lt, String.ltb.
  pose proof (String.compare_antisym a a) as Ha.
  destruct (String.compare a a); simpl in Ha; congruence.
Qed.

Lemma str_lt_asym : forall a b, str_lt a b = true -> str_lt b a = false.
Proof.
  intros a b. unfold str_lt, String.ltb. rewrite (String.compare_antisym a b).
  destruct (String.compare b a); simpl; congruence.
Qed.

Lemma ascending_nth :
  forall es i j a b,
    ascending es -> (i < j)%nat ->
    List.nth_error es i = Some a -> List.nth_error es j = Some b ->
    str_lt (key a) (key b) = true.
Proof.
  unfold ascending. intros es i j a b Hs. revert i j.
  induction Hs as [|x r Hr IH Hall]; intros i j Hij Hi Hj.
  - destruct i; discriminate.
  - destruct j as [|j]; [lia|]. simpl in Hj.
    destruct i as [|i]; simpl in Hi.
    + injection Hi as ->.
      apply List.nth_error_In in Hj.
      exact (proj1 (List.Forall_forall _ _) Hall b Hj).
    + apply (IH i j); [lia | exact Hi | exact Hj].
Qed.

Section SearchFacts.
Context {H : Host}.

Lemma binarySearch_loop_sound :
  forall fuel es k left right e,
    SSTable.binarySearch_loop fuel es k left right = Some (Some e) ->
    In e es /\ key e = k.
Proof.
  induction fuel as [|fuel IH]; intros es k left right e Hr; [discriminate|].
  simpl in Hr. destruct (left <=? right)%Z; [|discriminate].
  destruct (List.nth_error es (Z.to_nat ((left + right) / 2))) as [m|] eqn:N;
    [|discriminate].
  destruct (key m =? k)%string eqn:E.
  - injection Hr as <-. split; [now apply List.nth_error_In in N|].
    now apply String.eqb_eq.
  - destruct (str_lt (key m) k); now apply IH in Hr.
Qed.

Lemma binarySearch_loop_total :
  forall fuel es k left right,
    Z.max 0 (right - left + 1) < Z.of_nat fuel ->
    exists r, SSTable.binarySearch_loop fuel es k left right = Some r.
Proof.
  induction fuel as [|fuel IH]; intros es k left right Hf; simpl.
  - lia.
  - destruct (left <=? right)%Z eqn:L; [|now eexists].
    apply Z.leb_le in L.
    destruct (List.nth_error es (Z.to_nat ((left + right) / 2))) as [m|];
      [|now eexists].
    destruct (key m =? k)%string; [now eexists|].
    pose proof (Z.div_mod (left + right) 2 ltac:(lia)) as Hdm.
    pose proof (Z.mod_pos_bound (left + right) 2 ltac:(lia)) as Hb.
    destruct (str_lt (key m) k); apply IH; lia.
Qed.

Lemma binarySearch_loop_complete :
  forall fuel es e i left right,
    ascending es ->
    List.nth_error es i = Some e ->
    0 <= left -> left <= Z.of_nat i <= right ->
    right < Z.of_nat (List.length es) ->
    right - left + 1 < Z.of_nat fuel ->
    SSTable.binarySearch_loop fuel es (key e) left right = Some (Some e).
Proof.
  induction fuel as [|fuel IH]; intros es e i left right Hs Hi Hl Hin Hr Hf; [lia|].
  simpl. destruct (left <=? right)%Z eqn:L; [|apply Z.leb_gt in L; lia].
  pose proof (Z.div_mod (left + right) 2 ltac:(lia)) as Hdm.
  pose proof (Z.mod_pos_bound (left + right) 2 ltac:(lia)) as Hb.
  set (mid := (left + right) / 2) in *.
  assert (Hmid : left <= mid <= right) by lia.
  destruct (List.nth_error es (Z.to_nat mid)) as [m|] eqn:N.
  2:{ apply List.nth_error_None in N. lia. }
  destruct (Nat.lt_trichotomy (Z.to_nat mid) i) as [Hlt | [Heq | Hgt]].
  - pose proof (ascending_nth Hs Hlt N Hi) as Hlt'.
    destruct (key m =? key e)%string eqn:E.
    + apply String.eqb_eq in E. rewrite E, str_lt_irrefl in Hlt'. discriminate.
    + rewrite Hlt'. apply (IH es e i); auto; lia.
  - subst i. rewrite N in Hi. injection Hi as ->.
    now rewrite String.eqb_refl.
  - pose proof (ascending_nth Hs Hgt Hi N) as Hgt'.
    destruct (key m =? key e)%string eqn:E.
    + apply String.eqb_eq in E. rewrite E, str_lt_irrefl in Hgt'. discriminate.
    + rewrite (str_lt_asym _ _ Hgt'). apply (IH es e i); auto; lia.
Qed.

Lemma binarySearch_finds :
  forall index level es enableBloomFilter now0 e,
    ascending es -> In e es ->
    SSTable.binarySearch (SSTable.new index level es enableBloomFilter now0) (key e)
    = Some e.
Proof.
  intros index level es enableBloomFilter now0 e Hs Hin.
  apply List.In_nth_error in Hin. destruct Hin as [i Hi].
  unfold SSTable.binarySearch, SSTable.new. cbn [SSTable.entries].
  assert (Hlen : (i < List.length es)%nat).
  { apply List.nth_error_Some. congruence. }
  rewrite (@binarySearch_loop_complete (S (List.length es)) es e i 0
             (Z.of_nat (List.length es) - 1)); auto; lia.
Qed.

Lemma binarySearch_misses :
  forall s k,
    (forall e, In e (SSTable.entries s) -> key e <> k) ->
    SSTable.binarySearch s k = None.
Proof.
  intros s k Habs. unfold SSTable.binarySearch.
  destruct (SSTable.binarySearch_loop _ _ _ _ _) as [[e|]|] eqn:R; try reflexivity.
  apply binarySearch_loop_sound in R. destruct R as [Hin Hk].
  exfalso. exact (Habs e Hin Hk).
Qed.
End SearchFacts.

(** X9.  Lookup in a run: in a run that the constructor builds over entries
    in strictly ascending key order, with or without a filter, [get] of
    the key of one of its entries returns that entry's value ([null]
    for a tombstone), or [undefined] once the entry has expired. *)
Theorem sstable_get_finds_its_entries :
  forall (H : Host) (index level : Z) (es : list StorageEntry)
         (enableBloomFilter : bool) (now0 now : Z) (e : StorageEntry),
    ascending es ->
    In e es ->
    SSTable.get (SSTable.new index level es enableBloomFilter now0) (key e) now
    = if expired e now then JUndefined else value e.
Proof.
  intros H index level es enableBloomFilter now0 now e Hs Hin.
  unfold SSTable.get.
  rewrite binarySearch_finds by assumption.
  pose proof (@run_filter_accepts_its_keys H enableBloomFilter es e Hin) as Hb.
  simpl. destruct (SSTable.buildBloom enableBloomFilter es) as [f|]; [|reflexivity].
  rewrite Hb. reflexivity.
Qed.

Lemma sstable_get_finds_its_entries_witness :
  @SSTable.get ExampleHost.host
    (@SSTable.new ExampleHost.host 0 0
       [mkEntry "a" (JStr "1") 1 None (Some 1); mkEntry "b" JNull 2 None (Some 1);
        mkEntry "c" (JStr "3") 3 (Some 50) (Some 1)] true 5)
    "b" 10 = JNull.
Proof.
  apply (@sstable_get_finds_its_entries ExampleHost.host 0 0
           [mkEntry "a" (JStr "1") 1 None (Some 1); mkEntry "b" JNull 2 None (Some 1);
            mkEntry "c" (JStr "3") 3 (Some 50) (Some 1)] true 5 10
           (mkEntry "b" JNull 2 None (Some 1))).
  - unfold ascending. repeat constructor.
  - simpl. tauto.
Defined.

(** X10.  The search of a run always ends within its loop, and [get] of a key
    that no entry of the run has returns [undefined], whatever the
    order of the entries and whatever the filter says. *)
Theorem sstable_get_misses_absent_keys :
  forall (H : Host) (s : SSTable.t) (k : string) (now : Z),
    (exists r,
        SSTable.binarySearch_loop (S (List.length (SSTable.entries s)))
          (SSTable.entries s) k 0 (Z.of_nat (List.length (SSTable.entries s)) - 1)
        = Some r) /\
    ((forall e, In e (SSTable.entries s) -> key e <> k) ->
     SSTable.get s k now = JUndefined).
Proof.
  intros H s k now. split.
  - apply binarySearch_loop_total. lia.
  - intros Habs. unfold SSTable.get. rewrite binarySearch_misses by exact Habs.
    destruct (SSTable.bloomFilter s) as [f|]; [|reflexivity].
    destruct (BloomFilter.contains f (serialize k)); reflexivity.
Qed.

Lemma sstable_get_misses_absent_keys_witness :
  @SSTable.get ExampleHost.host live_run "zzz" 10 = JUndefined.
Proof.
  apply (proj2 (@sstable_get_misses_absent_keys ExampleHost.host live_run "zzz" 10)).
  intros e Hin. simpl in Hin. destruct Hin as [<- | []]. discriminate.
Defined.

(* ================================================================== *)
(** ** Compaction: what the merges keep *)

Lemma filter_perm :
  forall (A : Type) (p : A -> bool) (l l' : list A),
    Permutation l l' -> Permutation (List.filter p l) (List.filter p l').
Proof.
  intros A p l l' Hp. induction Hp as [|x l l' Hp IH|x y l|l l' l'' H1 IH1 H2 IH2]; simpl.
  - constructor.
  - destruct (p x); [now constructor | exact IH].
  - destruct (p x), (p y); try reflexivity. apply perm_swap.
  - now transitivity (List.filter p l').
Qed.

Module MergeFacts.
Import CompactionEngine CompactionSpec.

Lemma find_min_none :
  forall its i, find_min its i None = None -> List.concat its = [].
Proof.
  induction its as [|it r IH]; intros i Hf; simpl in *; [reflexivity|].
  destruct it as [|e tl].
  - now apply IH in Hf.
  - exfalso. clear IH. revert Hf. generalize (S i). generalize (i, e).
    induction r as [|it' r' IHr]; intros p n Hf; simpl in Hf; [discriminate|].
    destruct it' as [|e' tl']; [now apply IHr in Hf|].
    destruct p as [pi pm]. destruct (str_lt (key e') (key pm)); now apply IHr in Hf.
Qed.

Lemma advance_perm :
  forall its i e rest,
    List.nth_error its i = Some (e :: rest) ->
    Permutation (List.concat its) (e :: List.concat (advance its i)).
Proof.
  induction its as [|it r IH]; intros [|i] e rest Hn; simpl in *; try discriminate.
  - injection Hn as ->. reflexivity.
  - rewrite (IH _ _ _ Hn). symmetry. apply Permutation_middle.
Qed.

Lemma merge_loop_perm :
  forall fuel now its merged result,
    merge_loop fuel now its merged = Some result ->
    Permutation result (merged ++ List.filter (valid now) (List.concat its)).
Proof.
  induction fuel as [|fuel IH]; intros now its merged result Hm; [discriminate|].
  simpl in Hm.
  destruct (find_min its 0 None) as [[i m]|] eqn:F.
  - destruct (CompactionFacts.find_min_spec _ _ _ F) as [Hb | [_ [rest Hn]]];
      [discriminate|].
    rewrite Nat.sub_0_r in Hn.
    pose proof (filter_perm (valid now) (advance_perm _ _ Hn)) as Hp.
    cbn [List.filter] in Hp.
    assert (Hvm : valid now m = negb (is_null (value m) || expired m now)).
    { unfold valid. now rewrite negb_orb. }
    rewrite Hvm in Hp.
    destruct (is_null (value m) || expired m now) eqn:E; simpl in Hp;
      apply IH in Hm; rewrite Hp, Hm.
    + reflexivity.
    + now rewrite <- List.app_assoc.
  - injection Hm as <-. rewrite (find_min_none _ _ F). simpl. now rewrite List.app_nil_r.
Qed.

Lemma latest_after_kept :
  forall k e after,
    (forall e', In e' after -> key e' = k -> timestamp e' <= timestamp e) ->
    latest_for k after (Some e) = Some e.
Proof.
  unfold latest_for. intros k e after. induction after as [|x r IH]; intros Hle;
    simpl; [reflexivity|].
  destruct (key x =? k)%string eqn:E.
  - apply String.eqb_eq in E. simpl.
    pose proof (Hle x (or_introl eq_refl) E) as Hx.
    destruct (timestamp e <? timestamp x)%Z eqn:T; [apply Z.ltb_lt in T; lia|].
    apply IH. intros e' Hin. apply Hle. now right.
  - apply IH. intros e' Hin. apply Hle. now right.
Qed.

Lemma latest_of_first_newest :
  forall e before after,
    (forall e', In e' before -> key e' = key e -> timestamp e' < timestamp e) ->
    (forall e', In e' after -> key e' = key e -> timestamp e' <= timestamp e) ->
    latest_for (key e) (before ++ e :: after) None = Some e.
Proof.
  intros e before after Hb Ha.
  pose proof (CompactionFacts.latest_for_spec (key e) before) as Hspec.
  unfold latest_for in *. rewrite List.fold_left_app. simpl.
  rewrite String.eqb_refl.
  destruct (List.fold_left _ before None) as [c|]; simpl.
  - destruct Hspec as [Hk [_ [b1 [b2 [Hdec _]]]]].
    assert (Hin : In c before) by (rewrite Hdec; apply List.in_elt).
    pose proof (Hb c Hin Hk) as Hlt. apply Z.ltb_lt in Hlt. rewrite Hlt.
    now apply latest_after_kept.
  - now apply latest_after_kept.
Qed.

Lemma map_set_length :
  forall (V : Type) (m : Map V) k v,
    (List.length (map_set k v m) <= S (List.length m))%nat.
Proof.
  induction m as [|[k' v'] r IH]; intros k v; simpl; [lia|].
  destruct (k' =? k)%string; simpl; [lia|]. specialize (IH k v). lia.
Qed.

Lemma fold_keep_latest_length :
  forall l m,
    (List.length (List.fold_left keep_latest l m) <= List.length m + List.length l)%nat.
Proof.
  induction l as [|e r IH]; intros m; simpl; [lia|].
  specialize (IH (keep_latest m e)).
  assert (List.length (keep_latest m e) <= S (List.length m))%nat.
  { unfold keep_latest. destruct (map_get (key e) m) as [c|].
    - destruct (timestamp c <? timestamp e)%Z; [apply map_set_length | lia].
    - apply map_set_length. }
  lia.
Qed.

Lemma sum_entries_consistent :
  forall ts,
    (forall s, In s ts ->
               SSTable.meta_entries (SSTable.metadata s)
               = Z.of_nat (List.length (SSTable.entries s))) ->
    sum_entries ts = Z.of_nat (List.length (all_entries ts)).
Proof.
  intros ts Hc. unfold sum_entries, all_entries.
  assert (Hgen : forall acc,
             List.fold_left
               (fun sum s => sum + SSTable.meta_entries (SSTable.metadata s)) ts acc
             = acc + Z.of_nat (List.length (List.concat (List.map SSTable.entries ts)))).
  { induction ts as [|s r IH]; intros acc; simpl; [lia|].
    rewrite IH by (intros s' Hs'; apply Hc; now right).
    rewrite (Hc s (or_introl eq_refl)), List.length_app. lia. }
  rewrite Hgen. lia.
Qed.
End MergeFacts.

Lemma mergeSSTables_returns :
  forall (ts : list SSTable.t) (now : Z),
    exists merged,
      CompactionEngine.mergeSSTables ts now = Some merged /\
      Permutation merged
        (List.filter (CompactionEngine.valid now) (CompactionEngine.all_entries ts)).
Proof.
  intros ts now. unfold CompactionEngine.mergeSSTables.
  destruct (@CompactionFacts.merge_loop_total
              (S (CompactionEngine.total_length (List.map SSTable.entries ts)))
              now (List.map SSTable.entries ts) [] (Nat.lt_succ_diag_r _))
    as [merged Hm].
  exists merged. split; [exact Hm|].
  apply (MergeFacts.merge_loop_perm _ _ _ _ Hm).
Qed.

(** X11.  [mergeSSTables] always returns, and its output holds every entry of
    every input run that is neither a tombstone nor expired, each as
    often as it occurs in the inputs: a key that two of the runs hold
    is not reduced to one entry. *)
Theorem kway_merge_keeps_every_valid_entry :
  forall (ts : list SSTable.t) (now : Z),
    exists merged,
      CompactionEngine.mergeSSTables ts now = Some merged /\
      Permutation merged
        (List.filter (CompactionEngine.valid now) (CompactionEngine.all_entries ts)).
Proof. exact mergeSSTables_returns. Qed.

(** X12.  The output of [mergeSSTablesWithOverlap], entry by entry: an entry is
    kept exactly when it is neither a tombstone nor expired and is the
    first of the newest entries of its key in the input.  So a key whose
    newest entry is a tombstone or has expired has no entry in the
    output, whatever older entries the runs hold for it. *)
Theorem overlap_merge_output_characterised :
  forall (H : Host) (ts : list SSTable.t) (now : Z) (e : StorageEntry),
    In e (CompactionEngine.mergeSSTablesWithOverlap ts now) <->
    (CompactionEngine.valid now e = true /\
     exists before after,
       CompactionEngine.all_entries ts = before ++ e :: after /\
       (forall e', In e' before -> key e' = key e -> timestamp e' < timestamp e) /\
       (forall e', In e' after -> key e' = key e -> timestamp e' <= timestamp e)).
Proof.
  intros H ts now e. split.
  - intros Hin.
    destruct (CompactionFacts.merged_is_latest _ _ _ Hin) as [Hv Hl].
    split; [exact Hv|].
    pose proof (CompactionFacts.latest_for_spec (key e) (CompactionEngine.all_entries ts))
      as Hspec.
    rewrite Hl in Hspec. destruct Hspec as [_ [Hmax [before [after [Hdec Hb]]]]].
    exists before, after. split; [exact Hdec|]. split; [exact Hb|].
    intros e' Hin' Hk. apply Hmax; [|exact Hk].
    rewrite Hdec. apply List.in_or_app. right. now right.
  - intros [Hv [before [after [Hdec [Hb Ha]]]]].
    apply (Permutation_in _ (Permutation_sym (CompactionFacts.merged_perm ts now))).
    apply List.filter_In. split; [|exact Hv].
    pose proof (MergeFacts.latest_of_first_newest e before after Hb Ha) as Hl.
    rewrite <- Hdec in Hl.
    rewrite <- CompactionFacts.fold_keep_latest_get with (m := []) in Hl.
    rewrite <- CompactionFacts.build_keyMap_flat in Hl.
    apply map_get_In in Hl. unfold map_values.
    change e with (snd (key e, e)). now apply in_map.
Qed.

Lemma overlap_merge_length :
  forall (H : Host) (ts : list SSTable.t) (now : Z),
    (List.length (CompactionEngine.mergeSSTablesWithOverlap ts now)
     <= List.length (CompactionEngine.all_entries ts))%nat.
Proof.
  intros H ts now.
  rewrite (Permutation_length (CompactionFacts.merged_perm ts now)).
  etransitivity; [apply List.filter_length_le|].
  unfold map_values. rewrite List.length_map.
  rewrite CompactionFacts.build_keyMap_flat.
  pose proof (MergeFacts.fold_keep_latest_length (CompactionEngine.all_entries ts) []).
  simpl in *. lia.
Qed.

(** X13.  The output of [mergeSSTablesWithOverlap] holds no expired entry and
    no more entries than the inputs; when the collation never puts two
    keys each strictly before the other, it is in the order of the
    collation. *)
Theorem overlap_merge_output_is_live_and_sorted :
  forall (H : Host) (ts : list SSTable.t) (now : Z),
    List.forallb (fun e => negb (expired e now))
                 (CompactionEngine.mergeSSTablesWithOverlap ts now) = true /\
    (List.length (CompactionEngine.mergeSSTablesWithOverlap ts now)
     <= List.length (CompactionEngine.all_entries ts))%nat /\
    ((forall a b, localeCompare a b < 0 -> 0 <= localeCompare b a) ->
     in_order compare_keys (CompactionEngine.mergeSSTablesWithOverlap ts now)).
Proof.
  intros H ts now. split; [|split].
  - apply List.forallb_forall. intros e Hin.
    destruct (CompactionFacts.merged_is_latest _ _ _ Hin) as [Hv _].
    unfold CompactionEngine.valid in Hv. apply andb_true_iff in Hv. tauto.
  - apply overlap_merge_length.
  - intros Hanti. apply array_sort_in_order. intros x y. apply Hanti.
Qed.

Lemma overlap_merge_output_is_live_and_sorted_witness :
  in_order (@compare_keys ExampleHost.host)
    (@CompactionEngine.mergeSSTablesWithOverlap ExampleHost.host
       [tie_run_v1; live_run] 20).
Proof.
  apply (proj2 (proj2 (@overlap_merge_output_is_live_and_sorted ExampleHost.host
                         [tie_run_v1; live_run] 20))).
  exact example_collation_antisym.
Defined.

(* ================================================================== *)
(** ** Compaction: levels and statistics *)

Module CompactorFacts.
Import CompactionEngine Compactor.

Lemma group_add_total :
  forall levels l s, group_total (group_add l s levels) = S (group_total levels).
Proof.
  induction levels as [|[l' g] r IH]; intros l s; simpl; [reflexivity|].
  destruct (l' =? l)%Z; simpl.
  - rewrite List.length_app. simpl. lia.
  - rewrite IH. lia.
Qed.

Lemma groupByLevel_total :
  forall ts, group_total (groupByLevel ts) = List.length ts.
Proof.
  intros ts. unfold groupByLevel.
  assert (Hgen : forall acc,
             group_total (List.fold_left
                            (fun levels s => group_add (SSTable.getLevel s) s levels) ts acc)
             = (group_total acc + List.length ts)%nat).
  { induction ts as [|s r IH]; intros acc; simpl; [lia|].
    rewrite IH, group_add_total. lia. }
  now rewrite Hgen.
Qed.

Section WITH_HOST.
Context {H : Host}.

Lemma array_sort_length :
  forall (A : Type) (cmp : A -> A -> Z) (l : list A),
    List.length (array_sort cmp l) = List.length l.
Proof. intros A cmp l. apply Permutation_length, array_sort_perm. Qed.

Lemma compactHigherLevel_returns :
  forall enableBloomFilter level ts now,
    exists r,
      compactHigherLevel enableBloomFilter level ts now = Some r /\
      (List.length (sstables r) <= List.length ts)%nat /\
      ((2 <= List.length ts)%nat -> (List.length (sstables r) < List.length ts)%nat).
Proof.
  intros enableBloomFilter level ts now. unfold compactHigherLevel.
  destruct (len (List.firstn 4 ts) <=? 1)%Z eqn:E.
  - eexists. split; [reflexivity|]. cbn [sstables]. split; [lia|].
    intros H2. apply Z.leb_le in E. unfold len in E.
    rewrite List.length_firstn in E. lia.
  - destruct (mergeSSTables_returns (List.firstn 4 ts) now)
      as [merged [Hm _]].
    rewrite Hm. eexists. split; [reflexivity|]. cbn [sstables].
    apply Z.leb_gt in E. unfold len in E. rewrite List.length_firstn in E.
    rewrite List.length_app, List.length_skipn. cbn [List.length]. lia.
Qed.

Lemma compactLevel_returns :
  forall enableBloomFilter level ts now,
    (2 <= List.length ts)%nat ->
    exists r,
      compactLevel enableBloomFilter level ts now = Some r /\
      (List.length (sstables r) < List.length ts)%nat.
Proof.
  intros enableBloomFilter level ts now H2. unfold compactLevel.
  destruct (level =? 0)%Z.
  - eexists. split; [reflexivity|]. cbn [sstables compactLevel0 List.length]. lia.
  - destruct (compactHigherLevel_returns enableBloomFilter level
                (array_sort
                   (fun a b => SSTable.createdAt (SSTable.metadata a)
                               - SSTable.createdAt (SSTable.metadata b)) ts) now)
      as [r [Hr [_ Hlt]]].
    exists r. split; [exact Hr|].
    rewrite array_sort_length in Hlt. apply Hlt. exact H2.
Qed.

Lemma compact_levels_returns :
  forall enableBloomFilter levels now newSSTables pushed,
    exists out stats',
      compact_levels enableBloomFilter levels now newSSTables pushed = Some (out, stats') /\
      (List.length out <= List.length newSSTables + group_total levels)%nat.
Proof.
  intros enableBloomFilter levels now.
  induction levels as [|[level tables] rest IH]; intros newSSTables pushed; simpl.
  - eexists _, _. split; [reflexivity|]. lia.
  - destruct (len tables <=? 1)%Z eqn:E.
    + destruct (IH (newSSTables ++ tables) pushed) as [out [st [Hr Hl]]].
      exists out, st. split; [exact Hr|]. rewrite List.length_app in Hl. lia.
    + apply Z.leb_gt in E. unfold len in E.
      destruct (compactLevel_returns enableBloomFilter level tables now ltac:(lia))
        as [r [Hr Hlt]].
      rewrite Hr.
      destruct (IH (newSSTables ++ sstables r) (pushed ++ [stats r])) as [out [st [Ho Hl]]].
      exists out, st. split; [exact Ho|]. rewrite List.length_app in Hl. lia.
Qed.
End WITH_HOST.
End CompactorFacts.

(** X14.  [compact] always returns, never returns more runs than it was given,
    reports the numbers of runs given and returned, and reports 0
    dropped entries in its overall statistics, whatever the merges
    dropped. *)
Theorem compact_never_adds_runs :
  forall (H : Host) (enableBloomFilter : bool) (ts : list SSTable.t) (now : Z),
    exists out,
      Compactor.compact enableBloomFilter ts now = Some out /\
      (List.length (CompactionEngine.sstables (Compactor.result out))
       <= List.length ts)%nat /\
      CompactionEngine.inputFiles (CompactionEngine.stats (Compactor.result out))
      = Z.of_nat (List.length ts) /\
      CompactionEngine.outputFiles (CompactionEngine.stats (Compactor.result out))
      = Z.of_nat (List.length (CompactionEngine.sstables (Compactor.result out))) /\
      CompactionEngine.entriesDropped (CompactionEngine.stats (Compactor.result out)) = 0.
Proof.
  intros H enableBloomFilter ts now. unfold Compactor.compact.
  destruct (CompactorFacts.compact_levels_returns enableBloomFilter
              (Compactor.groupByLevel ts) now [] []) as [out [st [Hr Hl]]].
  rewrite Hr. eexists. split; [reflexivity|]. simpl.
  rewrite CompactorFacts.groupByLevel_total in Hl. simpl in Hl.
  split; [exact Hl|]. repeat split.
Qed.

(** X15.  The statistics of a compaction of level 0, for runs whose metadata
    count their entries (as the constructor makes them): the entries
    counted in are all the entries of the inputs, the entries dropped
    are those that are not in the output run, never a negative number,
    and the output run is at level 1 and counts its own entries. *)
Theorem level0_compaction_statistics :
  forall (H : Host) (enableBloomFilter : bool) (ts : list SSTable.t) (now : Z),
    (forall s, In s ts -> Compactor.counted s) ->
    let r := CompactionEngine.compactLevel0 enableBloomFilter ts now in
    CompactionEngine.entriesCompacted (CompactionEngine.stats r)
    = Z.of_nat (List.length (CompactionEngine.all_entries ts)) /\
    CompactionEngine.entriesDropped (CompactionEngine.stats r)
    = Z.of_nat (List.length (CompactionEngine.all_entries ts))
      - Z.of_nat (List.length (CompactionEngine.mergeSSTablesWithOverlap ts now)) /\
    0 <= CompactionEngine.entriesDropped (CompactionEngine.stats r) /\
    List.Forall (fun s => SSTable.level s = 1 /\ Compactor.counted s /\
                          SSTable.entries s
                          = CompactionEngine.mergeSSTablesWithOverlap ts now)
                (CompactionEngine.sstables r).
Proof.
  intros H enableBloomFilter ts now Hc r. subst r. simpl.
  rewrite (MergeFacts.sum_entries_consistent ts Hc).
  pose proof (overlap_merge_length H ts now) as Hle.
  unfold CompactionEngine.len.
  split; [reflexivity|]. split; [reflexivity|]. split; [lia|].
  repeat constructor.
Qed.

Lemma level0_compaction_statistics_witness :
  CompactionEngine.entriesDropped
    (CompactionEngine.stats
       (@CompactionEngine.compactLevel0 ExampleHost.host false [live_run; tombstone_run] 3))
  = Z.of_nat (List.length (CompactionEngine.all_entries [live_run; tombstone_run]))
    - Z.of_nat (List.length
                  (@CompactionEngine.mergeSSTablesWithOverlap ExampleHost.host
                     [live_run; tombstone_run] 3)).
Proof.
  refine (proj1 (proj2 (@level0_compaction_statistics ExampleHost.host false
                          [live_run; tombstone_run] 3 _))).
  intros s Hin. simpl in Hin. destruct Hin as [<- | [<- | []]]; reflexivity.
Defined.

(* ================================================================== *)
(** ** The engine: writes that throw, counters, [flushall] *)

Section EngineReads.
Context {H : Host}.

Lemma engine_get_after_set :
  forall e k v ttl_ms now now',
    (forall old, map_get k (Memtable.data (StorageEngine.memtable e)) = Some old ->
                 is_undefined (value old) = false) ->
    v <> JNull ->
    (forall n, ttl_ms = Some n -> now' <= now + n) ->
    StorageEngine.get (snd (StorageEngine.set e k v ttl_ms now)) k now'
    = (Completed v, snd (StorageEngine.set e k v ttl_ms now)).
Proof.
  intros e k v ttl_ms now now' Hold Hv Hlive.
  rewrite set_throws. cbn [snd]. unfold StorageEngine.get.
  cbn [StorageEngine.memtable].
  destruct (@Memtable_set_data H (StorageEngine.memtable e) k v ttl_ms now Hold)
    as [Hdata _].
  rewrite (@Memtable_get_live H
             (snd (Memtable.set (StorageEngine.memtable e) k v ttl_ms now)) k
             (Memtable.newEntry (map_get k (Memtable.data (StorageEngine.memtable e)))
                k v ttl_ms now) now').
  - cbn [Memtable.newEntry value].
    unfold StorageEngine.with_memtable. cbn.
    destruct v; try reflexivity. contradiction.
  - rewrite Hdata. apply map_get_set_same.
  - now apply newEntry_live.
Qed.

(** After a [get] that returned something else than [undefined], the
    entry of the key in the memtable, if there is one, does not hold
    [undefined]. *)
Lemma get_leaves_defined_entry :
  forall e k now cur,
    fst (StorageEngine.get e k now) = Completed cur ->
    cur <> JUndefined ->
    forall old,
      map_get k (Memtable.data (StorageEngine.memtable (snd (StorageEngine.get e k now))))
      = Some old ->
      is_undefined (value old) = false.
Proof.
  intros e k now cur Hget Hcur old. rewrite get_state. cbn [StorageEngine.memtable
    StorageEngine.with_memtable].
  revert Hget. unfold StorageEngine.get, Memtable.get.
  destruct (map_get k (Memtable.data (StorageEngine.memtable e))) as [e0|] eqn:G.
  - destruct (expired e0 now).
    + destruct (Memtable.entrySize e0); cbn [fst snd Memtable.data]; intros _;
        rewrite map_get_delete_same; discriminate.
    + cbn [fst snd]. rewrite G.
      destruct (value e0) eqn:Hv0; cbn [negb is_null fst];
        intros [= <-] [= <-]; try rewrite Hv0; try reflexivity.
      contradiction.
  - cbn [fst snd]. rewrite G. discriminate.
Qed.
End EngineReads.

(** X16.  Every [set] of the engine ends in a storage error, after it has
    written.  When the entry that is replaced in the memtable, if there
    is one, does not hold [undefined]: the WAL has one more record (the
    operation name), the runs are as they were, and a [get] of the key,
    not later than [now + ttl], returns the value that the failed [set]
    was given (any value but [null]) and changes nothing. *)
Theorem engine_set_throws_after_writing :
  forall (H : Host) (e : StorageEngine.t) (k : string) (v : jsval)
         (ttl_ms : option Z) (now now' : Z),
    (forall old, map_get k (Memtable.data (StorageEngine.memtable e)) = Some old ->
                 is_undefined (value old) = false) ->
    v <> JNull ->
    (forall n, ttl_ms = Some n -> now' <= now + n) ->
    let r := StorageEngine.set e k v ttl_ms now in
    fst r = Threw StorageError /\
    StorageEngine.wal (snd r) = StorageEngine.wal e ++ [WAL.Tag "SET"] /\
    StorageEngine.sstables (snd r) = StorageEngine.sstables e /\
    StorageEngine.get (snd r) k now' = (Completed v, snd r).
Proof.
  intros H e k v ttl_ms now now' Hold Hv Hlive r. subst r.
  split; [now rewrite set_throws|].
  split; [now rewrite set_throws|].
  split; [now rewrite set_throws|].
  now apply engine_get_after_set.
Qed.

Lemma engine_set_throws_after_writing_witness :
  fst (@StorageEngine.set ExampleHost.host (StorageEngine.new 64 true)
         "k" (JStr "v") (Some 100) 1000)
  = Threw StorageError /\
  fst (@StorageEngine.get ExampleHost.host
         (snd (@StorageEngine.set ExampleHost.host (StorageEngine.new 64 true)
                 "k" (JStr "v") (Some 100) 1000))
         "k" 1100)
  = Completed (JStr "v").
Proof.
  destruct (@engine_set_throws_after_writing ExampleHost.host
              (StorageEngine.new 64 true) "k" (JStr "v") (Some 100) 1000 1100)
    as (Hthrow & _ & _ & Hget).
  - intros old. simpl. discriminate.
  - discriminate.
  - intros n Hn. injection Hn as <-. lia.
  - split; [exact Hthrow | now rewrite Hget].
Defined.

(** X17.  The counter command of the worker: [INCR] reads the key, counts
    from 0 when the value is not a number, adds the amount (1 when none
    or 0 is given) and writes the sum without a ttl; the request is
    answered with the storage error of [StorageEngine.set], but the sum
    is in the memtable, and a later [GET] returns it.  Stated for a
    read that returns something else than [undefined], and for operands
    and a sum that are integers which a number holds exactly. *)
Theorem worker_incr_fails_after_writing :
  forall (H : Host) (e : StorageEngine.t) (k : string) (amount : option Z)
         (now now' : Z) (current : jsval),
    k <> "" ->
    fst (StorageEngine.get e k now) = Completed current ->
    current <> JUndefined ->
    let args := Worker.mkArgs (Some k) None None None amount in
    let sum := Worker.number_or_0 current + Worker.amount_or_1 args in
    isSafeInteger (Worker.number_or_0 current) = true ->
    isSafeInteger (Worker.amount_or_1 args) = true ->
    isSafeInteger sum = true ->
    exists e',
      Worker.executeCommand e "INCR" args now = Some (Worker.Failed STORAGE_ERROR, e') /\
      Worker.executeCommand e' "GET" args now'
      = Some (Worker.Resolved (Worker.RValue (JNum sum)), e').
Proof.
  intros H e k amount now now' current Hk Hget Hcur args sum _ _ _.
  apply String.eqb_neq in Hk.
  pose proof (@get_leaves_defined_entry H e k now current Hget Hcur) as Hold.
  subst sum args. unfold Worker.executeCommand, Worker.no_key, Worker.the_key.
  cbn [Worker.a_key Worker.a_amount truthy_str String.eqb Ascii.eqb Bool.eqb andb orb negb].
  rewrite Hk. cbn [negb].
  destruct (StorageEngine.get e k now) as [read e1] eqn:G. cbn [fst snd] in *.
  subst read.
  pose proof (@engine_get_after_set H e1 k
                (JNum (Worker.number_or_0 current
                       + Worker.amount_or_1 (Worker.mkArgs (Some k) None None None amount)))
                None now now' Hold ltac:(discriminate) ltac:(discriminate)) as Hafter.
  rewrite set_throws in *. cbn [snd] in *.
  eexists. split; [reflexivity|].
  rewrite Hafter. reflexivity.
Qed.

Lemma worker_incr_fails_after_writing_witness :
  exists e',
    @Worker.executeCommand ExampleHost.host (StorageEngine.new 64 true)
      "INCR" (Worker.mkArgs (Some "views") None None None None) 10
    = Some (Worker.Failed STORAGE_ERROR, e') /\
    @Worker.executeCommand ExampleHost.host e'
      "GET" (Worker.mkArgs (Some "views") None None None None) 11
    = Some (Worker.Resolved (Worker.RValue (JNum 1)), e').
Proof.
  exact (@worker_incr_fails_after_writing ExampleHost.host
           (StorageEngine.new 64 true) "views" None 10 11 JNull
           ltac:(discriminate) ltac:(reflexivity) ltac:(discriminate)
           ltac:(reflexivity) ltac:(reflexivity) ltac:(reflexivity)).
Defined.


(* ------------------------------------------------------------------ *)
(** ** The exported store: [SimpleStorage] *)

Module SimpleFacts.
Import SimpleStorage SimpleStore.

Lemma map_has_set :
  forall (V : Type) (m : Map V) k k' v,
    map_has k (map_set k' v m) = (k' =? k)%string || map_has k m.
Proof.
  intros V m k k' v. unfold map_has.
  destruct (k' =? k)%string eqn:E.
  - apply String.eqb_eq in E. subst. now rewrite map_get_set_same.
  - apply String.eqb_neq in E. now rewrite map_get_set_other.
Qed.

Lemma map_has_delete :
  forall (V : Type) (m : Map V) k k',
    map_has k (map_delete k' m) = negb (k' =? k)%string && map_has k m.
Proof.
  intros V m k k'. unfold map_has.
  destruct (k' =? k)%string eqn:E.
  - apply String.eqb_eq in E. subst. now rewrite map_get_delete_same.
  - apply String.eqb_neq in E. now rewrite map_get_delete_other.
Qed.

Lemma lapsed_drop_same : forall s k now, lapsed (drop s k) k now = false.
Proof.
  intros s k now. unfold lapsed, drop. simpl. now rewrite map_get_delete_same.
Qed.

Lemma lapsed_drop_other :
  forall s k k' now, k' <> k -> lapsed (drop s k') k now = lapsed s k now.
Proof.
  intros s k k' now Hne. unfold lapsed, drop. simpl.
  now rewrite map_get_delete_other.
Qed.

Lemma lapsed_later :
  forall s k now now', now <= now' -> lapsed s k now = true -> lapsed s k now' = true.
Proof.
  intros s k now now' Hle. unfold lapsed.
  destruct (map_get k (ttlData s)) as [expiry|]; [|discriminate].
  intros Hl. apply Z.ltb_lt in Hl. apply Z.ltb_lt. lia.
Qed.

Lemma consistent_new : consistent new.
Proof.
  repeat split; simpl; try constructor; intros; discriminate.
Qed.

Lemma consistent_drop : forall s k, consistent s -> consistent (drop s k).
Proof.
  intros s k (Hd & Ht & Hin & Hk). unfold drop. repeat split; simpl.
  - now apply map_delete_NoDup.
  - now apply map_delete_NoDup.
  - intros k0. rewrite !map_has_delete.
    destruct (k =? k0)%string; simpl; [discriminate | apply Hin].
  - intros k0 e Hg. destruct (String.eqb_spec k k0) as [->|Hne].
    + now rewrite map_get_delete_same in Hg.
    + rewrite map_get_delete_other in Hg by exact Hne. now apply Hk.
Qed.

Lemma consistent_set :
  forall s k v ttl_ms now, consistent s -> consistent (set s k v ttl_ms now).
Proof.
  intros s k v ttl_ms now (Hd & Ht & Hin & Hk). unfold set. repeat split; simpl.
  - now apply map_set_NoDup.
  - destruct ttl_ms as [n|]; [|exact Ht].
    destruct (truthy_num (Some n)); [now apply map_set_NoDup | exact Ht].
  - intros k0 Hh. rewrite map_has_set.
    destruct (k =? k0)%string eqn:E; [reflexivity|]. simpl. apply Hin.
    destruct ttl_ms as [n|]; [|exact Hh].
    destruct (truthy_num (Some n)); [|exact Hh].
    rewrite map_has_set, E in Hh. exact Hh.
  - intros k0 e Hg. destruct (String.eqb_spec k k0) as [->|Hne].
    + rewrite map_get_set_same in Hg. injection Hg as <-. reflexivity.
    + rewrite map_get_set_other in Hg by exact Hne. now apply Hk.
Qed.

Lemma consistent_expire :
  forall s k ttl_ms now, consistent s -> consistent (snd (expire s k ttl_ms now)).
Proof.
  intros s k ttl_ms now Hc. unfold expire.
  destruct (map_has k (data s)) eqn:Hh; simpl; [|exact Hc].
  destruct Hc as (Hd & Ht & Hin & Hk). repeat split; simpl; try assumption.
  - now apply map_set_NoDup.
  - intros k0. rewrite map_has_set.
    destruct (k =? k0)%string eqn:E; simpl; [|apply Hin].
    apply String.eqb_eq in E. subst k0. intros _. exact Hh.
Qed.

Lemma consistent_get : forall s k now, consistent s -> consistent (snd (get s k now)).
Proof.
  intros s k now Hc. unfold get.
  destruct (lapsed s k now); simpl; [now apply consistent_drop | exact Hc].
Qed.

Lemma consistent_info_loop :
  forall now todo s, consistent s -> consistent (info_loop now todo s).
Proof.
  intros now. induction todo as [|[k e] rest IH]; intros s Hc; simpl; [exact Hc|].
  destruct (lapsed s k now); apply IH; [now apply consistent_drop | exact Hc].
Qed.

Lemma consistent_keys_loop :
  forall matches now todo s result,
    consistent s -> consistent (snd (keys_loop matches now todo s result)).
Proof.
  intros matches now. induction todo as [|[k e] rest IH]; intros s result Hc; simpl;
    [exact Hc|].
  destruct (lapsed s k now); [apply IH; now apply consistent_drop|].
  destruct (matches k); now apply IH.
Qed.

Lemma consistent_mget :
  forall ks s now, consistent s -> consistent (snd (mget s ks now)).
Proof.
  induction ks as [|k rest IH]; intros s now Hc; simpl; [exact Hc|].
  pose proof (consistent_get k now Hc) as H1.
  destruct (get s k now) as [v s1]. simpl in H1.
  pose proof (IH s1 now H1) as H2.
  destruct (mget s1 rest now) as [vs s2]. exact H2.
Qed.

Lemma consistent_mset :
  forall entries s now, consistent s -> consistent (mset s entries now).
Proof.
  induction entries as [|entry rest IH]; intros s now Hc; simpl; [exact Hc|].
  apply IH. now apply consistent_set.
Qed.

Lemma consistent_step :
  forall parseInt s o, consistent s -> consistent (step parseInt s o).
Proof.
  intros parseInt s o Hc. destruct o; simpl.
  - now apply consistent_set.
  - now apply consistent_get.
  - now apply consistent_drop.
  - unfold exists_. destruct (lapsed s k now); simpl;
      [now apply consistent_drop | exact Hc].
  - now apply consistent_expire.
  - unfold ttl. destruct (negb (map_has k (data s))); simpl; [exact Hc|].
    destruct (map_get k (ttlData s)) as [expiry|]; simpl; [|exact Hc].
    destruct (expiry - now <=? 0)%Z; simpl; [now apply consistent_drop | exact Hc].
  - unfold incr. pose proof (consistent_get k now Hc) as H1.
    destruct (get s k now) as [v s1]. simpl in *. now apply consistent_set.
  - unfold decr. pose proof (consistent_get k now Hc) as H1.
    destruct (get s k now) as [v s1]. simpl in *. now apply consistent_set.
  - unfold keys. destruct pattern as [p|].
    + destruct (truthy_str (Some p)).
      * destruct (Regex.RegExp _) as [re|]; simpl; [|exact Hc].
        now apply consistent_keys_loop.
      * simpl. now apply consistent_keys_loop.
    + simpl. now apply consistent_keys_loop.
  - repeat split; simpl; try constructor; intros; discriminate.
  - now apply consistent_info_loop.
  - now apply consistent_mget.
  - now apply consistent_mset.
  - now apply consistent_info_loop.
Qed.

Lemma consistent_run :
  forall parseInt ops s, consistent s -> consistent (run parseInt ops s).
Proof.
  intros parseInt. unfold run.
  induction ops as [|o rest IH]; intros s Hc; simpl; [exact Hc|].
  apply IH. now apply consistent_step.
Qed.

End SimpleFacts.

(** X19.  Whatever calls the exported store has received since it was
    created ([set], [get], [del], [exists], [expire], [ttl], [incr],
    [decr], [keys], [flushall], [info], [mget], [mset] and the periodic
    clean-up, at any times), its two maps stay in step: no key is held
    twice, an expiry is recorded only for a key that is stored, and
    every entry is filed under its own key. *)
Theorem simple_storage_maps_stay_in_step :
  forall (parseInt : string -> option Z) (ops : list SimpleStore.op),
    SimpleStore.consistent (SimpleStore.run parseInt ops SimpleStorage.new).
Proof.
  intros parseInt ops. apply SimpleFacts.consistent_run, SimpleFacts.consistent_new.
Qed.

Module SimpleReads.
Import SimpleStorage SimpleStore.

Lemma get_value :
  forall s k now,
    fst (get s k now)
    = if lapsed s k now then JNull else value_or_null (map_get k (data s)).
Proof.
  intros s k now. unfold get. now destruct (lapsed s k now).
Qed.

Lemma lapsed_set_other :
  forall s k k' v ttl_ms now now',
    k' <> k -> lapsed (set s k' v ttl_ms now) k now' = lapsed s k now'.
Proof.
  intros s k k' v ttl_ms now now' Hne. unfold lapsed, set. simpl.
  destruct ttl_ms as [n|]; [|reflexivity].
  destruct (truthy_num (Some n)); [|reflexivity].
  now rewrite map_get_set_other.
Qed.

Lemma get_set_other :
  forall s k k' v ttl_ms now now',
    k' <> k -> fst (get (set s k' v ttl_ms now) k now') = fst (get s k now').
Proof.
  intros s k k' v ttl_ms now now' Hne. rewrite !get_value.
  rewrite lapsed_set_other by exact Hne.
  unfold set. simpl. now rewrite map_get_set_other.
Qed.

Lemma get_drop_other :
  forall s k k' now, k' <> k -> fst (get (drop s k') k now) = fst (get s k now).
Proof.
  intros s k k' now Hne. rewrite !get_value.
  rewrite SimpleFacts.lapsed_drop_other by exact Hne.
  unfold drop. simpl. now rewrite map_get_delete_other.
Qed.

Lemma get_drop_same : forall s k now, fst (get (drop s k) k now) = JNull.
Proof.
  intros s k now. rewrite get_value, SimpleFacts.lapsed_drop_same.
  unfold drop. simpl. now rewrite map_get_delete_same.
Qed.

Lemma lapsed_set_same :
  forall s k v ttl_ms now now',
    lapsed (set s k v ttl_ms now) k now'
    = match ttl_ms with
      | Some n => if (n =? 0)%Z then lapsed s k now' else (now + n <? now')%Z
      | None => lapsed s k now'
      end.
Proof.
  intros s k v ttl_ms now now'. unfold lapsed, set. simpl.
  destruct ttl_ms as [n|]; [|reflexivity]. simpl.
  destruct (n =? 0)%Z; simpl; [reflexivity|].
  now rewrite map_get_set_same.
Qed.

Lemma get_set_same :
  forall s k v ttl_ms now now',
    lapsed (set s k v ttl_ms now) k now' = false ->
    fst (get (set s k v ttl_ms now) k now') = or_null v.
Proof.
  intros s k v ttl_ms now now' Hl. rewrite get_value, Hl.
  unfold set. simpl. rewrite map_get_set_same. now destruct v.
Qed.

End SimpleReads.

(** X20.  In the exported store a [get] returns what the last [set] of the
    key stored ([null] for [undefined]), at every time up to the expiry
    in force: the one that [set] gave, or, when it gave none (no TTL or
    a TTL of zero), the one recorded before, if any. *)
Theorem simple_storage_get_returns_last_set :
  forall (s : SimpleStorage.t) (k : string) (v : jsval) (ttl_ms : option Z)
         (now now' : Z),
    (forall n, ttl_ms = Some n -> n <> 0 -> now' <= now + n) ->
    (truthy_num ttl_ms = false -> SimpleStorage.lapsed s k now' = false) ->
    fst (SimpleStorage.get (SimpleStorage.set s k v ttl_ms now) k now')
    = SimpleStore.or_null v.
Proof.
  intros s k v ttl_ms now now' Hgiven Hold.
  apply SimpleReads.get_set_same. rewrite SimpleReads.lapsed_set_same.
  destruct ttl_ms as [n|]; [|now apply Hold].
  destruct (n =? 0)%Z eqn:E.
  - apply Hold. simpl. now rewrite E.
  - apply Z.eqb_neq in E. apply Z.ltb_ge. now apply Hgiven.
Qed.

Lemma simple_storage_get_returns_last_set_witness :
  fst (SimpleStorage.get
         (SimpleStorage.set SimpleStorage.new "user:1" (JStr "ada") (Some 500) 10)
         "user:1" 510)
  = JStr "ada".
Proof.
  apply (@simple_storage_get_returns_last_set SimpleStorage.new "user:1" (JStr "ada")
           (Some 500) 10 510).
  - intros n [= <-] _. lia.
  - discriminate.
Defined.

(** X21.  A call on one key of the exported store never changes what [get]
    returns for another key: not [set], [del], [expire], nor the purge
    that [get], [exists] and [ttl] make of an expired key. *)
Theorem simple_storage_calls_leave_other_keys :
  forall (s : SimpleStorage.t) (k k' : string) (v : jsval) (ttl_ms : option Z)
         (t : Z) (now now' : Z),
    k <> k' ->
    let read s' := fst (SimpleStorage.get s' k' now') in
    read (SimpleStorage.set s k v ttl_ms now) = read s /\
    read (snd (SimpleStorage.del s k)) = read s /\
    read (snd (SimpleStorage.expire s k t now)) = read s /\
    read (snd (SimpleStorage.get s k now)) = read s /\
    read (snd (SimpleStorage.exists_ s k now)) = read s /\
    read (snd (SimpleStorage.ttl s k now)) = read s.
Proof.
  intros s k k' v ttl_ms t now now' Hne read. subst read. cbv beta.
  split; [now apply SimpleReads.get_set_other|].
  split; [now apply SimpleReads.get_drop_other|].
  split.
  { unfold SimpleStorage.expire.
    destruct (negb (map_has k (SimpleStorage.data s))); simpl; [reflexivity|].
    rewrite !SimpleReads.get_value. unfold SimpleStorage.lapsed. simpl.
    now rewrite map_get_set_other. }
  split.
  { unfold SimpleStorage.get at 2.
    destruct (SimpleStorage.lapsed s k now); simpl;
      [now apply SimpleReads.get_drop_other | reflexivity]. }
  split.
  { unfold SimpleStorage.exists_.
    destruct (SimpleStorage.lapsed s k now); simpl;
      [now apply SimpleReads.get_drop_other | reflexivity]. }
  unfold SimpleStorage.ttl.
  destruct (negb (map_has k (SimpleStorage.data s))); simpl; [reflexivity|].
  destruct (map_get k (SimpleStorage.ttlData s)) as [expiry|]; simpl; [|reflexivity].
  destruct (expiry - now <=? 0)%Z; simpl;
    [now apply SimpleReads.get_drop_other | reflexivity].
Qed.

Lemma simple_storage_calls_leave_other_keys_witness :
  fst (SimpleStorage.get
         (snd (SimpleStorage.del
                 (SimpleStorage.set SimpleStorage.new "b" (JNum 2) None 10) "a"))
         "b" 20)
  = JNum 2.
Proof.
  pose proof (@simple_storage_calls_leave_other_keys
                (SimpleStorage.set SimpleStorage.new "b" (JNum 2) None 10)
                "a" "b" JNull None 0 10 20 ltac:(discriminate)) as H.
  cbv zeta beta in H. destruct H as (_ & Hdel & _).
  rewrite Hdel. reflexivity.
Defined.

(** X22.  [del] of the exported store answers whether the key was stored
    (expired or not) and forgets the key with its expiry: afterwards
    [get] returns [null], [exists] false and [ttl] -2 at every time,
    and a later [set] without a TTL gives a key that never expires
    ([ttl] -1, [get] returns the value). *)
Theorem simple_storage_del_forgets_key_and_expiry :
  forall (s : SimpleStorage.t) (k : string) (v : jsval) (now now' : Z),
    let s' := snd (SimpleStorage.del s k) in
    let s'' := SimpleStorage.set s' k v None now in
    fst (SimpleStorage.del s k) = map_has k (SimpleStorage.data s) /\
    fst (SimpleStorage.get s' k now) = JNull /\
    fst (SimpleStorage.exists_ s' k now) = false /\
    fst (SimpleStorage.ttl s' k now) = -2 /\
    fst (SimpleStorage.ttl s'' k now') = -1 /\
    fst (SimpleStorage.get s'' k now') = SimpleStore.or_null v.
Proof.
  intros s k v now now' s' s''. subst s' s''. simpl.
  split; [reflexivity|].
  split; [apply SimpleReads.get_drop_same|].
  split.
  { unfold SimpleStorage.exists_. rewrite SimpleFacts.lapsed_drop_same. simpl.
    unfold map_has. now rewrite map_get_delete_same. }
  split.
  { unfold SimpleStorage.ttl. simpl. unfold map_has.
    now rewrite map_get_delete_same. }
  split.
  { unfold SimpleStorage.ttl, SimpleStorage.set. simpl. unfold map_has.
    rewrite map_get_set_same. simpl. now rewrite map_get_delete_same. }
  apply SimpleReads.get_set_same. rewrite SimpleReads.lapsed_set_same.
  apply SimpleFacts.lapsed_drop_same.
Qed.

(** X23.  [expire] on a key that the exported store holds succeeds, also when
    an earlier expiry of the key has passed and nothing has purged it
    yet.  From then on [get] returns the stored value up to and
    including the instant [now + ttl] and [null] after it, while [ttl]
    reports the remaining time, rounded up to seconds and at least 1,
    only before that instant, and -2 from that instant on. *)
Theorem simple_storage_expire_sets_the_deadline :
  forall (s : SimpleStorage.t) (k : string) (t : Z) (now now' : Z),
    map_has k (SimpleStorage.data s) = true ->
    let s' := snd (SimpleStorage.expire s k t now) in
    fst (SimpleStorage.expire s k t now) = true /\
    fst (SimpleStorage.get s' k now')
    = (if (now + t <? now')%Z then JNull
       else SimpleStorage.value_or_null (map_get k (SimpleStorage.data s))) /\
    fst (SimpleStorage.ttl s' k now')
    = (if (now + t <=? now')%Z then -2 else ceil_div (now + t - now') 1000) /\
    (now' < now + t -> 1 <= fst (SimpleStorage.ttl s' k now')).
Proof.
  intros s k t now now' Hh s'. subst s'. unfold SimpleStorage.expire.
  rewrite Hh. simpl.
  split; [reflexivity|].
  split.
  { rewrite SimpleReads.get_value. unfold SimpleStorage.lapsed. simpl.
    now rewrite map_get_set_same. }
  pose proof (SimpleStorage_ttl_cases
                (SimpleStorage.mk (SimpleStorage.data s)
                   (map_set k (now + t) (SimpleStorage.ttlData s))) k now') as Hc.
  cbv zeta in Hc. simpl in Hc. rewrite map_get_set_same in Hc.
  unfold map_has in Hh.
  destruct (map_get k (SimpleStorage.data s)) as [e|]; [|discriminate].
  destruct (now + t <=? now')%Z eqn:E.
  - split; [exact Hc|]. apply Z.leb_le in E. lia.
  - destruct Hc as [Hc Hpos]. split; [exact Hc | lia].
Qed.

Lemma simple_storage_expire_sets_the_deadline_witness :
  let s := SimpleStorage.set SimpleStorage.new "session" (JStr "tok") (Some 100) 0 in
  fst (SimpleStorage.get s "session" 500) = JNull /\
  fst (SimpleStorage.get (snd (SimpleStorage.expire s "session" 1000 500)) "session" 1500)
  = JStr "tok" /\
  fst (SimpleStorage.ttl (snd (SimpleStorage.expire s "session" 1000 500)) "session" 1500)
  = -2.
Proof.
  intros s.
  pose proof (@simple_storage_expire_sets_the_deadline s "session" 1000 500 1500
                ltac:(reflexivity)) as H.
  cbv zeta in H. destruct H as (_ & Hget & Httl & _).
  split; [reflexivity|]. split; [rewrite Hget | rewrite Httl]; reflexivity.
Defined.

Module SimpleScan.
Import SimpleStorage SimpleStore.

Lemma filter_filter :
  forall (A : Type) (p q : A -> bool) (l : list A),
    List.filter p (List.filter q l) = List.filter (fun x => q x && p x) l.
Proof.
  intros A p q. induction l as [|x r IH]; simpl; [reflexivity|].
  destruct (q x); simpl; [|exact IH].
  destruct (p x); now rewrite IH.
Qed.

Lemma filter_all :
  forall (A : Type) (p : A -> bool) (l : list A),
    (forall x, p x = true) -> List.filter p l = l.
Proof.
  intros A p l Hp. induction l as [|x r IH]; simpl; [reflexivity|].
  now rewrite Hp, IH.
Qed.

Lemma kept_after_drop :
  forall (V : Type) (rest : list string) s k now (kv : string * V),
    lapsed s k now = true ->
    negb (fst kv =? k)%string && kept rest (drop s k) now kv
    = kept (k :: rest) s now kv.
Proof.
  intros V rest s k now [k0 v] Hl. unfold kept. simpl.
  destruct (String.eqb_spec k0 k) as [->|Hne]; simpl.
  - now rewrite Hl.
  - rewrite SimpleFacts.lapsed_drop_other by congruence. reflexivity.
Qed.

Lemma kept_after_skip :
  forall (V : Type) (rest : list string) s k now (kv : string * V),
    lapsed s k now = false ->
    kept rest s now kv = kept (k :: rest) s now kv.
Proof.
  intros V rest s k now [k0 v] Hl. unfold kept. simpl.
  destruct (String.eqb_spec k0 k) as [->|Hne]; simpl; [|reflexivity].
  rewrite Hl. now rewrite !Bool.andb_false_r.
Qed.

Lemma info_loop_filters :
  forall now todo s,
    info_loop now todo s
    = mk (List.filter (kept (List.map fst todo) s now) (data s))
         (List.filter (kept (List.map fst todo) s now) (ttlData s)).
Proof.
  intros now. induction todo as [|[k e] rest IH]; intros s; simpl.
  - destruct s as [d tt]. simpl. now rewrite !filter_all.
  - destruct (lapsed s k now) eqn:Hl.
    + rewrite IH. unfold drop at 3 4. simpl. unfold map_delete.
      rewrite !filter_filter. f_equal; apply List.filter_ext; intros kv;
        now apply kept_after_drop.
    + rewrite IH. f_equal; apply List.filter_ext; intros kv;
        now apply kept_after_skip.
Qed.

Lemma keys_loop_result :
  forall matches now todo s result,
    NoDup (List.map fst todo) ->
    keys_loop matches now todo s result
    = (result ++ List.map (fun kv => key (snd kv))
                   (List.filter (fun kv => negb (lapsed s (fst kv) now) && matches (fst kv))
                      todo),
       info_loop now todo s).
Proof.
  intros matches now. induction todo as [|[k e] rest IH]; intros s result Hnd; simpl.
  - now rewrite List.app_nil_r.
  - inversion Hnd as [|? ? Hnotin Hnd']; subst.
    destruct (lapsed s k now) eqn:Hl; simpl.
    + rewrite IH by exact Hnd'. f_equal. f_equal. f_equal.
      apply List.filter_ext_in. intros [k0 e0] Hin. simpl.
      rewrite SimpleFacts.lapsed_drop_other; [reflexivity|].
      intros ->. apply Hnotin. now apply (List.in_map fst) in Hin.
    + destruct (matches k); simpl; rewrite IH by exact Hnd'; [|reflexivity].
      now rewrite <- List.app_assoc.
Qed.

Lemma existsb_own_key :
  forall (V : Type) (d : Map V) (kv : string * V),
    In kv d -> List.existsb (String.eqb (fst kv)) (List.map fst d) = true.
Proof.
  intros V d kv Hin. apply List.existsb_exists. exists (fst kv).
  split; [now apply List.in_map | apply String.eqb_refl].
Qed.

Lemma cleanup_data :
  forall s now,
    data (cleanupExpiredEntries s now)
    = List.filter (fun kv => negb (lapsed s (fst kv) now)) (data s).
Proof.
  intros s now. unfold cleanupExpiredEntries. rewrite info_loop_filters. simpl.
  apply List.filter_ext_in. intros kv Hin. unfold kept.
  now rewrite existsb_own_key.
Qed.

Lemma keys_of_consistent :
  forall s (p : string * StorageEntry -> bool),
    consistent s ->
    List.map (fun kv => key (snd kv)) (List.filter p (data s))
    = List.map fst (List.filter p (data s)).
Proof.
  intros s p (Hd & _ & _ & Hk). apply List.map_ext_in. intros [k e] Hin. simpl.
  apply List.filter_In in Hin. destruct Hin as [Hin _].
  apply Hk. now apply In_map_get.
Qed.

Lemma get_after_info_loop :
  forall now now' k todo s,
    now <= now' ->
    fst (get (info_loop now todo s) k now') = fst (get s k now').
Proof.
  intros now now' k. induction todo as [|[k0 e0] rest IH]; intros s Hle; simpl;
    [reflexivity|].
  destruct (lapsed s k0 now) eqn:Hl; [|now apply IH].
  rewrite IH by exact Hle.
  destruct (String.eqb_spec k0 k) as [->|Hne].
  - rewrite SimpleReads.get_drop_same, SimpleReads.get_value.
    now rewrite (SimpleFacts.lapsed_later s k Hle Hl).
  - now apply SimpleReads.get_drop_other.
Qed.

End SimpleScan.

(** X24.  [keys] without a pattern returns the keys of the exported store
    whose expiry, if any, has not passed, in the order in which they
    were first stored, and leaves the store as the clean-up of the
    expired entries does, so that [size] then is the number of keys
    listed.  [info] counts as [totalEntries] exactly the keys that
    [keys] lists, unless one of their values is [undefined]: then
    [info] throws a [TypeError], in [getSizeInBytes]. *)
Theorem simple_storage_keys_lists_unexpired_keys :
  forall (s : SimpleStorage.t) (now : Z),
    SimpleStore.consistent s ->
    let live :=
      List.filter (fun kv => negb (SimpleStorage.lapsed s (fst kv) now))
        (SimpleStorage.data s) in
    SimpleStorage.keys s None now
    = Some (List.map fst live, SimpleStore.cleanupExpiredEntries s now) /\
    fst (SimpleStorage.info_totalEntries s now)
    = (if List.existsb (fun kv => is_undefined (value (snd kv))) live
       then Threw TypeError
       else Completed (Z.of_nat (List.length live))) /\
    SimpleStore.size (SimpleStore.cleanupExpiredEntries s now)
    = Z.of_nat (List.length live).
Proof.
  intros s now Hc live. subst live.
  split.
  { unfold SimpleStorage.keys.
    rewrite SimpleScan.keys_loop_result by apply Hc. simpl.
    rewrite <- (SimpleScan.keys_of_consistent _ Hc). f_equal. f_equal. f_equal.
    apply List.filter_ext. intros kv. now rewrite Bool.andb_true_r. }
  unfold SimpleStorage.info_totalEntries, SimpleStorage.getSizeInBytes_throws,
    SimpleStore.size. cbn [fst].
  fold (SimpleStore.cleanupExpiredEntries s now).
  rewrite SimpleScan.cleanup_data. unfold map_size. split; reflexivity.
Qed.

Lemma simple_storage_keys_lists_unexpired_keys_witness :
  SimpleStorage.keys
    (SimpleStorage.set
       (SimpleStorage.set
          (SimpleStorage.set SimpleStorage.new "a" (JNum 1) None 0)
          "b" (JNum 2) (Some 5) 0)
       "c" (JNum 3) None 0)
    None 10
  = Some (["a"; "c"],
          SimpleStorage.set (SimpleStorage.set SimpleStorage.new "a" (JNum 1) None 0)
            "c" (JNum 3) None 0).
Proof.
  pose proof (@simple_storage_keys_lists_unexpired_keys
                (SimpleStorage.set
                   (SimpleStorage.set
                      (SimpleStorage.set SimpleStorage.new "a" (JNum 1) None 0)
                      "b" (JNum 2) (Some 5) 0)
                   "c" (JNum 3) None 0)
                10
                ltac:(repeat apply SimpleFacts.consistent_set;
                      apply SimpleFacts.consistent_new)) as H.
  cbv zeta in H. destruct H as (Hkeys & _). rewrite Hkeys. reflexivity.
Defined.

(** X25.  The periodic clean-up of the exported store is invisible to a
    reader: at the time of the clean-up and at every later time, [get]
    returns for every key what it would have returned without it. *)
Theorem simple_storage_cleanup_is_invisible :
  forall (s : SimpleStorage.t) (k : string) (now now' : Z),
    now <= now' ->
    fst (SimpleStorage.get (SimpleStore.cleanupExpiredEntries s now) k now')
    = fst (SimpleStorage.get s k now').
Proof.
  intros s k now now' Hle. unfold SimpleStore.cleanupExpiredEntries.
  now apply SimpleScan.get_after_info_loop.
Qed.

Lemma simple_storage_cleanup_is_invisible_witness :
  fst (SimpleStorage.get
         (SimpleStore.cleanupExpiredEntries
            (SimpleStorage.set SimpleStorage.new "a" (JNum 1) (Some 5) 0) 10)
         "a" 20)
  = JNull.
Proof.
  rewrite (@simple_storage_cleanup_is_invisible
             (SimpleStorage.set SimpleStorage.new "a" (JNum 1) (Some 5) 0) "a" 10 20
             ltac:(lia)).
  reflexivity.
Defined.

Module SimpleCounters.
Import SimpleStorage SimpleStore.

Lemma get_live :
  forall s k now,
    lapsed s k now = false ->
    get s k now = (value_or_null (map_get k (data s)), s).
Proof.
  intros s k now Hl. unfold get. now rewrite Hl.
Qed.

Lemma lapsed_earlier :
  forall s k now now', now <= now' -> lapsed s k now' = false -> lapsed s k now = false.
Proof.
  intros s k now now' Hle Hl. destruct (lapsed s k now) eqn:E; [|reflexivity].
  now rewrite (SimpleFacts.lapsed_later s k Hle E) in Hl.
Qed.

Lemma mset_app :
  forall l1 l2 s now, mset s (l1 ++ l2) now = mset (mset s l1 now) l2 now.
Proof.
  induction l1 as [|x r IH]; intros l2 s now; simpl; [reflexivity | apply IH].
Qed.

Lemma last_value_app :
  forall k l x,
    last_value k (l ++ [x])
    = if (i_key x =? k)%string then Some (i_value x) else last_value k l.
Proof.
  intros k l x. unfold last_value. now rewrite List.fold_left_app.
Qed.

Lemma lapsed_after_set :
  forall s k k' v ttl_ms now,
    (forall n, ttl_ms = Some n -> 0 <= n) ->
    lapsed s k now = false ->
    lapsed (set s k' v ttl_ms now) k now = false.
Proof.
  intros s k k' v ttl_ms now Hpos Hl.
  destruct (String.eqb_spec k' k) as [->|Hne].
  - rewrite SimpleReads.lapsed_set_same.
    destruct ttl_ms as [n|]; [|exact Hl].
    destruct (n =? 0)%Z; [exact Hl|].
    apply Z.ltb_ge. specialize (Hpos n eq_refl). lia.
  - now rewrite SimpleReads.lapsed_set_other.
Qed.

Lemma lapsed_after_mset :
  forall entries s k now,
    (forall entry n, In entry entries -> i_ttl entry = Some n -> 0 <= n) ->
    lapsed s k now = false ->
    lapsed (mset s entries now) k now = false.
Proof.
  induction entries as [|x r IH]; intros s k now Hpos Hl; simpl; [exact Hl|].
  apply IH.
  - intros entry n Hin. apply Hpos. now right.
  - apply lapsed_after_set; [|exact Hl].
    intros n. apply Hpos. now left.
Qed.

Lemma get_after_mset :
  forall entries s k now,
    (forall entry n, In entry entries -> i_ttl entry = Some n -> 0 <= n) ->
    lapsed s k now = false ->
    fst (get (mset s entries now) k now)
    = match last_value k entries with
      | Some v => or_null v
      | None => fst (get s k now)
      end.
Proof.
  induction entries as [|x r IH] using List.rev_ind; intros s k now Hpos Hl;
    [reflexivity|].
  rewrite mset_app, last_value_app. simpl.
  assert (Hr : forall entry n, In entry r -> i_ttl entry = Some n -> 0 <= n).
  { intros entry n Hin. apply Hpos, List.in_or_app. now left. }
  destruct (String.eqb_spec (i_key x) k) as [<-|Hne].
  - apply SimpleReads.get_set_same. apply lapsed_after_set.
    + intros n. apply (Hpos x). apply List.in_or_app. right. now left.
    + now apply lapsed_after_mset.
  - rewrite SimpleReads.get_set_other by exact Hne. now apply IH.
Qed.

Lemma mget_live :
  forall ks s now,
    (forall k, In k ks -> lapsed s k now = false) ->
    mget s ks now = (List.map (fun k => fst (get s k now)) ks, s).
Proof.
  induction ks as [|k rest IH]; intros s now Hl; simpl; [reflexivity|].
  rewrite (get_live s k now) by (apply Hl; now left). simpl.
  rewrite IH by (intros k0 Hin; apply Hl; now right). reflexivity.
Qed.

End SimpleCounters.

(** X26.  [decr] undoes [incr] in the exported store: on a key that holds the
    number [n] and has not expired, [incr] returns [n + 1], a following
    [decr] returns [n], and the key then reads [n] again, for [n] and
    [n + 1] among the integers that a number holds exactly.  The
    expiries recorded in [ttlData] are as they were, while the [ttl]
    field of the rewritten entry is empty. *)
Theorem simple_storage_decr_undoes_incr :
  forall (parseInt : string -> option Z) (s : SimpleStorage.t) (k : string)
         (e : StorageEntry) (n : Z) (now now' now'' : Z),
    map_get k (SimpleStorage.data s) = Some e ->
    value e = JNum n ->
    isSafeInteger n = true ->
    isSafeInteger (n + 1) = true ->
    now <= now' <= now'' ->
    SimpleStorage.lapsed s k now'' = false ->
    let r1 := SimpleStore.incr parseInt s k now in
    let r2 := SimpleStore.decr parseInt (snd r1) k now' in
    fst r1 = n + 1 /\ fst r2 = n /\
    fst (SimpleStorage.get (snd r2) k now'') = JNum n /\
    SimpleStorage.ttlData (snd r2) = SimpleStorage.ttlData s /\
    exists e2, map_get k (SimpleStorage.data (snd r2)) = Some e2 /\ ttl e2 = None.
Proof.
  intros parseInt s k e n now now' now'' Hg Hv _ _ [Hle Hle'] Hl r1 r2.
  subst r1 r2. unfold SimpleStore.incr.
  rewrite (SimpleCounters.get_live s k now)
    by (apply (@SimpleCounters.lapsed_earlier s k now now''); [lia | exact Hl]).
  rewrite Hg. simpl. rewrite Hv. simpl.
  split; [reflexivity|].
  set (s1 := SimpleStorage.set s k (JNum (n + 1)) None now).
  assert (Hl1 : forall t, SimpleStorage.lapsed s1 k t = SimpleStorage.lapsed s k t).
  { intros t. unfold s1. now rewrite SimpleReads.lapsed_set_same. }
  unfold SimpleStore.decr.
  rewrite (SimpleCounters.get_live s1 k now')
    by (rewrite Hl1; apply (@SimpleCounters.lapsed_earlier s k now' now'');
        [lia | exact Hl]).
  assert (Hg1 : SimpleStorage.value_or_null (map_get k (SimpleStorage.data s1))
                = JNum (n + 1)).
  { unfold s1, SimpleStorage.set. simpl. now rewrite map_get_set_same. }
  rewrite Hg1. simpl.
  replace (n + 1 - 1) with n by lia.
  split; [reflexivity|].
  split; [|split; [reflexivity|]].
  - change (JNum n) with (SimpleStore.or_null (JNum n)) at 2.
    apply SimpleReads.get_set_same.
    rewrite SimpleReads.lapsed_set_same, Hl1. exact Hl.
  - eexists. split; [apply map_get_set_same | reflexivity].
Qed.

Lemma simple_storage_decr_undoes_incr_witness :
  fst (SimpleStore.decr (fun _ => None)
         (snd (SimpleStore.incr (fun _ => None)
                 (SimpleStorage.set SimpleStorage.new "hits" (JNum 41) None 0)
                 "hits" 1))
         "hits" 2)
  = 41.
Proof.
  pose proof (@simple_storage_decr_undoes_incr (fun _ => None)
                (SimpleStorage.set SimpleStorage.new "hits" (JNum 41) None 0)
                "hits" (mkEntry "hits" (JNum 41) 0 None (Some 1)) 41 1 2 3
                ltac:(reflexivity) ltac:(reflexivity)
                ltac:(reflexivity) ltac:(reflexivity) ltac:(lia)
                ltac:(reflexivity)) as H.
  cbv zeta in H. destruct H as (_ & Hdecr & _). exact Hdecr.
Defined.

(** X27.  [incr] of the exported store starts a counter at 1: on a key that
    is absent, has expired, or holds [null] or a string that [parseInt]
    does not read as a number, it returns 1, and the key then reads 1. *)
Theorem simple_storage_incr_starts_at_one :
  forall (parseInt : string -> option Z) (s : SimpleStorage.t) (k : string) (now : Z),
    (fst (SimpleStorage.get s k now) = JNull \/
     exists str, fst (SimpleStorage.get s k now) = JStr str /\ parseInt str = None) ->
    fst (SimpleStore.incr parseInt s k now) = 1 /\
    fst (SimpleStorage.get (snd (SimpleStore.incr parseInt s k now)) k now) = JNum 1.
Proof.
  intros parseInt s k now Hcur. unfold SimpleStore.incr.
  assert (Hl1 : SimpleStorage.lapsed (snd (SimpleStorage.get s k now)) k now = false).
  { unfold SimpleStorage.get. destruct (SimpleStorage.lapsed s k now) eqn:Hl; simpl;
      [apply SimpleFacts.lapsed_drop_same | exact Hl]. }
  destruct (SimpleStorage.get s k now) as [cur s1]. simpl in *.
  assert (Hn : SimpleStore.numValue parseInt cur = 0).
  { destruct Hcur as [-> | (str & -> & Hp)]; simpl; [reflexivity | now rewrite Hp]. }
  rewrite Hn. simpl. split; [reflexivity|].
  change (JNum 1) with (SimpleStore.or_null (JNum 1)) at 2.
  apply SimpleReads.get_set_same.
  now rewrite SimpleReads.lapsed_set_same.
Qed.

Lemma simple_storage_incr_starts_at_one_witness :
  fst (SimpleStore.incr (fun _ => None)
         (SimpleStorage.set SimpleStorage.new "hits" (JNum 41) (Some 5) 0) "hits" 10)
  = 1.
Proof.
  apply (@simple_storage_incr_starts_at_one (fun _ => None)
           (SimpleStorage.set SimpleStorage.new "hits" (JNum 41) (Some 5) 0) "hits" 10).
  left. reflexivity.
Defined.

(** X28.  [mset] followed by [mget] in the exported store: when no key of the
    batch carries a lapsed expiry beforehand and no TTL of the batch is
    negative, [mget] on the keys of the batch returns, for each key, the
    value of the last element of the batch with that key ([null] for
    [undefined]), and it leaves the store as [mset] left it. *)
Theorem simple_storage_mget_reads_the_batch :
  forall (s : SimpleStorage.t) (entries : list SimpleStore.Item) (now : Z),
    (forall entry, In entry entries ->
       SimpleStorage.lapsed s (SimpleStore.i_key entry) now = false) ->
    (forall entry n, In entry entries -> SimpleStore.i_ttl entry = Some n -> 0 <= n) ->
    SimpleStore.mget (SimpleStore.mset s entries now)
      (List.map SimpleStore.i_key entries) now
    = (List.map
         (fun entry =>
            match SimpleStore.last_value (SimpleStore.i_key entry) entries with
            | Some v => SimpleStore.or_null v
            | None => JNull
            end)
         entries,
       SimpleStore.mset s entries now).
Proof.
  intros s entries now Hl Hpos.
  rewrite SimpleCounters.mget_live.
  - f_equal. rewrite List.map_map. apply List.map_ext_in. intros entry Hin.
    rewrite SimpleCounters.get_after_mset by (try exact Hpos; now apply Hl).
    destruct (SimpleStore.last_value (SimpleStore.i_key entry) entries) eqn:E;
      [reflexivity|].
    exfalso. revert E. clear -Hin. unfold SimpleStore.last_value.
    assert (G : forall l acc,
               (In entry l \/ acc <> None) ->
               List.fold_left
                 (fun acc0 x =>
                    if (SimpleStore.i_key x =? SimpleStore.i_key entry)%string
                    then Some (SimpleStore.i_value x) else acc0) l acc <> None).
    { induction l as [|x r IH]; intros acc [Hi | Ha]; simpl;
        try contradiction; try assumption.
      - destruct Hi as [-> | Hi].
        + rewrite String.eqb_refl. apply IH. right. discriminate.
        + apply IH. now left.
      - apply IH. right.
        destruct (SimpleStore.i_key x =? SimpleStore.i_key entry)%string;
          [discriminate | exact Ha]. }
    apply G. now left.
  - intros k Hin. apply List.in_map_iff in Hin. destruct Hin as (entry & <- & Hin).
    apply SimpleCounters.lapsed_after_mset; [exact Hpos | now apply Hl].
Qed.

Lemma simple_storage_mget_reads_the_batch_witness :
  fst (SimpleStore.mget
         (SimpleStore.mset SimpleStorage.new
            [SimpleStore.mkItem "a" (JNum 1) None;
             SimpleStore.mkItem "b" (JNum 2) (Some 50);
             SimpleStore.mkItem "a" (JNum 3) None] 0)
         ["a"; "b"; "a"] 0)
  = [JNum 3; JNum 2; JNum 3].
Proof.
  assert (Hl : forall entry : SimpleStore.Item,
             In entry
               [SimpleStore.mkItem "a" (JNum 1) None;
                SimpleStore.mkItem "b" (JNum 2) (Some 50);
                SimpleStore.mkItem "a" (JNum 3) None] ->
             SimpleStorage.lapsed SimpleStorage.new (SimpleStore.i_key entry) 0 = false).
  { intros entry _. reflexivity. }
  assert (Hpos : forall (entry : SimpleStore.Item) (n : Z),
             In entry
               [SimpleStore.mkItem "a" (JNum 1) None;
                SimpleStore.mkItem "b" (JNum 2) (Some 50);
                SimpleStore.mkItem "a" (JNum 3) None] ->
             SimpleStore.i_ttl entry = Some n -> 0 <= n).
  { intros entry n [<- | [<- | [<- | []]]]; simpl; intros [= <-]; lia. }
  exact (f_equal fst (@simple_storage_mget_reads_the_batch SimpleStorage.new _ 0 Hl Hpos)).
Defined.

Section EngineKeys.

Lemma set_add_NoDup :
  forall k (s : list string), NoDup s -> NoDup (StorageEngine.set_add k s).
Proof.
  intros k s Hnd. unfold StorageEngine.set_add.
  destruct (List.existsb (String.eqb k) s) eqn:E; [exact Hnd|].
  apply (Permutation_NoDup (Permutation_cons_append s k)).
  constructor; [|exact Hnd].
  intros Hin. assert (Ht : List.existsb (String.eqb k) s = true).
  { apply List.existsb_exists. exists k. split; [exact Hin | apply String.eqb_refl]. }
  congruence.
Qed.

Lemma set_add_In :
  forall k k0 (s : list string),
    In k0 (StorageEngine.set_add k s) <-> k0 = k \/ In k0 s.
Proof.
  intros k k0 s. unfold StorageEngine.set_add.
  destruct (List.existsb (String.eqb k) s) eqn:E.
  - split; [now right|]. intros [-> | Hin]; [|exact Hin].
    apply List.existsb_exists in E. destruct E as (x & Hin & Heq).
    apply String.eqb_eq in Heq. now subst.
  - rewrite List.in_app_iff. simpl. intuition congruence.
Qed.

Lemma scan_NoDup :
  forall (matches : string -> bool) (es : list StorageEntry) (acc : list string),
    NoDup acc ->
    NoDup (List.fold_left
             (fun a entry => if matches (key entry)
                             then StorageEngine.set_add (key entry) a else a)
             es acc).
Proof.
  intros matches. induction es as [|e r IH]; intros acc Hnd; simpl; [exact Hnd|].
  apply IH. destruct (matches (key e)); [now apply set_add_NoDup | exact Hnd].
Qed.

Lemma run_keys_NoDup :
  forall pattern s acc ks,
    NoDup acc -> StorageEngine.run_keys pattern s acc = Some ks -> NoDup ks.
Proof.
  intros pattern s acc ks Hnd. unfold StorageEngine.run_keys.
  destruct pattern as [p|].
  - destruct (truthy_str (Some p)).
    + destruct (Regex.RegExp _) as [re|]; simpl; [|discriminate].
      intros [= <-]. now apply scan_NoDup.
    + intros [= <-]. now apply (scan_NoDup (fun _ => true)).
  - intros [= <-]. now apply (scan_NoDup (fun _ => true)).
Qed.

Lemma runs_keys_NoDup :
  forall pattern runs acc ks,
    (forall a, acc = Some a -> NoDup a) ->
    List.fold_left
      (fun acc s => match acc with
                    | Some a => StorageEngine.run_keys pattern s a
                    | None => None
                    end) runs acc = Some ks ->
    NoDup ks.
Proof.
  intros pattern. induction runs as [|s r IH]; intros acc ks Hacc; simpl.
  - intros ->. now apply Hacc.
  - apply IH. intros a Ha. destruct acc as [a0|]; [|discriminate].
    eapply run_keys_NoDup; [|exact Ha]. now apply Hacc.
Qed.

End EngineKeys.

(** X29.  [keys] of the engine returns no key twice, although the memtable
    and any number of runs may hold the same key. *)
Theorem engine_keys_returns_no_key_twice :
  forall (e : StorageEngine.t) (pattern : option string) (now : Z)
         (ks : list string),
    StorageEngine.keys e pattern now = Some ks ->
    NoDup ks.
Proof.
  intros e pattern now ks. unfold StorageEngine.keys.
  destruct (Memtable.keys (StorageEngine.memtable e) pattern now) as [memKeys|];
    [|discriminate].
  apply runs_keys_NoDup. intros a [= <-].
  assert (G : forall l acc, NoDup acc ->
                NoDup (List.fold_left (fun a k => StorageEngine.set_add k a) l acc)).
  { induction l as [|k r IH]; intros acc Hnd; simpl; [exact Hnd|].
    apply IH. now apply set_add_NoDup. }
  apply G. constructor.
Qed.

Lemma engine_keys_returns_no_key_twice_witness :
  StorageEngine.keys
    (StorageEngine.mk WAL.new
       (snd (@Memtable.set ExampleHost.host (Memtable.new 64) "a" (JStr "2") None 6))
       ([live_run] :: List.repeat [] 6) false false [])
    None 7
  = Some ["a"] /\
  NoDup ["a"].
Proof.
  split; [reflexivity|].
  apply (@engine_keys_returns_no_key_twice
           (StorageEngine.mk WAL.new
              (snd (@Memtable.set ExampleHost.host (Memtable.new 64) "a" (JStr "2")
                      None 6))
              ([live_run] :: List.repeat [] 6) false false [])
           None 7 ["a"]).
  reflexivity.
Defined.
